(** * video-search-engine: the segmentation-and-alignment core of [app.py]

    A shallow embedding of the algorithmic part of [src/app.py]
    ([split_audio], [milliseconds_to_hms], [search_word_in_transcript] and the
    per-chunk loop of [process]) together with the properties the
    specification states about it.

    Modelling conventions.
    - Python [int] is [Z].  A Python [float] is an IEEE 754 double, kept as
      the rational number it stands for: every arithmetic operation on
      floats computes the exact result and rounds it to the nearest double,
      ties to even ([round_double]).  The exponent is not bounded above:
      the [OverflowError] of converting an [int] of 2 ** 1024 or more is
      not modelled.
    - Python [str] is [string], a sequence of characters of the ASCII
      range, on which [lower] and [split] act as [str.lower] and
      [str.split] do.
    - A Python [dict] is an insertion-ordered association list, since
      [sorted] is stable and iterates the keys in insertion order.
    - A raised exception is the [Raise] outcome of the [result] monad; a
      [while] loop whose termination is not structural carries fuel and
      answers [OutOfFuel] when it is exhausted.
    - External collaborators (speech recognition, difflib's similarity
      ratio, the slicing of pydub where it can fail) are parameters. *)

From Stdlib Require Import ZArith QArith Qround Qabs Qpower Lqa Lia.
From Stdlib Require Import Bool List String Ascii.
From Stdlib Require Import Decimal DecimalString DecimalPos DecimalN.
From Stdlib Require Import Sorting.Sorted Sorting.Permutation.
Import ListNotations.

Local Open Scope string_scope.
Local Open Scope list_scope.
Local Open Scope Z_scope.

(* ===================================================================== *)
(** * Outcomes of a Python computation *)
(* ===================================================================== *)

Inductive exn : Type :=
| ValueError
| KeyError
| ZeroDivisionError.

Inductive result (A : Type) : Type :=
| Ok (a : A)
| Raise (e : exn)
| OutOfFuel.

Arguments Ok {A} a.
Arguments Raise {A} e.
Arguments OutOfFuel {A}.

Definition bind {A B : Type} (c : result A) (k : A -> result B) : result B :=
  match c with
  | Ok a => k a
  | Raise e => Raise e
  | OutOfFuel => OutOfFuel
  end.

Notation "x <- c ;; k" := (bind c (fun x => k))
  (at level 61, c at next level, right associativity).
Notation "' p <- c ;; k" := (bind c (fun x => let 'p := x in k))
  (at level 61, p pattern, c at next level, right associativity).

(* ===================================================================== *)
(** * Strings: [str.lower], [str.split], decimal formatting *)
(* ===================================================================== *)

(** [str.isspace] on the ASCII range: TAB, LF, VT, FF, CR, FS, GS, RS, US
    and the space character. *)
Definition isspace (c : ascii) : bool :=
  let n := N_of_ascii c in
  ((9 <=? n) && (n <=? 13) || (28 <=? n) && (n <=? 32))%N.

(** [str.lower] on one character of the ASCII range. *)
Definition lower_ascii (c : ascii) : ascii :=
  let n := N_of_ascii c in
  if ((65 <=? n) && (n <=? 90))%N then ascii_of_N (n + 32) else c.

Fixpoint lower (s : string) : string :=
  match s with
  | EmptyString => EmptyString
  | String c s' => String (lower_ascii c) (lower s')
  end.

(** [str.split()] with no separator: maximal runs of non-space characters.
    [cur] is the token being read, in reverse. *)
Definition flush (cur : list ascii) : list string :=
  match cur with
  | [] => []
  | _ :: _ => [string_of_list_ascii (List.rev cur)]
  end.

Fixpoint split_from (cur : list ascii) (s : string) : list string :=
  match s with
  | EmptyString => flush cur
  | String c s' =>
      if isspace c then flush cur ++ split_from [] s'
      else split_from (c :: cur) s'
  end.

Definition split (s : string) : list string := split_from [] s.

(** Decimal digits of a natural number, as [str(int)] prints them. *)
Definition digits (n : N) : string := NilZero.string_of_uint (N.to_uint n).

Fixpoint zeros (k : nat) : string :=
  match k with
  | O => EmptyString
  | S k' => String "0" (zeros k')
  end.

Definition zfill (width : nat) (s : string) : string :=
  (zeros (width - String.length s) ++ s)%string.

(** The format specification [:02] applied to an [int]: sign-aware zero
    padding to a minimum width of two characters. *)
Definition format_02 (z : Z) : string :=
  if z <? 0 then ("-" ++ zfill 1 (digits (Z.abs_N z)))%string
  else zfill 2 (digits (Z.to_N z)).

(** Reading a decimal field back (used to state what a field denotes). *)
Definition decimal_value (s : string) : option Z :=
  option_map (fun d => Z.of_N (N.of_uint d)) (NilZero.uint_of_string s).

(* ===================================================================== *)
(** * TimeCodec: [milliseconds_to_hms] (app.py, lines 49-55) *)
(* ===================================================================== *)

(** [//] on a number and an [int]: the floor of the quotient.  The argument
    is an [int] or a float, read as the rational it stands for; on a float
    of the magnitude of a time, [//] and [%] give the floor and the
    remainder without rounding, as floats of integral value, and
    [int(...)] of these is the integer itself. *)
Definition milliseconds_to_hms (milliseconds : Q) : string :=
  let seconds := Qfloor (milliseconds / 1000) in
  let minutes := seconds / 60 in
  let hours := minutes / 60 in
  let minutes := minutes mod 60 in
  let seconds := seconds mod 60 in
  (format_02 hours ++ ":" ++ format_02 minutes ++ ":" ++ format_02 seconds)%string.

(* ===================================================================== *)
(** * Python dictionaries and the built-in [min] *)
(* ===================================================================== *)

(** A [dict] with string keys, in insertion order; keys are unique. *)
Definition dict (V : Type) : Type := list (string * V).

Definition keys {V : Type} (d : dict V) : list string := map fst d.

Fixpoint dict_get {V : Type} (d : dict V) (k : string) : option V :=
  match d with
  | [] => None
  | (k', v) :: d' => if String.eqb k k' then Some v else dict_get d' k
  end.

(** [k in d] *)
Definition dict_mem {V : Type} (d : dict V) (k : string) : bool :=
  match dict_get d k with
  | Some _ => true
  | None => false
  end.

(** [d[k]] as an expression: [KeyError] on a missing key. *)
Definition dict_getitem {V : Type} (d : dict V) (k : string) : result V :=
  match dict_get d k with
  | Some v => Ok v
  | None => Raise KeyError
  end.

(** [d[k] = v]: an existing key keeps its position, a new key goes last. *)
Fixpoint dict_set {V : Type} (d : dict V) (k : string) (v : V) : dict V :=
  match d with
  | [] => [(k, v)]
  | (k', v') :: d' =>
      if String.eqb k k' then (k', v) :: d' else (k', v') :: dict_set d' k v
  end.

(** [if k in d: d[k].append(v) else: d[k] = [v]] (lines 67-70 and 81-84), and
    equally [if k not in d: d[k] = []] followed by [d[k].append(v)]
    (lines 72-74 and 86-88). *)
Definition dict_append {V : Type} (d : dict (list V)) (k : string) (v : V)
  : dict (list V) :=
  match dict_get d k with
  | Some l => dict_set d k (l ++ [v])
  | None => dict_set d k [v]
  end.

Definition Qltb (a b : Q) : bool := negb (Qle_bool b a).

(** [min(a, b)]: the second argument wins only when it is strictly smaller. *)
Definition min2 (a b : Q) : Q := if Qltb b a then b else a.

(** [min(l)]: the first minimal element; [ValueError] on an empty list. *)
Definition py_min (l : list Q) : result Q :=
  match l with
  | [] => Raise ValueError
  | x :: l' => Ok (fold_left min2 l' x)
  end.

(** [2 ** e] *)
Definition pow2 (e : Z) : Q := Qpower 2 e.

(** The integer [l] with [2 ** l <= q < 2 ** (l + 1)], for [q > 0]: the
    position of the leading binary digit of [q]. *)
Definition ilog2 (q : Q) : Z :=
  let k := Z.log2 (Qnum q) - Z.log2 (Zpos (Qden q)) in
  if Qle_bool (pow2 k) q then k else k - 1.

(** The nearest integer, a tie going to the even one. *)
Definition round_half_even (x : Q) : Z :=
  let f := Qfloor x in
  match Qcompare (x - inject_Z f) (1 # 2) with
  | Lt => f
  | Gt => f + 1
  | Eq => if Z.even f then f else f + 1
  end.

(** The position of the last of the 53 binary digits a double keeps of
    [q > 0]; it is never below -1074, the last place of the subnormal
    doubles. *)
Definition last_place (q : Q) : Z := Z.max (ilog2 q - 52) (-1074).

Definition round_positive (q : Q) : Q :=
  (inject_Z (round_half_even (q / pow2 (last_place q)))
   * pow2 (last_place q))%Q.

(** The double nearest to [q], ties to even: the rounding every operation
    on floats ends with. *)
Definition round_double (q : Q) : Q :=
  match Qcompare q 0 with
  | Eq => 0%Q
  | Gt => round_positive q
  | Lt => (- round_positive (- q))%Q
  end.

#[local] Arguments round_double _ : simpl never.

(** [float(z)], the conversion an [int] operand undergoes when the other
    operand is a float. *)
Definition float_of_int (z : Z) : Q := round_double (inject_Z z).

(** [a + b], [a - b] and [a * b] on two floats. *)
Definition float_add (a b : Q) : Q := round_double (a + b).

Definition float_sub (a b : Q) : Q := round_double (a - b).

Definition float_mul (a b : Q) : Q := round_double (a * b).

(** [a / b] on two [int]s: the double nearest to the quotient. *)
Definition true_div (a b : Z) : result Q :=
  if b =? 0 then Raise ZeroDivisionError
  else Ok (round_double (inject_Z a / inject_Z b)).

(** A sort key of line 92: a time, or [float('inf')]. *)
Inductive sort_key : Type :=
| Finite (q : Q)
| Infinity.

(** [a < b] on sort keys. *)
Definition key_ltb (a b : sort_key) : bool :=
  match a, b with
  | Finite x, Finite y => Qltb x y
  | Finite _, Infinity => true
  | Infinity, _ => false
  end.

(** [sorted(l, key=...)] on a list already decorated with its keys: a stable
    sort, so an element moves in front of another only when its key is
    strictly smaller. *)
Fixpoint insert_by_key {A : Type} (x : sort_key * A) (l : list (sort_key * A))
  : list (sort_key * A) :=
  match l with
  | [] => [x]
  | y :: l' =>
      if key_ltb (fst y) (fst x) then y :: insert_by_key x l' else x :: y :: l'
  end.

Fixpoint sort_decorated {A : Type} (l : list (sort_key * A))
  : list (sort_key * A) :=
  match l with
  | [] => []
  | x :: l' => insert_by_key x (sort_decorated l')
  end.

Fixpoint map_result {A B : Type} (f : A -> result B) (l : list A)
  : result (list B) :=
  match l with
  | [] => Ok []
  | x :: l' => y <- f x ;; ys <- map_result f l' ;; Ok (y :: ys)
  end.

Definition sorted {A : Type} (l : list A) (key : A -> result sort_key)
  : result (list A) :=
  decorated <- map_result (fun x => k <- key x ;; Ok (k, x)) l ;;
  Ok (map snd (sort_decorated decorated)).

(* ===================================================================== *)
(** * WindowSegmenter: [split_audio] (app.py, lines 25-34) *)
(* ===================================================================== *)

(** The slice [audio[start:end]] appended at line 32, by its bounds.  The
    audio itself is known by [len(audio)], its duration in milliseconds. *)
Record chunk : Type := mkChunk { chunk_start : Z; chunk_end : Z }.

Definition overlap : Z := 3000.

Record split_state : Type := mkSplit { chunks : list chunk; start : Z }.

(** One turn of the [while] loop; [None] when the loop condition fails.
    With a window length of at least the overlap the start is never
    negative, and the slice is taken without failure; for the loop over a
    slice that can fail see [split_loop_sliced] below. *)
Definition split_step (len_audio chunk_length_ms : Z) (s : split_state)
  : option split_state :=
  if start s <? len_audio then
    let end_ := start s + chunk_length_ms in
    Some {| chunks := chunks s ++ [mkChunk (start s) end_];
            start := start s + (chunk_length_ms - overlap) |}
  else None.

Fixpoint split_loop (fuel : nat) (len_audio chunk_length_ms : Z)
  (s : split_state) : result (list chunk) :=
  match split_step len_audio chunk_length_ms s with
  | None => Ok (chunks s)
  | Some s' =>
      match fuel with
      | O => OutOfFuel
      | S fuel' => split_loop fuel' len_audio chunk_length_ms s'
      end
  end.

Definition split_audio (fuel : nat) (len_audio chunk_length_ms : Z)
  : result (list chunk) :=
  split_loop fuel len_audio chunk_length_ms {| chunks := []; start := 0 |}.

(** The loop state after [n] turns, when the loop is still running then. *)
Fixpoint split_iter (n : nat) (len_audio chunk_length_ms : Z)
  (s : split_state) : option split_state :=
  match n with
  | O => Some s
  | S n' =>
      match split_step len_audio chunk_length_ms s with
      | None => None
      | Some s' => split_iter n' len_audio chunk_length_ms s'
      end
  end.

(** Taking the slice [audio[start:end]] is an operation of pydub.  From a
    start inside the audio it gives the chunk, as [split_step] has it; at
    negative positions, which the loop only reaches with a window length
    below the overlap, it can raise an exception instead.  [split_loop_sliced]
    is the loop over a slice that can fail: [slices c] tells whether pydub
    returns the slice with the bounds of [c]. *)
Inductive segmentation : Type :=
| Returned (chunks : list chunk)
| SliceRaised (chunks : list chunk)
| StillRunning (chunks : list chunk).

Fixpoint split_loop_sliced (slices : chunk -> bool) (fuel : nat)
  (len_audio chunk_length_ms : Z) (s : split_state) {struct fuel}
  : segmentation :=
  if start s <? len_audio then
    let end_ := start s + chunk_length_ms in
    if slices (mkChunk (start s) end_) then
      let s' := {| chunks := chunks s ++ [mkChunk (start s) end_];
                   start := start s + (chunk_length_ms - overlap) |} in
      match fuel with
      | O => StillRunning (chunks s')
      | S fuel' => split_loop_sliced slices fuel' len_audio chunk_length_ms s'
      end
    else SliceRaised (chunks s)
  else Returned (chunks s).

Definition split_audio_sliced (slices : chunk -> bool) (fuel : nat)
  (len_audio chunk_length_ms : Z) : segmentation :=
  split_loop_sliced slices fuel len_audio chunk_length_ms
    {| chunks := []; start := 0 |}.

(* ===================================================================== *)
(** * OccurrenceFinder and phrase assembly: [search_word_in_transcript]
      (app.py, lines 57-120) *)
(* ===================================================================== *)

(** [word in search_words] *)
Definition mem (word : string) (l : list string) : bool :=
  existsb (String.eqb word) l.

(** The two dictionaries the token loop fills. *)
Record scan_state : Type := mkScan {
  timestamps : dict (list string);
  word_times : dict (list Q)
}.

(** [chunk_start_time + (i / len(words)) * chunk_length_ms]: the quotient
    of the two [int]s is a float, so the product and the sum are float
    operations, each [int] operand being converted first. *)
Definition word_time (chunk_start_time : Z) (i n : nat) (chunk_length_ms : Z)
  : result Q :=
  q <- true_div (Z.of_nat i) (Z.of_nat n) ;;
  Ok (float_add (float_of_int chunk_start_time)
        (float_mul q (float_of_int chunk_length_ms))).

(** Lines 66-74, and again lines 80-88 with [closest_word] for [word]. *)
Definition record_occurrence (key : string) (t : Q) (st : scan_state)
  : scan_state :=
  {| timestamps := dict_append (timestamps st) key (milliseconds_to_hms t);
     word_times := dict_append (word_times st) key t |}.

(** The pair [(score, x)] compared as Python compares tuples. *)
Definition scored_ltb (a b : Q * string) : bool :=
  if Qeq_bool (fst a) (fst b) then String.ltb (snd a) (snd b)
  else Qltb (fst a) (fst b).

(** [max(l)]: the first maximal element. *)
Definition best_scored (l : list (Q * string)) : option (Q * string) :=
  match l with
  | [] => None
  | a :: l' => Some (fold_left (fun m x => if scored_ltb m x then x else m) l' a)
  end.

Section Finder.

(** [SequenceMatcher(None, x, word).ratio()] of difflib, a similarity in
    [[0, 1]]: an external function. *)
Variable ratio : string -> string -> Q.

(** Modelled from the spec: [difflib.get_close_matches(word, possibilities,
    n=1, cutoff=cutoff)] is library code, not in the repository.  It is "the
    single best similarity match between the token and the search-term
    set", kept when "its similarity >= fuzzy_cutoff"; as in difflib, the
    candidates scoring at least [cutoff] are collected with their scores and
    the largest [(score, x)] is returned, and a [cutoff] outside [[0, 1]] is
    a [ValueError]. *)
Definition get_close_matches (word : string) (possibilities : list string)
  (cutoff : Q) : result (list string) :=
  if negb (Qle_bool 0 cutoff && Qle_bool cutoff 1) then Raise ValueError
  else
    let scored :=
      flat_map (fun x => if Qle_bool cutoff (ratio x word)
                         then [(ratio x word, x)] else []) possibilities in
    Ok (match best_scored scored with
        | Some (_, x) => [x]
        | None => []
        end).

(** The body of the loop of lines 63-88, for token [word] at index [i] of
    [n] tokens. *)
Definition scan_token (search_words : list string)
  (chunk_start_time chunk_length_ms : Z) (fuzzy_match : bool) (cutoff : Q)
  (n : nat) (st : scan_state) (i : nat) (word : string) : result scan_state :=
  if mem word search_words then
    t <- word_time chunk_start_time i n chunk_length_ms ;;
    Ok (record_occurrence word t st)
  else if fuzzy_match then
    similar_words <- get_close_matches word search_words cutoff ;;
    match similar_words with
    | closest_word :: _ =>
        t <- word_time chunk_start_time i n chunk_length_ms ;;
        Ok (record_occurrence closest_word t st)
    | [] => Ok st
    end
  else Ok st.

(** [for i, word in enumerate(words)], from index [i] on. *)
Fixpoint scan_from (search_words : list string)
  (chunk_start_time chunk_length_ms : Z) (fuzzy_match : bool) (cutoff : Q)
  (n i : nat) (words : list string) (st : scan_state) : result scan_state :=
  match words with
  | [] => Ok st
  | word :: words' =>
      st' <- scan_token search_words chunk_start_time chunk_length_ms
               fuzzy_match cutoff n st i word ;;
      scan_from search_words chunk_start_time chunk_length_ms fuzzy_match
        cutoff n (S i) words' st'
  end.

(** Lines 57-88: tokenise, lower-case, scan. *)
Definition scan (transcript : string) (search_words : list string)
  (chunk_start_time chunk_length_ms : Z) (fuzzy_match : bool) (cutoff : Q)
  : result scan_state :=
  let words := split (lower transcript) in
  let search_words := map lower search_words in
  scan_from search_words chunk_start_time chunk_length_ms fuzzy_match cutoff
    (List.length words) 0 words {| timestamps := []; word_times := [] |}.

End Finder.

(** The key of line 92:
    [min(word_times[w]) if word_times[w] else float('inf')]. *)
Definition earliest_key (wt : dict (list Q)) (w : string) : result sort_key :=
  times <- dict_getitem wt w ;;
  match times with
  | [] => Ok Infinity
  | _ :: _ => m <- py_min times ;; Ok (Finite m)
  end.

(** The inner loop of lines 102-112.  [rest] is [sorted_words[j:]]; the
    result carries [sorted_words[j:]] as the loop leaves it.  The test of
    line 106 subtracts two floats, and compares the absolute value of the
    rounded difference with the [int] 1000. *)
Fixpoint chain (wt : dict (list Q)) (current_times : list Q)
  (concatenated : string) (min_time : Q) (rest : list string)
  : result (string * Q * list string) :=
  match rest with
  | [] => Ok (concatenated, min_time, [])
  | next_word :: rest' =>
      next_times <- dict_getitem wt next_word ;;
      a <- py_min next_times ;;
      b <- py_min current_times ;;
      if Qle_bool (Qabs (float_sub a b)) 1000 then
        chain wt next_times (concatenated ++ " " ++ next_word)%string
          (min2 min_time a) rest'
      else Ok (concatenated, min_time, rest)
  end.

(** The outer loop of lines 94-118.  [rest] is [sorted_words[i:]]; the loop
    runs while [i < len(sorted_words) - 1], that is while two words are
    left. *)
Fixpoint phrases_loop (fuel : nat) (wt : dict (list Q)) (rest : list string)
  (concatenated_words concatenated_times : list string)
  : result (list string * list string) :=
  match rest with
  | current_word :: (_ :: _) as tail =>
      match fuel with
      | O => OutOfFuel
      | S fuel' =>
          current_times <- dict_getitem wt current_word ;;
          min_time <- py_min current_times ;;
          r <- chain wt current_times current_word min_time tail ;;
          let '(concatenated, min_time, rest') := r in
          if negb (String.eqb concatenated current_word) then
            phrases_loop fuel' wt rest'
              (concatenated_words ++ [concatenated])
              (concatenated_times ++ [milliseconds_to_hms min_time])
          else
            phrases_loop fuel' wt rest' concatenated_words concatenated_times
      end
  | _ => Ok (concatenated_words, concatenated_times)
  end.

(** Lines 90-118 on the dictionary of times the scan produced. *)
Definition assemble (wt : dict (list Q)) : result (list string * list string) :=
  sorted_words <- sorted (keys wt) (earliest_key wt) ;;
  phrases_loop (List.length sorted_words) wt sorted_words [] [].

Definition search_word_in_transcript (ratio : string -> string -> Q)
  (transcript : string) (search_words : list string)
  (chunk_start_time chunk_length_ms : Z) (fuzzy_match : bool) (cutoff : Q)
  : result (dict (list string) * list string * list string) :=
  st <- scan ratio transcript search_words chunk_start_time chunk_length_ms
          fuzzy_match cutoff ;;
  r <- assemble (word_times st) ;;
  Ok (timestamps st, fst r, snd r).

(* ===================================================================== *)
(** * AlignmentPipeline: the chunk loop of [process] (app.py, lines 166-185) *)
(* ===================================================================== *)

(** Lines 177-181. *)
Definition merge_word (timestamps : dict (list string))
  (item : string * list string) : dict (list string) :=
  let (word, times) := item in
  match dict_get timestamps word with
  | Some l => dict_set timestamps word (l ++ times)
  | None => dict_set timestamps word times
  end.

(** Lines 183-185. *)
Definition merge_phrase (timestamps : dict (list string))
  (item : string * string) : dict (list string) :=
  let (concatenated, time) := item in
  if dict_mem timestamps concatenated then timestamps
  else dict_set timestamps concatenated [time].

(** What one chunk adds to the global dictionary. *)
Definition merge_chunk (timestamps : dict (list string))
  (r : dict (list string) * list string * list string)
  : dict (list string) :=
  let '(word_timestamps, concatenated_words, concatenated_times) := r in
  let timestamps := fold_left merge_word word_timestamps timestamps in
  fold_left merge_phrase (combine concatenated_words concatenated_times)
    timestamps.

(** [for i, chunk in enumerate(chunks)], from chunk [i] on; [texts] are the
    transcriptions the recogniser returned for the chunks, in order. *)
Fixpoint process_chunks (ratio : string -> string -> Q)
  (search_words : list string) (fuzzy_match : bool) (cutoff : Q)
  (i : nat) (texts : list string) (timestamps : dict (list string))
  : result (dict (list string)) :=
  match texts with
  | [] => Ok timestamps
  | text :: texts' =>
      let chunk_start_time := Z.of_nat i * (15000 - 3000) in
      r <- search_word_in_transcript ratio text search_words
             chunk_start_time 15000 fuzzy_match cutoff ;;
      process_chunks ratio search_words fuzzy_match cutoff (S i) texts'
        (merge_chunk timestamps r)
  end.

Definition process (ratio : string -> string -> Q)
  (search_words : list string) (fuzzy_match : bool) (cutoff : Q)
  (texts : list string) : result (dict (list string)) :=
  process_chunks ratio search_words fuzzy_match cutoff 0 texts [].

(* ===================================================================== *)
(** * The rest of the request: [allowed_file], [transcribe_audio_chunk],
      [transliterate_search_words] and the body of [process]
      (app.py, lines 18-19, 36-47, 122-130, 151-185) *)
(* ===================================================================== *)

(** [app.config['ALLOWED_EXTENSIONS']] *)
Definition ALLOWED_EXTENSIONS : list string := ["mp4"; "avi"; "mov"; "mkv"].

(** ['.' in filename] *)
Fixpoint has_dot (s : string) : bool :=
  match s with
  | EmptyString => false
  | String c s' => Ascii.eqb c "." || has_dot s'
  end.

(** [filename.rsplit('.', 1)]: the text before and after the last dot, or
    the whole text alone when it has no dot. *)
Fixpoint rsplit_dot (s : string) : list string :=
  match s with
  | EmptyString => [EmptyString]
  | String c s' =>
      match rsplit_dot s' with
      | [before; after] => [String c before; after]
      | _ => if Ascii.eqb c "." then [EmptyString; s'] else [String c s']
      end
  end.

(** Line 19.  [None] stands for the [IndexError] of the subscript [[1]];
    [and] evaluates its right operand only when the left one holds. *)
Definition allowed_file (filename : string) : option bool :=
  if has_dot filename then
    match nth_error (rsplit_dot filename) 1 with
    | Some extension => Some (mem (lower extension) ALLOWED_EXTENSIONS)
    | None => None
    end
  else Some false.

(** What [recognizer.recognize_google] does with a chunk: the text, or one
    of the two exceptions line 44 and line 46 catch. *)
Inductive recognition : Type :=
| Recognized (text : string)
| UnknownValueError
| RequestError.

(** Lines 36-47, over the recogniser as a parameter. *)
Definition transcribe_audio_chunk (recognize : chunk -> string -> recognition)
  (c : chunk) (language : string) : string :=
  match recognize c language with
  | Recognized text => text
  | UnknownValueError => ""
  | RequestError => ""
  end.

(** Lines 122-130, over the transliteration as a parameter; [None] is an
    exception in it. *)
Fixpoint transliterate_search_words (transliterate : string -> option string)
  (words : list string) : list string :=
  match words with
  | [] => []
  | word :: words' =>
      match transliterate word with
      | Some hindi_script => hindi_script :: transliterate_search_words transliterate words'
      | None => word :: transliterate_search_words transliterate words'
      end
  end.

(** Lines 162-164. *)
Definition request_search_words (transliterate : string -> option string)
  (language search_string : string) : list string :=
  let search_words := split search_string in
  if String.eqb language "hi"
  then transliterate_search_words transliterate search_words
  else search_words.

(** Lines 160 and 166-185 of [process], from the duration of the extracted
    audio and the form fields on: the chunks, their transcriptions numbered
    from 1, and the dictionary of timestamps. *)
Definition process_video (ratio : string -> string -> Q)
  (transliterate : string -> option string)
  (recognize : chunk -> string -> recognition) (fuel : nat) (len_audio : Z)
  (language search_string : string) (fuzzy_match : bool) (cutoff : Q)
  : result (list (nat * string) * dict (list string)) :=
  chunks <- split_audio fuel len_audio 15000 ;;
  let search_words := request_search_words transliterate language search_string in
  let texts :=
    map (fun c => transcribe_audio_chunk recognize c
                    (if String.eqb language "hi" then "hi-IN" else "en-US"))
      chunks in
  timestamps <- process ratio search_words fuzzy_match cutoff texts ;;
  Ok (combine (seq 1 (List.length texts)) texts, timestamps).

(* ===================================================================== *)
(** * Notions used to state the properties *)
(* ===================================================================== *)

(** The window that starts [k] steps into the recording. *)
Definition window (step chunk_length_ms : Z) (k : nat) : chunk :=
  mkChunk (Z.of_nat k * step) (Z.of_nat k * step + chunk_length_ms).

(** The number of starts [0, step, 2*step, ...] below [total]. *)
Definition window_count (total step : Z) : nat :=
  Z.to_nat ((total + step - 1) / step).

(** The list stored under a key, empty when the key is absent. *)
Definition entries {V : Type} (d : dict (list V)) (k : string) : list V :=
  match dict_get d k with
  | Some l => l
  | None => []
  end.

(** [start_ms + (i / n) * length_ms] in exact arithmetic. *)
Definition exact_time (start_ms length_ms : Z) (i n : nat) : Q :=
  (inject_Z start_ms
   + (inject_Z (Z.of_nat i) / inject_Z (Z.of_nat n)) * inject_Z length_ms)%Q.

(** [start_ms + (i / n) * length_ms] in double precision, the time
    estimated for the token at index [i] of [n]: the quotient, the product
    and the sum are each rounded to the nearest double. *)
Definition estimated_time (start_ms length_ms : Z) (i n : nat) : Q :=
  float_add (float_of_int start_ms)
    (float_mul (round_double (inject_Z (Z.of_nat i) / inject_Z (Z.of_nat n)))
       (float_of_int length_ms)).

(** The search term a token is attributed to, if any: the token itself when
    it is a search term, else the close match when fuzzy matching is on. *)
Definition attributed (ratio : string -> string -> Q)
  (search_words : list string) (fuzzy_match : bool) (cutoff : Q)
  (word : string) : option string :=
  if mem word search_words then Some word
  else if fuzzy_match then
    match get_close_matches ratio word search_words cutoff with
    | Ok (closest_word :: _) => Some closest_word
    | _ => None
    end
  else None.

(** The occurrences of a window, in token order: for the tokens [words]
    standing at indices [i, i+1, ...] of [n], the attributed term and the
    estimated time. *)
Fixpoint occurrences_from (ratio : string -> string -> Q)
  (search_words : list string) (start_ms length_ms : Z) (fuzzy_match : bool)
  (cutoff : Q) (n i : nat) (words : list string) : list (string * Q) :=
  match words with
  | [] => []
  | word :: words' =>
      match attributed ratio search_words fuzzy_match cutoff word with
      | Some key => [(key, estimated_time start_ms length_ms i n)]
      | None => []
      end
      ++ occurrences_from ratio search_words start_ms length_ms fuzzy_match
           cutoff n (S i) words'
  end.

Definition record_all (occs : list (string * Q)) (st : scan_state)
  : scan_state :=
  fold_left (fun st o => record_occurrence (fst o) (snd o) st) occs st.

(** A stand-in for difflib's ratio in the examples: twice the length of the
    common prefix over the total length. *)
Fixpoint common_prefix (a b : string) : nat :=
  match a, b with
  | String x a', String y b' =>
      if Ascii.eqb x y then S (common_prefix a' b') else O
  | _, _ => O
  end.

Definition prefix_ratio (a b : string) : Q :=
  match (String.length a + String.length b)%nat with
  | O => 1%Q
  | S t => Qmake (2 * Z.of_nat (common_prefix a b)) (Pos.of_succ_nat t)
  end.

(** The earliest time recorded for a word. *)
Definition earliest (wt : dict (list Q)) (w : string) : Q :=
  match entries wt w with
  | [] => 0%Q
  | x :: l => fold_left min2 l x
  end.

(** Greedy clustering with an advancing reference, as the specification
    words it: [current] is the cluster being built and [reference] the
    earliest time of the word accepted last; a word within [gap] of the
    reference joins and becomes the reference, any other word closes the
    cluster and starts the next. *)
Fixpoint clusters_from (et : string -> Q) (gap : Q) (current : list string)
  (reference : Q) (ws : list string) : list (list string) :=
  match ws with
  | [] => [current]
  | w :: ws' =>
      if Qle_bool (Qabs (et w - reference)) gap
      then clusters_from et gap (current ++ [w]) (et w) ws'
      else current :: clusters_from et gap [w] (et w) ws'
  end.

Definition clusters (et : string -> Q) (gap : Q) (ws : list string)
  : list (list string) :=
  match ws with
  | [] => []
  | w :: ws' => clusters_from et gap [w] (et w) ws'
  end.

(** A cluster of two or more words. *)
Definition multiword (c : list string) : bool := (2 <=? List.length c)%nat.

(** The words of a cluster joined by single spaces. *)
Definition phrase_text (c : list string) : string := String.concat " " c.

(** The minimum occurrence time across all words of a cluster. *)
Definition phrase_time (wt : dict (list Q)) (c : list string) : Q :=
  match flat_map (entries wt) c with
  | [] => 0%Q
  | x :: l => fold_left min2 l x
  end.

(** The gap the test of line 106 allows between two times: their
    difference is rounded to the nearest double before it is compared with
    1000, and the numbers that round to 1000 or less are those up to
    [1000 + 2 ** -44], half a unit in the last place of 1000 above it. *)
Definition effective_gap : Q := 1000 + pow2 (-44).

(** The phrases a dictionary of times gives rise to: text and display
    time of every cluster of two or more words. *)
Definition phrases_of (wt : dict (list Q)) (sorted_words : list string)
  : list (list string) :=
  filter multiword (clusters (earliest wt) effective_gap sorted_words).

(** Every two neighbours of a cluster are within [gap]. *)
Fixpoint chained (et : string -> Q) (gap : Q) (c : list string) : Prop :=
  match c with
  | u :: (v :: _) as c' => (Qabs (et v - et u) <= gap)%Q /\ chained et gap c'
  | _ => True
  end.

(** The words following a reference that chain onto it, and the rest. *)
Fixpoint take_chain (et : string -> Q) (gap : Q) (reference : Q)
  (ws : list string) : list string * list string :=
  match ws with
  | [] => ([], [])
  | w :: ws' =>
      if Qle_bool (Qabs (et w - reference)) gap
      then (w :: fst (take_chain et gap (et w) ws'),
            snd (take_chain et gap (et w) ws'))
      else ([], ws)
  end.

(** What the inner loop appends to the first word of a phrase. *)
Fixpoint tail_text (ws : list string) : string :=
  match ws with
  | [] => EmptyString
  | w :: ws' => (" " ++ w ++ tail_text ws')%string
  end.

(** [a <= b] on sort keys, and on elements decorated with their keys. *)
Definition key_le (a b : sort_key) : Prop := key_ltb b a = false.

Definition key_ordered {A : Type} (a b : sort_key * A) : Prop :=
  key_le (fst a) (fst b).

(** A key whose list of times is not empty. *)
Definition present (wt : dict (list Q)) (w : string) : Prop :=
  exists x l, dict_get wt w = Some (x :: l).

(** Ascending earliest times. *)
Definition by_earliest (wt : dict (list Q)) (a b : string) : Prop :=
  (earliest wt a <= earliest wt b)%Q.

(** What holds of the dictionaries when the scan is over. *)
Definition scanned (search_words : list string) (st : scan_state) : Prop :=
  (forall w, In w (keys (word_times st)) -> present (word_times st) w)
  /\ (forall w, In w (keys (word_times st)) -> In w search_words)
  /\ keys (timestamps st) = keys (word_times st)
  /\ NoDup (keys (word_times st)).

(** A string with a space character in it. *)
Fixpoint has_space (s : string) : bool :=
  match s with
  | EmptyString => false
  | String c s' => Ascii.eqb c " " || has_space s'
  end.

(** The search of chunk [i], as the chunk loop calls it. *)
Definition chunk_result (ratio : string -> string -> Q)
  (search_words : list string) (fuzzy_match : bool) (cutoff : Q) (i : nat)
  (text : string) : result (dict (list string) * list string * list string) :=
  search_word_in_transcript ratio text search_words
    (Z.of_nat i * (15000 - 3000)) 15000 fuzzy_match cutoff.

Fixpoint results_from (ratio : string -> string -> Q)
  (search_words : list string) (fuzzy_match : bool) (cutoff : Q) (i : nat)
  (texts : list string)
  : list (result (dict (list string) * list string * list string)) :=
  match texts with
  | [] => []
  | text :: texts' =>
      chunk_result ratio search_words fuzzy_match cutoff i text
      :: results_from ratio search_words fuzzy_match cutoff (S i) texts'
  end.

(** The display time of phrase [p] in the first of the windows [rs] that
    produced it. *)
Fixpoint first_phrase_time
  (rs : list (dict (list string) * list string * list string)) (p : string)
  : option (list string) :=
  match rs with
  | [] => None
  | (_, concatenated_words, concatenated_times) :: rs' =>
      match dict_get (combine concatenated_words concatenated_times) p with
      | Some time => Some [time]
      | None => first_phrase_time rs' p
      end
  end.

(** What holds of the result of a window's search. *)
Definition window_ok (r : dict (list string) * list string * list string)
  : Prop :=
  NoDup (keys (fst (fst r)))
  /\ (forall k, In k (keys (fst (fst r))) -> has_space k = false)
  /\ (forall p, In p (snd (fst r)) -> has_space p = true)
  /\ List.length (snd (fst r)) = List.length (snd r).


(** Reading a display string back: the text before the first colon and
    the text after it, and the whole seconds the three fields stand for. *)
Fixpoint cut_colon (s : string) : string * option string :=
  match s with
  | EmptyString => (EmptyString, None)
  | String c s' =>
      if Ascii.eqb c ":" then (EmptyString, Some s')
      else (String c (fst (cut_colon s')), snd (cut_colon s'))
  end.

Definition hms_seconds (s : string) : option Z :=
  match cut_colon s with
  | (hh, Some rest) =>
      match cut_colon rest with
      | (mm, Some ss) =>
          match decimal_value hh, decimal_value mm, decimal_value ss with
          | Some h, Some m, Some sec => Some (h * 3600 + m * 60 + sec)
          | _, _, _ => None
          end
      | (_, None) => None
      end
  | (_, None) => None
  end.

Fixpoint has_colon (s : string) : bool :=
  match s with
  | EmptyString => false
  | String c s' => Ascii.eqb c ":" || has_colon s'
  end.

(** The two dictionaries of the scan, once the tokens before index [i] are
    done: the displays are those of the times, the times of a key are in
    ascending order, and each is the estimate of an index before [i]. *)
Definition chronological (start_ms length_ms : Z) (n i : nat)
  (st : scan_state) : Prop :=
  forall key,
    entries (timestamps st) key
    = map milliseconds_to_hms (entries (word_times st) key)
    /\ StronglySorted Qle (entries (word_times st) key)
    /\ (forall t, In t (entries (word_times st) key) ->
                  exists j, (j < i)%nat
                            /\ t = estimated_time start_ms length_ms j n).

(** Whether a token is attributed to a given search term. *)
Definition attributed_to (ratio : string -> string -> Q)
  (search_words : list string) (fuzzy_match : bool) (cutoff : Q)
  (key word : string) : bool :=
  match attributed ratio search_words fuzzy_match cutoff word with
  | Some k => String.eqb k key
  | None => false
  end.


(** [str.upper] on the ASCII range, and the strings of that range. *)
Definition upper_ascii (c : ascii) : ascii :=
  let n := N_of_ascii c in
  if ((97 <=? n) && (n <=? 122))%N then ascii_of_N (n - 32) else c.

Fixpoint upper (s : string) : string :=
  match s with
  | EmptyString => EmptyString
  | String c s' => String (upper_ascii c) (upper s')
  end.

Fixpoint is_ascii (s : string) : bool :=
  match s with
  | EmptyString => true
  | String c s' => (N_of_ascii c <? 128)%N && is_ascii s'
  end.

(* ===================================================================== *)
(** * Rounding to the nearest double *)
(* ===================================================================== *)

Lemma pow2_pos (e : Z) : (0 < pow2 e)%Q.
Proof. apply Qpower_0_lt. reflexivity. Qed.

Lemma pow2_le (a b : Z) : a <= b -> (pow2 a <= pow2 b)%Q.
Proof. intros H. apply Qpower_le_compat_l; [exact H | discriminate]. Qed.

Lemma pow2_lt_inv (a b : Z) : (pow2 a < pow2 b)%Q -> a < b.
Proof. intros H. apply (Qpower_lt_compat_l_inv 2); [exact H | reflexivity]. Qed.

Lemma pow2_plus (a b : Z) : (pow2 (a + b) == pow2 a * pow2 b)%Q.
Proof. apply Qpower_plus. discriminate. Qed.

Lemma pow2_inject (k : Z) : 0 <= k -> (inject_Z (2 ^ k) == pow2 k)%Q.
Proof. intros H. apply (Zpower_Qpower 2 k H). Qed.

Lemma Qnum_den (q : Q) :
  (q * inject_Z (Zpos (Qden q)) == inject_Z (Qnum q))%Q.
Proof. destruct q as [a b]. unfold Qeq. simpl. lia. Qed.

(** [ilog2] finds the leading binary digit. *)
Lemma ilog2_spec (q : Q) :
  (0 < q)%Q -> (pow2 (ilog2 q) <= q)%Q /\ (q < pow2 (ilog2 q + 1))%Q.
Proof.
  intros Hq.
  pose proof (Qnum_den q) as Hq'.
  assert (Ha : 0 < Qnum q) by (destruct q; unfold Qlt in Hq; simpl in *; lia).
  assert (Hb : 0 < Zpos (Qden q)) by reflexivity.
  unfold ilog2.
  set (a := Qnum q) in *. set (b := Zpos (Qden q)) in *.
  destruct (Z.log2_spec a Ha) as [Ha1 Ha2].
  destruct (Z.log2_spec b Hb) as [Hb1 Hb2].
  pose proof (Z.log2_nonneg a) as Hla. pose proof (Z.log2_nonneg b) as Hlb.
  assert (HA1 : (pow2 (Z.log2 a) <= inject_Z a)%Q)
    by (rewrite <- pow2_inject by lia; now rewrite <- Zle_Qle).
  assert (HA2 : (inject_Z a < pow2 (Z.log2 a + 1))%Q)
    by (rewrite <- pow2_inject by lia; now rewrite <- Zlt_Qlt).
  assert (HB1 : (pow2 (Z.log2 b) <= inject_Z b)%Q)
    by (rewrite <- pow2_inject by lia; now rewrite <- Zle_Qle).
  assert (HB2 : (inject_Z b < pow2 (Z.log2 b + 1))%Q)
    by (rewrite <- pow2_inject by lia; now rewrite <- Zlt_Qlt).
  assert (HB : (0 < inject_Z b)%Q) by (now rewrite (Zlt_Qlt 0 b) in Hb).
  set (k := Z.log2 a - Z.log2 b).
  destruct (Qle_bool (pow2 k) q) eqn:E.
  - apply Qle_bool_iff in E. split; [exact E|].
    apply (Qmult_lt_r _ _ (inject_Z b) HB). rewrite Hq'.
    eapply Qlt_le_trans; [exact HA2|].
    assert (Ek : (pow2 (Z.log2 a + 1) == pow2 (k + 1) * pow2 (Z.log2 b))%Q).
    { rewrite <- pow2_plus. unfold k.
      now replace (Z.log2 a - Z.log2 b + 1 + Z.log2 b) with (Z.log2 a + 1)
        by lia. }
    rewrite Ek. apply Qmult_le_l; [apply pow2_pos | exact HB1].
  - replace (k - 1 + 1) with k by lia. split.
    + apply (Qmult_le_r _ _ (inject_Z b) HB). rewrite Hq'.
      eapply Qle_trans; [|exact HA1].
      assert (Ek : (pow2 (Z.log2 a) == pow2 (k - 1) * pow2 (Z.log2 b + 1))%Q).
      { rewrite <- pow2_plus. unfold k.
        now replace (Z.log2 a - Z.log2 b - 1 + (Z.log2 b + 1)) with (Z.log2 a)
          by lia. }
      rewrite Ek. apply Qmult_le_l; [apply pow2_pos|].
      now apply Qlt_le_weak.
    + apply Qnot_le_lt. intros H. apply Qle_bool_iff in H. congruence.
Qed.

Lemma ilog2_monotone (p q : Q) :
  (0 < p)%Q -> (p <= q)%Q -> ilog2 p <= ilog2 q.
Proof.
  intros Hp Hpq.
  destruct (ilog2_spec p Hp) as [H1 _].
  destruct (ilog2_spec q (Qlt_le_trans _ _ _ Hp Hpq)) as [_ H2].
  assert (H : ilog2 p < ilog2 q + 1); [|lia].
  apply pow2_lt_inv.
  eapply Qle_lt_trans; [exact H1|]. eapply Qle_lt_trans; eassumption.
Qed.

Lemma round_half_even_bounds (x : Q) :
  Qfloor x <= round_half_even x <= Qfloor x + 1.
Proof.
  unfold round_half_even.
  destruct (Qcompare _ _); [destruct (Z.even _)| |]; lia.
Qed.

Lemma round_half_even_Z (z : Z) : round_half_even (inject_Z z) = z.
Proof.
  unfold round_half_even. rewrite Qfloor_Z.
  assert (E : (inject_Z z - inject_Z z ?= 1 # 2)%Q = Lt).
  { apply (proj1 (Qlt_alt _ _)). generalize (inject_Z z). intros t. lra. }
  now rewrite E.
Qed.

Lemma round_half_even_monotone (x y : Q) :
  (x <= y)%Q -> round_half_even x <= round_half_even y.
Proof.
  intros Hxy. pose proof (Qfloor_resp_le x y Hxy) as Hf.
  pose proof (round_half_even_bounds x) as Bx.
  pose proof (round_half_even_bounds y) as By.
  destruct (Z.eq_dec (Qfloor x) (Qfloor y)) as [E|NE]; [|lia].
  unfold round_half_even in *. rewrite E in *.
  destruct (Qcompare_spec (x - inject_Z (Qfloor y)) (1 # 2)) as [Hx|Hx|Hx];
    destruct (Qcompare_spec (y - inject_Z (Qfloor y)) (1 # 2)) as [Hy|Hy|Hy];
    try destruct (Z.even (Qfloor y)); try lia; exfalso; lra.
Qed.

Lemma last_place_monotone (p q : Q) :
  (0 < p)%Q -> (p <= q)%Q -> last_place p <= last_place q.
Proof.
  intros Hp Hpq. unfold last_place.
  pose proof (ilog2_monotone p q Hp Hpq). lia.
Qed.

Lemma Qdiv_pow2_le (p q : Q) (e : Z) :
  (p <= q)%Q -> (p / pow2 e <= q / pow2 e)%Q.
Proof.
  intros H. unfold Qdiv. apply Qmult_le_compat_r; [exact H|].
  apply Qinv_le_0_compat, Qlt_le_weak, pow2_pos.
Qed.

(** Below the exponent [e] of its last place a number fills less than 53
    binary digits. *)
Lemma scaled_below (q : Q) :
  (0 < q)%Q -> (q / pow2 (last_place q) < inject_Z (2 ^ 53))%Q.
Proof.
  intros Hq. destruct (ilog2_spec q Hq) as [_ H].
  apply Qlt_shift_div_r; [apply pow2_pos|].
  eapply Qlt_le_trans; [exact H|].
  rewrite (pow2_inject 53) by lia. rewrite <- pow2_plus.
  apply pow2_le. unfold last_place. lia.
Qed.

(** Above the subnormal range it fills all 53. *)
Lemma scaled_above (q : Q) :
  (0 < q)%Q -> -1074 < last_place q ->
  (inject_Z (2 ^ 52) <= q / pow2 (last_place q))%Q.
Proof.
  intros Hq He. destruct (ilog2_spec q Hq) as [H _].
  apply Qle_shift_div_l; [apply pow2_pos|].
  eapply Qle_trans; [|exact H].
  rewrite (pow2_inject 52) by lia. rewrite <- pow2_plus.
  apply pow2_le. unfold last_place in *. lia.
Qed.

Lemma round_positive_nonneg (q : Q) : (0 <= q)%Q -> (0 <= round_positive q)%Q.
Proof.
  intros Hq. unfold round_positive. apply Qmult_le_0_compat.
  - change 0%Q with (inject_Z 0). rewrite <- Zle_Qle.
    rewrite <- (round_half_even_Z 0). apply round_half_even_monotone.
    apply Qle_shift_div_l; [apply pow2_pos|]. now rewrite Qmult_0_l.
  - apply Qlt_le_weak, pow2_pos.
Qed.

Lemma round_positive_monotone (p q : Q) :
  (0 < p)%Q -> (p <= q)%Q -> (round_positive p <= round_positive q)%Q.
Proof.
  intros Hp Hpq.
  assert (Hq : (0 < q)%Q) by (eapply Qlt_le_trans; eassumption).
  pose proof (last_place_monotone p q Hp Hpq) as He.
  unfold round_positive.
  destruct (Z.eq_dec (last_place p) (last_place q)) as [E|NE].
  - rewrite E. apply Qmult_le_compat_r; [|apply Qlt_le_weak, pow2_pos].
    rewrite <- Zle_Qle. apply round_half_even_monotone.
    now apply Qdiv_pow2_le.
  - assert (H1 : round_half_even (p / pow2 (last_place p)) <= 2 ^ 53).
    { rewrite <- (round_half_even_Z (2 ^ 53)).
      apply round_half_even_monotone, Qlt_le_weak, scaled_below, Hp. }
    assert (H2 : 2 ^ 52 <= round_half_even (q / pow2 (last_place q))).
    { rewrite <- (round_half_even_Z (2 ^ 52)).
      apply round_half_even_monotone, scaled_above; [exact Hq|].
      unfold last_place in *. lia. }
    apply (Qle_trans _ (pow2 (53 + last_place p))).
    + rewrite pow2_plus, <- (pow2_inject 53) by lia.
      apply Qmult_le_compat_r; [|apply Qlt_le_weak, pow2_pos].
      now rewrite <- Zle_Qle.
    + apply (Qle_trans _ (pow2 (52 + last_place q))).
      * apply pow2_le. lia.
      * rewrite pow2_plus, <- (pow2_inject 52) by lia.
        apply Qmult_le_compat_r; [|apply Qlt_le_weak, pow2_pos].
        now rewrite <- Zle_Qle.
Qed.

(** Rounding to the nearest double keeps the order. *)
Lemma round_double_monotone (p q : Q) :
  (p <= q)%Q -> (round_double p <= round_double q)%Q.
Proof.
  intros Hpq. unfold round_double.
  destruct (Qcompare_spec p 0) as [Hp|Hp|Hp];
    destruct (Qcompare_spec q 0) as [Hq|Hq|Hq]; try (exfalso; lra).
  - apply Qle_refl.
  - apply round_positive_nonneg. lra.
  - pose proof (round_positive_nonneg (- p) ltac:(lra)). lra.
  - pose proof (round_positive_monotone (- q) (- p) ltac:(lra) ltac:(lra)). lra.
  - pose proof (round_positive_nonneg (- p) ltac:(lra)).
    pose proof (round_positive_nonneg q ltac:(lra)). lra.
  - now apply round_positive_monotone.
Qed.

Lemma round_double_nonneg (q : Q) : (0 <= q)%Q -> (0 <= round_double q)%Q.
Proof. intros H. apply (round_double_monotone 0 q H). Qed.

Lemma Qopp_involutive_eq (q : Q) : (- - q)%Q = q.
Proof. destruct q as [a b]. unfold Qopp. simpl. now rewrite Z.opp_involutive. Qed.

Lemma round_double_comp (p q : Q) :
  (p == q)%Q -> (round_double p == round_double q)%Q.
Proof.
  intros H. apply Qle_antisym; apply round_double_monotone; rewrite H;
    apply Qle_refl.
Qed.

Lemma round_double_positive (q : Q) :
  (0 < q)%Q -> round_double q = round_positive q.
Proof.
  intros H. unfold round_double.
  destruct (Qcompare_spec q 0); try (exfalso; lra). reflexivity.
Qed.

(** Rounding is symmetric about zero. *)
Lemma round_double_abs (q : Q) :
  (Qabs (round_double q) == round_double (Qabs q))%Q.
Proof.
  destruct (Qlt_le_dec q 0) as [Hq|Hq].
  - rewrite (round_double_comp (Qabs q) (- q)) by (apply Qabs_neg; lra).
    rewrite (round_double_positive (- q)) by lra.
    unfold round_double. destruct (Qcompare_spec q 0); try (exfalso; lra).
    pose proof (round_positive_nonneg (- q) ltac:(lra)).
    rewrite Qabs_neg by lra. now rewrite Qopp_involutive_eq.
  - rewrite (round_double_comp (Qabs q) q) by (apply Qabs_pos; lra).
    apply Qabs_pos. now apply round_double_nonneg.
Qed.

(** The nearest integer is within a half. *)
Lemma round_half_even_error (x : Q) :
  (x - (1 # 2) <= inject_Z (round_half_even x) <= x + (1 # 2))%Q.
Proof.
  pose proof (Qfloor_le x) as H1. pose proof (Qlt_floor x) as H2.
  rewrite inject_Z_plus in H2. change (inject_Z 1) with 1%Q in H2.
  unfold round_half_even.
  destruct (Qcompare_spec (x - inject_Z (Qfloor x)) (1 # 2)) as [H|H|H];
    [destruct (Z.even (Qfloor x))| |];
    try rewrite inject_Z_plus; change (inject_Z 1) with 1%Q;
    generalize dependent (inject_Z (Qfloor x)); intros f; intros; lra.
Qed.

Lemma ilog2_unique (q : Q) (l : Z) :
  (pow2 l <= q)%Q -> (q < pow2 (l + 1))%Q -> ilog2 q = l.
Proof.
  intros H1 H2.
  assert (Hq : (0 < q)%Q) by (eapply Qlt_le_trans; [apply pow2_pos | exact H1]).
  destruct (ilog2_spec q Hq) as [H3 H4].
  assert (ilog2 q < l + 1)
    by (apply pow2_lt_inv; eapply Qle_lt_trans; eassumption).
  assert (l < ilog2 q + 1)
    by (apply pow2_lt_inv; eapply Qle_lt_trans; eassumption).
  lia.
Qed.

(** A positive number is rounded by at most half a unit of its last
    place. *)
Lemma round_positive_error (q : Q) :
  (0 < q)%Q ->
  (q - pow2 (last_place q - 1) <= round_positive q
   <= q + pow2 (last_place q - 1))%Q.
Proof.
  intros Hq. unfold round_positive.
  set (e := last_place q).
  pose proof (pow2_pos e) as He.
  pose proof (round_half_even_error (q / pow2 e)) as [H1 H2].
  assert (Hhalf : (pow2 (e - 1) == (1 # 2) * pow2 e)%Q).
  { replace (e - 1) with ((-1) + e) by lia. rewrite pow2_plus. reflexivity. }
  assert (Hx : (q / pow2 e * pow2 e == q)%Q).
  { field. intros Hz. rewrite Hz in He. now apply Qlt_irrefl in He. }
  rewrite Hhalf.
  apply (Qmult_le_compat_r _ _ (pow2 e)) in H1; [|lra].
  apply (Qmult_le_compat_r _ _ (pow2 e)) in H2; [|lra].
  generalize dependent (inject_Z (round_half_even (q / pow2 e))).
  intros r H1 H2.
  generalize dependent (q / pow2 e)%Q. intros x Hx H1 H2.
  split; lra.
Qed.

(** Half a unit in the last place above 1000 is a tie, and goes to 1000,
    whose last binary digit is even. *)
Lemma round_double_near_1000 :
  (round_double (1000 + pow2 (-44)) == 1000)%Q /\ (round_double 1024 == 1024)%Q.
Proof. split; vm_compute; reflexivity. Qed.

(** The test of line 106 amounts to a comparison of the exact difference
    with [1000 + 2 ** -44]. *)
Lemma float_sub_test (a b : Q) :
  Qle_bool (Qabs (float_sub a b)) 1000 = Qle_bool (Qabs (a - b)) effective_gap.
Proof.
  apply eq_true_iff_eq. rewrite !Qle_bool_iff. unfold float_sub.
  rewrite round_double_abs. set (d := Qabs (a - b)).
  pose proof (Qabs_nonneg (a - b)) as Hd. fold d in Hd.
  destruct round_double_near_1000 as [Hgap H1024].
  split.
  - intros H. apply Qnot_lt_le. intros Hfar. unfold effective_gap in Hfar.
    pose proof (pow2_pos (-44)) as Hp.
    destruct (Qlt_le_dec d 1024) as [Hlt|Hge].
    + assert (Hpos : (0 < d)%Q) by lra.
      rewrite (round_double_positive d Hpos) in H.
      pose proof (round_positive_error d Hpos) as [Hlow _].
      assert (Hl : ilog2 d = 9).
      { apply ilog2_unique.
        - change (pow2 9) with (inject_Z 512). change (inject_Z 512) with 512%Q. lra.
        - change (pow2 (9 + 1)) with (inject_Z 1024). exact Hlt. }
      unfold last_place in Hlow. rewrite Hl in Hlow.
      change (Z.max (9 - 52) (-1074) - 1) with (-44) in Hlow. lra.
    + apply round_double_monotone in Hge. rewrite H1024 in Hge. lra.
  - intros H. apply round_double_monotone in H. unfold effective_gap in H.
    rewrite Hgap in H. exact H.
Qed.

Lemma effective_gap_above : (1000 <= effective_gap)%Q.
Proof. unfold effective_gap. pose proof (pow2_pos (-44)). lra. Qed.

(* ===================================================================== *)
(** * Properties of TimeCodec *)
(* ===================================================================== *)

Lemma length_append (s1 s2 : string) :
  String.length (s1 ++ s2)%string = (String.length s1 + String.length s2)%nat.
Proof. induction s1 as [|c s1 IH]; simpl; [reflexivity | now rewrite IH]. Qed.

Lemma length_zeros (k : nat) : String.length (zeros k) = k.
Proof. induction k as [|k IH]; simpl; [reflexivity | now rewrite IH]. Qed.

Lemma length_zfill (width : nat) (s : string) :
  (width <= String.length (zfill width s))%nat.
Proof.
  unfold zfill. rewrite length_append, length_zeros. lia.
Qed.

Lemma digits_not_empty (n : N) : digits n <> EmptyString.
Proof.
  unfold digits, NilZero.string_of_uint.
  destruct (N.to_uint n) eqn:E; simpl; try discriminate.
Qed.

Lemma uint_of_digits (n : N) :
  NilEmpty.uint_of_string (digits n) = Some (N.to_uint n).
Proof.
  unfold digits, NilZero.string_of_uint.
  destruct n as [|p].
  - reflexivity.
  - change (N.to_uint (N.pos p)) with (Pos.to_uint p).
    pose proof (DecimalPos.Unsigned.to_uint_nonnil p) as H.
    destruct (Pos.to_uint p) eqn:E; try congruence; apply NilEmpty.usu.
Qed.

Lemma uint_of_zeros (k : nat) (s : string) (d : uint) :
  NilEmpty.uint_of_string s = Some d ->
  exists d', NilEmpty.uint_of_string (zeros k ++ s)%string = Some d'
             /\ N.of_uint d' = N.of_uint d.
Proof.
  intros H. induction k as [|k [d' [IH1 IH2]]].
  - exists d. split; [exact H | reflexivity].
  - exists (D0 d'). split.
    + simpl. rewrite IH1. reflexivity.
    + simpl. exact IH2.
Qed.

(** A non-negative field is at least two characters wide and reads back as
    the number it was made from. *)
Lemma format_02_field (z : Z) :
  0 <= z ->
  (2 <= String.length (format_02 z))%nat /\ decimal_value (format_02 z) = Some z.
Proof.
  intros Hz. unfold format_02.
  destruct (Z.ltb_spec z 0) as [Hneg|_]; [lia|].
  split; [apply length_zfill|].
  unfold decimal_value, zfill.
  destruct (uint_of_zeros (2 - String.length (digits (Z.to_N z)))
              (digits (Z.to_N z)) _ (uint_of_digits (Z.to_N z)))
    as [d' [H1 H2]].
  assert (Hne : (zeros (2 - String.length (digits (Z.to_N z)))
                 ++ digits (Z.to_N z))%string <> EmptyString).
  { pose proof (digits_not_empty (Z.to_N z)) as Hd.
    destruct (zeros _); simpl; [exact Hd | discriminate]. }
  unfold NilZero.uint_of_string.
  destruct (zeros _ ++ digits _)%string eqn:E; [congruence|].
  rewrite H1. simpl. rewrite H2, DecimalN.Unsigned.of_to, Z2N.id by lia. reflexivity.
Qed.

Lemma Qfloor_div_1000 (m : Z) : Qfloor (inject_Z m / 1000) = m / 1000.
Proof. symmetry. apply (Zdiv_Qdiv m 1000). Qed.

(** C9: for a non-negative integer number of milliseconds [m] the display
    string is [HH:MM:SS] with [HH = m div 3600000], [MM = (m div 60000) mod 60]
    and [SS = (m div 1000) mod 60]; every field is zero-padded to at least two
    digits and reads back as exactly that number, so the hours field is not
    reduced modulo 24 or any other bound. *)
Theorem C9_milliseconds_to_hms_fields (m : Z) :
  0 <= m ->
  milliseconds_to_hms (inject_Z m)
  = (format_02 (m / 3600000) ++ ":" ++ format_02 ((m / 60000) mod 60)
     ++ ":" ++ format_02 ((m / 1000) mod 60))%string
  /\ (forall field,
        In field [m / 3600000; (m / 60000) mod 60; (m / 1000) mod 60] ->
        (2 <= String.length (format_02 field))%nat
        /\ decimal_value (format_02 field) = Some field).
Proof.
  intros Hm. split.
  - unfold milliseconds_to_hms. rewrite Qfloor_div_1000.
    rewrite !Zdiv_Zdiv by lia. reflexivity.
  - intros field [<-|[<-|[<-|[]]]]; apply format_02_field.
    + apply Z.div_pos; lia.
    + apply Z.mod_pos_bound; lia.
    + apply Z.mod_pos_bound; lia.
Qed.

(** One day and one hour, one minute, one second: the hours field reads 25. *)
Lemma C9_milliseconds_to_hms_witness :
  milliseconds_to_hms (inject_Z 90061000) = "25:01:01"
  /\ decimal_value (format_02 (90061000 / 3600000)) = Some 25.
Proof.
  destruct (C9_milliseconds_to_hms_fields 90061000 ltac:(lia)) as [H1 H2].
  split.
  - rewrite H1. reflexivity.
  - destruct (H2 (90061000 / 3600000) (or_introl eq_refl)) as [_ H].
    rewrite H. reflexivity.
Defined.

(* ===================================================================== *)
(** * Properties of WindowSegmenter *)
(* ===================================================================== *)

Section Segmentation.

Variables total chunk_length_ms : Z.

Let step : Z := chunk_length_ms - overlap.

Lemma split_step_running (s : split_state) :
  start s < total ->
  split_step total chunk_length_ms s
  = Some (mkSplit (chunks s ++ [mkChunk (start s) (start s + chunk_length_ms)])
            (start s + step)).
Proof.
  intros H. unfold split_step.
  destruct (Z.ltb_spec (start s) total); [reflexivity | lia].
Qed.

Lemma split_step_done (s : split_state) :
  total <= start s -> split_step total chunk_length_ms s = None.
Proof.
  intros H. unfold split_step.
  destruct (Z.ltb_spec (start s) total); [lia | reflexivity].
Qed.

(** [n] more windows are due from start [k * step] on: the loop emits
    exactly those and stops. *)
Lemma split_loop_emits (n : nat) :
  forall (k fuel : nat) (pre : list chunk),
    (n <= fuel)%nat ->
    (forall j, (k <= j < k + n)%nat -> Z.of_nat j * step < total) ->
    total <= Z.of_nat (k + n) * step ->
    split_loop fuel total chunk_length_ms (mkSplit pre (Z.of_nat k * step))
    = Ok (pre ++ map (window step chunk_length_ms) (seq k n)).
Proof.
  induction n as [|n IH]; intros k fuel pre Hfuel Hlt Hge.
  - rewrite Nat.add_0_r in Hge.
    destruct fuel; simpl; rewrite split_step_done by (simpl; lia);
      now rewrite app_nil_r.
  - destruct fuel as [|fuel]; [lia|].
    simpl. rewrite split_step_running by (simpl; apply Hlt; lia).
    simpl start. simpl chunks.
    replace (Z.of_nat k * step + step) with (Z.of_nat (S k) * step) by lia.
    rewrite IH.
    + rewrite <- app_assoc. reflexivity.
    + lia.
    + intros j Hj. apply Hlt. lia.
    + replace (S k + n)%nat with (k + S n)%nat by lia. exact Hge.
Qed.

Lemma window_count_bounds :
  0 < total -> 0 < step ->
  (1 <= window_count total step)%nat
  /\ (forall j, (j < window_count total step)%nat -> Z.of_nat j * step < total)
  /\ total <= Z.of_nat (window_count total step) * step.
Proof.
  intros Ht Hs. unfold window_count.
  set (q := (total + step - 1) / step).
  assert (Hq1 : step * q <= total + step - 1)
    by (apply Z.mul_div_le; lia).
  assert (Hq2 : total + step - 1 < step * (q + 1)).
  { pose proof (Z.mod_pos_bound (total + step - 1) step Hs) as Hm.
    pose proof (Z.div_mod (total + step - 1) step ltac:(lia)) as Hd.
    fold q in Hd. lia. }
  assert (Hq0 : 1 <= q) by nia.
  repeat split.
  - lia.
  - intros j Hj. assert (Z.of_nat j <= q - 1) by lia. nia.
  - rewrite Z2Nat.id by lia. nia.
Qed.

(** With a window length equal to the overlap the start offset stays at
    zero, and the loop has no end. *)
Lemma split_loop_stuck (fuel : nat) :
  chunk_length_ms = overlap -> 0 < total ->
  forall s, start s = 0 ->
    split_loop fuel total chunk_length_ms s = OutOfFuel.
Proof.
  intros HL Ht. induction fuel as [|fuel IH]; intros s Hs; simpl;
    rewrite split_step_running by lia.
  - reflexivity.
  - apply IH. simpl. unfold step. lia.
Qed.

End Segmentation.

(** C2: for a recording of positive duration and a window longer than the
    overlap, segmentation terminates (any fuel of at least the window count
    suffices) with a non-empty list of windows starting at
    [0, step, 2*step, ...] for [step = window length - overlap]; every start
    is below the total duration and the next multiple of [step] is not;
    consecutive windows overlap by exactly the overlap. *)
Theorem C2_split_audio_windows (total chunk_length_ms : Z) :
  0 < total -> overlap < chunk_length_ms ->
  exists n : nat,
    (1 <= n)%nat
    /\ (forall fuel, (n <= fuel)%nat ->
          split_audio fuel total chunk_length_ms
          = Ok (map (window (chunk_length_ms - overlap) chunk_length_ms)
                  (seq 0 n)))
    /\ (forall k, (k < n)%nat ->
          Z.of_nat k * (chunk_length_ms - overlap) < total)
    /\ total <= Z.of_nat n * (chunk_length_ms - overlap)
    /\ (forall k, (S k < n)%nat ->
          chunk_end (window (chunk_length_ms - overlap) chunk_length_ms k)
          - chunk_start (window (chunk_length_ms - overlap) chunk_length_ms (S k))
          = overlap).
Proof.
  intros Ht HL.
  destruct (window_count_bounds total chunk_length_ms Ht ltac:(lia))
    as [H1 [H2 H3]].
  exists (window_count total (chunk_length_ms - overlap)).
  repeat split; try assumption.
  - intros fuel Hfuel. unfold split_audio.
    change 0 with (Z.of_nat 0 * (chunk_length_ms - overlap)).
    rewrite (split_loop_emits total chunk_length_ms _ 0 fuel [] Hfuel).
    + reflexivity.
    + intros j Hj. apply H2. lia.
    + exact H3.
  - intros k _. unfold window. cbn [chunk_end chunk_start].
    rewrite Nat2Z.inj_succ. lia.
Qed.

(** The scenario of the specification: 40000 ms of audio in windows of
    15000 ms start at 0, 12000, 24000 and 36000. *)
Lemma C2_split_audio_witness :
  exists n : nat,
    map chunk_start (map (window (15000 - overlap) 15000) (seq 0 n))
    = [0; 12000; 24000; 36000]
    /\ split_audio n 40000 15000
       = Ok (map (window (15000 - overlap) 15000) (seq 0 n)).
Proof.
  destruct (C2_split_audio_windows 40000 15000 ltac:(lia) ltac:(reflexivity))
    as [n [Hn [Hrun [Hlt [Hge _]]]]].
  exists n. split.
  - assert (n = 4%nat) as ->.
    { unfold overlap in *.
      assert (~ (n < 4)%nat).
      { intros Hc. assert (Z.of_nat n <= 3) by lia. lia. }
      assert (~ (4 < n)%nat).
      { intros Hc. specialize (Hlt 4%nat Hc). simpl in Hlt. lia. }
      lia. }
    reflexivity.
  - apply Hrun. lia.
Defined.

(** C8 (as stated, refuted): with a window length equal to the overlap and
    one millisecond of audio, segmentation does not fail fast: no amount of
    fuel lets the loop return, and after two turns two windows are out. *)
Lemma C8_no_fail_fast :
  (forall fuel, split_audio fuel 1 3000 = OutOfFuel)
  /\ split_iter 2 1 3000 (mkSplit [] 0)
     = Some (mkSplit [mkChunk 0 3000; mkChunk 0 3000] 0).
Proof.
  split.
  - intros fuel. unfold split_audio.
    apply split_loop_stuck; reflexivity.
  - reflexivity.
Qed.

(** In the loop over a slice that can fail, with a window length not above
    the overlap: the loop is left by a failing slice or not at all, and
    what it has appended starts with the slice at its first offset when
    that one succeeds. *)
Lemma split_loop_sliced_stuck (slices : chunk -> bool)
  (total chunk_length_ms : Z) (fuel : nat) :
  chunk_length_ms <= overlap -> 0 < total ->
  forall s, start s <= 0 ->
    exists more,
      (split_loop_sliced slices fuel total chunk_length_ms s
       = StillRunning (chunks s ++ more)
       /\ List.length more = S fuel
       \/ split_loop_sliced slices fuel total chunk_length_ms s
          = SliceRaised (chunks s ++ more)
          /\ (List.length more <= fuel)%nat)
      /\ (slices (mkChunk (start s) (start s + chunk_length_ms)) = true ->
          hd_error more
          = Some (mkChunk (start s) (start s + chunk_length_ms))).
Proof.
  intros HL Ht. induction fuel as [|fuel IH]; intros s Hs;
    cbn [split_loop_sliced];
    (destruct (Z.ltb_spec (start s) total) as [_|Hge]; [|lia]);
    destruct (slices (mkChunk (start s) (start s + chunk_length_ms))) eqn:E.
  - exists [mkChunk (start s) (start s + chunk_length_ms)].
    split; [left; split; reflexivity | reflexivity].
  - exists []. rewrite app_nil_r.
    split; [right; split; [reflexivity | simpl; lia] | discriminate].
  - destruct (IH (mkSplit
                    (chunks s ++ [mkChunk (start s) (start s + chunk_length_ms)])
                    (start s + (chunk_length_ms - overlap))))
      as [more [Hrun _]]; [simpl; lia|].
    cbn [chunks start] in Hrun. rewrite <- !app_assoc in Hrun.
    exists (mkChunk (start s) (start s + chunk_length_ms) :: more).
    split; [|reflexivity].
    destruct Hrun as [[-> Hlen]|[-> Hlen]]; [left | right];
      (split; [reflexivity | simpl; lia]).
  - exists []. rewrite app_nil_r.
    split; [right; split; [reflexivity | simpl; lia] | discriminate].
Qed.

(** With a window length equal to the overlap the start stays at 0, and the
    loop appends the slice from 0 for ever. *)
Lemma split_loop_sliced_repeats (slices : chunk -> bool) (total : Z)
  (fuel : nat) :
  0 < total -> slices (mkChunk 0 overlap) = true ->
  forall s, start s = 0 ->
    split_loop_sliced slices fuel total overlap s
    = StillRunning (chunks s ++ repeat (mkChunk 0 overlap) (S fuel)).
Proof.
  intros Ht Hslice. induction fuel as [|fuel IH]; intros s Hs;
    cbn [split_loop_sliced]; rewrite Hs;
    (destruct (Z.ltb_spec 0 total) as [_|Hge]; [|lia]);
    cbn [Z.add]; rewrite Hslice.
  - reflexivity.
  - rewrite IH by reflexivity. cbn [chunks]. rewrite <- app_assoc. reflexivity.
Qed.

(** Where every slice from a start inside the audio succeeds, the loop over
    a slice that can fail returns what [split_loop] returns, for a window
    length above the overlap. *)
Lemma split_loop_sliced_valid (slices : chunk -> bool)
  (total chunk_length_ms : Z) (fuel : nat) :
  overlap < chunk_length_ms ->
  (forall c, 0 <= chunk_start c -> slices c = true) ->
  forall s cs, 0 <= start s ->
    split_loop fuel total chunk_length_ms s = Ok cs
    <-> split_loop_sliced slices fuel total chunk_length_ms s = Returned cs.
Proof.
  intros HL Hslices. induction fuel as [|fuel IH]; intros s cs Hs;
    cbn [split_loop split_loop_sliced]; unfold split_step;
    destruct (Z.ltb_spec (start s) total) as [Hlt|Hge];
    try rewrite (Hslices (mkChunk (start s) (start s + chunk_length_ms)) Hs);
    try (split; congruence).
  apply IH. simpl. lia.
Qed.

(** C8 (amended): segmentation validates nothing and does not fail fast.
    With a window length not above the overlap (which includes every
    non-positive length) and audio of positive duration, the loop is
    entered and, whatever the fuel, is left only by a slice that raises:
    it never returns its list.  The first slice, from 0, is taken before
    anything else and, when it succeeds, is the first window.  With a
    window length equal to the overlap the start stays at 0 and the loop
    appends that same window for ever.  With audio of no duration the
    function returns at once, without a window. *)
Theorem C8_split_audio_invalid_parameters (slices : chunk -> bool)
  (total chunk_length_ms : Z) :
  chunk_length_ms <= overlap ->
  (0 < total ->
     (forall fuel, exists cs,
         split_audio_sliced slices fuel total chunk_length_ms = StillRunning cs
         /\ List.length cs = S fuel
         \/ split_audio_sliced slices fuel total chunk_length_ms
            = SliceRaised cs
            /\ (List.length cs <= fuel)%nat)
     /\ (slices (mkChunk 0 chunk_length_ms) = true ->
         forall fuel, exists cs,
           split_audio_sliced slices fuel total chunk_length_ms
           = StillRunning (mkChunk 0 chunk_length_ms :: cs)
           \/ split_audio_sliced slices fuel total chunk_length_ms
              = SliceRaised (mkChunk 0 chunk_length_ms :: cs))
     /\ (chunk_length_ms = overlap -> slices (mkChunk 0 overlap) = true ->
         forall fuel,
           split_audio_sliced slices fuel total chunk_length_ms
           = StillRunning (repeat (mkChunk 0 overlap) (S fuel))))
  /\ (total <= 0 ->
      forall fuel,
        split_audio_sliced slices fuel total chunk_length_ms = Returned []).
Proof.
  intros HL. split.
  - intros Ht. split; [|split].
    + intros fuel. unfold split_audio_sliced.
      destruct (split_loop_sliced_stuck slices total chunk_length_ms fuel HL Ht
                  (mkSplit [] 0)) as [more [Hrun _]]; [simpl; lia|].
      exists more. exact Hrun.
    + intros Hfirst fuel. unfold split_audio_sliced.
      destruct (split_loop_sliced_stuck slices total chunk_length_ms fuel HL Ht
                  (mkSplit [] 0)) as [more [Hrun Hhd]]; [simpl; lia|].
      specialize (Hhd Hfirst). destruct more as [|c more]; [discriminate|].
      injection Hhd as ->. exists more.
      destruct Hrun as [[-> _]|[-> _]]; [now left | now right].
    + intros -> Hfirst fuel. unfold split_audio_sliced.
      now rewrite split_loop_sliced_repeats.
  - intros Ht fuel. unfold split_audio_sliced.
    destruct fuel; cbn [split_loop_sliced start chunks];
      (destruct (Z.ltb_spec 0 total); [lia | reflexivity]).
Qed.

(** With a slice that succeeds from any start not further before the end
    of the audio than the audio is long: 40000 ms of audio in windows of
    3000 ms loop for ever; 5000 ms of audio in windows of 1000 ms raise at
    the fourth slice, after three windows; audio of no duration returns. *)
Lemma C8_split_audio_invalid_witness :
  (forall fuel,
      split_audio_sliced (fun c => - 40000 <=? chunk_start c) fuel 40000 3000
      = StillRunning (repeat (mkChunk 0 3000) (S fuel)))
  /\ (exists cs,
        split_audio_sliced (fun c => - 5000 <=? chunk_start c) 10 5000 1000
        = SliceRaised (mkChunk 0 1000 :: cs)
        /\ cs = [mkChunk (-2000) (-1000); mkChunk (-4000) (-3000)])
  /\ (forall fuel,
        split_audio_sliced (fun c => - 5000 <=? chunk_start c) fuel 0 (-5)
        = Returned []).
Proof.
  split; [|split].
  - apply (C8_split_audio_invalid_parameters
             (fun c => - 40000 <=? chunk_start c) 40000 3000);
      unfold overlap; try reflexivity; lia.
  - destruct (C8_split_audio_invalid_parameters
                (fun c => - 5000 <=? chunk_start c) 5000 1000)
      as [[_ [H _]] _]; [unfold overlap; lia | lia |].
    destruct (H eq_refl 10%nat) as [cs [Hrun|Hrun]].
    + vm_compute in Hrun. discriminate.
    + exists cs. split; [exact Hrun|].
      vm_compute in Hrun. now injection Hrun as <-.
  - apply (C8_split_audio_invalid_parameters
             (fun c => - 5000 <=? chunk_start c) 0 (-5));
      unfold overlap; lia.
Defined.

(* ===================================================================== *)
(** * Dictionaries *)
(* ===================================================================== *)

Section Dictionaries.

Context {V : Type}.

Lemma dict_get_set_same (d : dict V) (k : string) (v : V) :
  dict_get (dict_set d k v) k = Some v.
Proof.
  induction d as [|[k' v'] d IH]; simpl.
  - now rewrite String.eqb_refl.
  - destruct (String.eqb k k') eqn:E; simpl; rewrite E; [reflexivity | exact IH].
Qed.

Lemma dict_get_set_other (d : dict V) (k k' : string) (v : V) :
  k' <> k -> dict_get (dict_set d k v) k' = dict_get d k'.
Proof.
  intros Hne. induction d as [|[k0 v0] d IH]; simpl.
  - destruct (String.eqb_spec k' k); [contradiction | reflexivity].
  - destruct (String.eqb_spec k k0) as [->|Hk]; simpl.
    + destruct (String.eqb_spec k' k0); [contradiction | reflexivity].
    + destruct (String.eqb_spec k' k0); [reflexivity | exact IH].
Qed.

Lemma dict_get_In (d : dict V) (k : string) (v : V) :
  dict_get d k = Some v -> In (k, v) d.
Proof.
  induction d as [|[k' v'] d IH]; simpl; [discriminate|].
  destruct (String.eqb_spec k k') as [->|Hk].
  - intros [= ->]. now left.
  - intros H. right. now apply IH.
Qed.

Lemma dict_get_None (d : dict V) (k : string) :
  dict_get d k = None <-> ~ In k (keys d).
Proof.
  induction d as [|[k' v'] d IH]; simpl.
  - tauto.
  - destruct (String.eqb_spec k k') as [->|Hk].
    + split; [discriminate | intros H; exfalso; apply H; now left].
    + rewrite IH. split; intros H.
      * intros [Heq|Hin]; [congruence | contradiction].
      * intros Hin. apply H. now right.
Qed.

Lemma dict_get_Some_key (d : dict V) (k : string) (v : V) :
  dict_get d k = Some v -> In k (keys d).
Proof.
  intros H. apply dict_get_In in H. apply (in_map fst) in H. exact H.
Qed.

Lemma In_keys_get (d : dict V) (k : string) :
  In k (keys d) -> exists v, dict_get d k = Some v.
Proof.
  intros H. destruct (dict_get d k) eqn:E; [eauto|].
  apply dict_get_None in E. contradiction.
Qed.

Lemma keys_set_present (d : dict V) (k : string) (v : V) :
  In k (keys d) -> keys (dict_set d k v) = keys d.
Proof.
  induction d as [|[k' v'] d IH]; simpl; [tauto|].
  intros H. destruct (String.eqb_spec k k') as [->|Hk]; simpl.
  - reflexivity.
  - f_equal. apply IH. destruct H; [congruence | assumption].
Qed.

Lemma keys_set_absent (d : dict V) (k : string) (v : V) :
  ~ In k (keys d) -> keys (dict_set d k v) = keys d ++ [k].
Proof.
  induction d as [|[k' v'] d IH]; simpl; [reflexivity|].
  intros H. destruct (String.eqb_spec k k') as [->|Hk]; simpl.
  - exfalso. apply H. now left.
  - f_equal. apply IH. intros Hin. apply H. now right.
Qed.

Lemma In_keys_set (d : dict V) (k k' : string) (v : V) :
  In k' (keys (dict_set d k v)) <-> k' = k \/ In k' (keys d).
Proof.
  destruct (in_dec string_dec k (keys d)) as [Hin|Hout].
  - rewrite keys_set_present by assumption.
    split; [tauto | intros [->|H]; assumption].
  - rewrite keys_set_absent by assumption. rewrite in_app_iff. simpl.
    split; intros H; [destruct H as [H|[H|[]]]; auto | destruct H; auto].
Qed.

Lemma NoDup_keys_set (d : dict V) (k : string) (v : V) :
  NoDup (keys d) -> NoDup (keys (dict_set d k v)).
Proof.
  intros Hnd. destruct (in_dec string_dec k (keys d)) as [Hin|Hout].
  - now rewrite keys_set_present.
  - rewrite keys_set_absent by assumption.
    apply NoDup_app; [exact Hnd | repeat constructor; simpl; tauto |].
    intros x Hx [<-|[]]. contradiction.
Qed.

Lemma In_dict_set (d : dict V) (k : string) (v : V) (kv : string * V) :
  In kv (dict_set d k v) -> kv = (k, v) \/ In kv d.
Proof.
  induction d as [|[k' v'] d IH]; simpl.
  - intros [<-|[]]. now left.
  - destruct (String.eqb_spec k k') as [->|Hk]; simpl.
    + intros [<-|H]; [now left | right; now right].
    + intros [<-|H]; [right; now left|].
      destruct (IH H); [now left | right; now right].
Qed.

End Dictionaries.

Lemma entries_append_same {V : Type} (d : dict (list V)) (k : string) (v : V) :
  entries (dict_append d k v) k = entries d k ++ [v].
Proof.
  unfold entries, dict_append.
  destruct (dict_get d k) eqn:E; rewrite dict_get_set_same; reflexivity.
Qed.

Lemma entries_append_other {V : Type} (d : dict (list V)) (k k' : string)
  (v : V) :
  k' <> k -> entries (dict_append d k v) k' = entries d k'.
Proof.
  intros Hne. unfold entries, dict_append.
  destruct (dict_get d k); now rewrite dict_get_set_other.
Qed.

Lemma In_keys_append {V : Type} (d : dict (list V)) (k k' : string) (v : V) :
  In k' (keys (dict_append d k v)) <-> k' = k \/ In k' (keys d).
Proof.
  unfold dict_append. destruct (dict_get d k); apply In_keys_set.
Qed.

Lemma keys_append {V W : Type} (d : dict (list V)) (e : dict (list W))
  (k : string) (v : V) (w : W) :
  keys d = keys e -> keys (dict_append d k v) = keys (dict_append e k w).
Proof.
  intros H. unfold dict_append.
  destruct (dict_get d k) eqn:Ed, (dict_get e k) eqn:Ee.
  - rewrite !keys_set_present; [exact H | |].
    + eapply dict_get_Some_key; eauto.
    + eapply dict_get_Some_key; eauto.
  - apply dict_get_Some_key in Ed. apply dict_get_None in Ee.
    rewrite H in Ed. contradiction.
  - apply dict_get_Some_key in Ee. apply dict_get_None in Ed.
    rewrite H in Ed. contradiction.
  - apply dict_get_None in Ed, Ee. rewrite !keys_set_absent by assumption.
    now rewrite H.
Qed.

(* ===================================================================== *)
(** * Properties of OccurrenceFinder *)
(* ===================================================================== *)

Lemma Qltb_lt (a b : Q) : Qltb a b = true <-> (a < b)%Q.
Proof.
  unfold Qltb. rewrite negb_true_iff, <- not_true_iff_false, Qle_bool_iff.
  split; [apply Qnot_le_lt | apply Qlt_not_le].
Qed.

Lemma Qltb_ge (a b : Q) : Qltb a b = false <-> (b <= a)%Q.
Proof. unfold Qltb. rewrite negb_false_iff. apply Qle_bool_iff. Qed.

Lemma mem_In (word : string) (l : list string) :
  mem word l = true <-> In word l.
Proof.
  unfold mem. rewrite existsb_exists. split.
  - intros [x [Hin Heq]]. apply String.eqb_eq in Heq. now subst.
  - intros H. exists word. split; [exact H | apply String.eqb_refl].
Qed.

Lemma scored_ltb_le (a b : Q * string) :
  scored_ltb a b = true -> (fst a <= fst b)%Q.
Proof.
  unfold scored_ltb. destruct (Qeq_bool (fst a) (fst b)) eqn:E.
  - intros _. apply Qeq_bool_eq in E. rewrite E. apply Qle_refl.
  - intros H. apply Qltb_lt in H. now apply Qlt_le_weak.
Qed.

Lemma scored_ltb_ge (a b : Q * string) :
  scored_ltb a b = false -> (fst b <= fst a)%Q.
Proof.
  unfold scored_ltb. destruct (Qeq_bool (fst a) (fst b)) eqn:E.
  - intros _. apply Qeq_bool_eq in E. rewrite E. apply Qle_refl.
  - intros H. now apply Qltb_ge in H.
Qed.

(** The running maximum is one of the elements seen and no element seen
    scores more. *)
Lemma fold_best_max (l : list (Q * string)) :
  forall m,
    let b := fold_left (fun m x => if scored_ltb m x then x else m) l m in
    In b (m :: l) /\ forall x, In x (m :: l) -> (fst x <= fst b)%Q.
Proof.
  induction l as [|y l IH]; intros m; simpl.
  - split; [now left | intros x [<-|[]]; apply Qle_refl].
  - specialize (IH (if scored_ltb m y then y else m)). simpl in IH.
    destruct IH as [Hin Hmax]. split.
    + destruct Hin as [Hin|Hin]; [|right; now right].
      rewrite <- Hin. destruct (scored_ltb m y); [right; now left | now left].
    + intros x [<-|[<-|Hx]].
      * destruct (scored_ltb m y) eqn:E.
        -- eapply Qle_trans; [apply scored_ltb_le; exact E|].
           apply Hmax. now left.
        -- apply Hmax. now left.
      * destruct (scored_ltb m y) eqn:E.
        -- apply Hmax. now left.
        -- eapply Qle_trans; [apply scored_ltb_ge; exact E|].
           apply Hmax. now left.
      * apply Hmax. now right.
Qed.

Lemma best_scored_max (l : list (Q * string)) (b : Q * string) :
  best_scored l = Some b ->
  In b l /\ forall x, In x l -> (fst x <= fst b)%Q.
Proof.
  destruct l as [|a l]; simpl; [discriminate|].
  intros [= <-]. apply (fold_best_max l a).
Qed.

Section FinderFacts.

Variable ratio : string -> string -> Q.
Variable search_words : list string.
Variable cutoff : Q.

Lemma In_scored (word : string) (s : Q) (x : string) :
  In (s, x)
    (flat_map (fun x => if Qle_bool cutoff (ratio x word)
                        then [(ratio x word, x)] else []) search_words)
  <-> In x search_words /\ (cutoff <= ratio x word)%Q /\ s = ratio x word.
Proof.
  rewrite in_flat_map. split.
  - intros [y [Hy Hin]]. destruct (Qle_bool cutoff (ratio y word)) eqn:E.
    + destruct Hin as [[= <- <-]|[]]. apply Qle_bool_iff in E. tauto.
    + destruct Hin.
  - intros [Hx [Hc ->]]. exists x. split; [exact Hx|].
    apply Qle_bool_iff in Hc. rewrite Hc. now left.
Qed.

Lemma get_close_matches_invalid (word : string) :
  ~ (0 <= cutoff <= 1)%Q ->
  get_close_matches ratio word search_words cutoff = Raise ValueError.
Proof.
  intros H. unfold get_close_matches.
  destruct (Qle_bool 0 cutoff && Qle_bool cutoff 1) eqn:E; [|reflexivity].
  apply andb_true_iff in E. rewrite !Qle_bool_iff in E. contradiction.
Qed.

(** With a valid cutoff the call returns at most one term; a returned term
    is a search term scoring at least the cutoff, and no search term scores
    more. *)
Lemma get_close_matches_best (word : string) :
  (0 <= cutoff <= 1)%Q ->
  (exists b,
      get_close_matches ratio word search_words cutoff = Ok [b]
      /\ In b search_words /\ (cutoff <= ratio b word)%Q
      /\ forall x, In x search_words -> (ratio x word <= ratio b word)%Q)
  \/ (get_close_matches ratio word search_words cutoff = Ok []
      /\ forall x, In x search_words -> (ratio x word < cutoff)%Q).
Proof.
  intros Hc. unfold get_close_matches.
  assert (Hv : Qle_bool 0 cutoff && Qle_bool cutoff 1 = true).
  { apply andb_true_iff. rewrite !Qle_bool_iff. exact Hc. }
  rewrite Hv. simpl.
  destruct (best_scored _) as [[s b]|] eqn:E.
  - left. exists b. apply best_scored_max in E. destruct E as [Hin Hmax].
    apply In_scored in Hin. destruct Hin as [Hb [Hcb ->]].
    repeat split; try assumption.
    intros x Hx. destruct (Qlt_le_dec (ratio x word) cutoff) as [Hlt|Hge].
    + apply Qlt_le_weak. eapply Qlt_le_trans; eassumption.
    + apply (Hmax (ratio x word, x)). apply In_scored. tauto.
  - right. split; [reflexivity|].
    intros x Hx. destruct (Qlt_le_dec (ratio x word) cutoff) as [Hlt|Hge];
      [exact Hlt|].
    assert (Hin : In (ratio x word, x)
                    (flat_map (fun x => if Qle_bool cutoff (ratio x word)
                                        then [(ratio x word, x)] else [])
                       search_words))
      by (apply In_scored; tauto).
    destruct (flat_map _ search_words); [destruct Hin | discriminate].
Qed.

Variables chunk_start_time chunk_length_ms : Z.
Variable fuzzy_match : bool.

Lemma word_time_estimated (i n : nat) :
  (i < n)%nat ->
  word_time chunk_start_time i n chunk_length_ms
  = Ok (estimated_time chunk_start_time chunk_length_ms i n).
Proof.
  intros H. unfold word_time, true_div.
  destruct (Z.eqb_spec (Z.of_nat n) 0); [lia | reflexivity].
Qed.

Lemma attributed_In (word key : string) :
  attributed ratio search_words fuzzy_match cutoff word = Some key ->
  In key search_words.
Proof.
  unfold attributed. destruct (mem word search_words) eqn:Em.
  - intros [= <-]. now apply mem_In.
  - destruct fuzzy_match; [|discriminate].
    destruct (Qle_bool 0 cutoff && Qle_bool cutoff 1) eqn:Ev.
    + apply andb_true_iff in Ev. rewrite !Qle_bool_iff in Ev.
      destruct (get_close_matches_best word Ev)
        as [[b [-> [Hb _]]]|[-> _]]; [|discriminate].
      now intros [= <-].
    + rewrite get_close_matches_invalid; [discriminate|].
      intros Hc. rewrite <- !Qle_bool_iff, <- andb_true_iff in Hc. congruence.
Qed.

Hypothesis valid_cutoff : fuzzy_match = true -> (0 <= cutoff <= 1)%Q.

(** What the loop body does to the state, by the attribution of the token. *)
Lemma scan_token_attributed (n i : nat) (st : scan_state) (word : string) :
  (i < n)%nat ->
  scan_token ratio search_words chunk_start_time chunk_length_ms fuzzy_match
    cutoff n st i word
  = Ok (match attributed ratio search_words fuzzy_match cutoff word with
        | Some key =>
            record_occurrence key
              (estimated_time chunk_start_time chunk_length_ms i n) st
        | None => st
        end).
Proof.
  intros Hi. unfold scan_token, attributed.
  destruct (mem word search_words).
  - rewrite word_time_estimated by assumption. reflexivity.
  - destruct fuzzy_match eqn:Ef; [|reflexivity].
    destruct (get_close_matches_best word (valid_cutoff eq_refl))
      as [[b [-> _]]|[-> _]]; simpl.
    + rewrite word_time_estimated by assumption. reflexivity.
    + reflexivity.
Qed.

Lemma scan_from_occurrences (n : nat) (words : list string) :
  forall (i : nat) (st : scan_state),
    (i + List.length words <= n)%nat ->
    scan_from ratio search_words chunk_start_time chunk_length_ms fuzzy_match
      cutoff n i words st
    = Ok (record_all
            (occurrences_from ratio search_words chunk_start_time
               chunk_length_ms fuzzy_match cutoff n i words) st).
Proof.
  induction words as [|word words IH]; intros i st Hn; simpl.
  - reflexivity.
  - simpl in Hn. rewrite scan_token_attributed by lia. simpl.
    rewrite IH by lia. unfold record_all. rewrite fold_left_app.
    destruct (attributed _ _ _ _ word); reflexivity.
Qed.

(** Every occurrence comes from a token: its index, its attribution. *)
Lemma In_occurrences_from (n : nat) (words : list string) (key : string)
  (t : Q) :
  forall i,
    In (key, t)
      (occurrences_from ratio search_words chunk_start_time chunk_length_ms
         fuzzy_match cutoff n i words)
    <-> exists j word,
        nth_error words j = Some word
        /\ attributed ratio search_words fuzzy_match cutoff word = Some key
        /\ t = estimated_time chunk_start_time chunk_length_ms (i + j) n.
Proof.
  induction words as [|word words IH]; intros i; simpl.
  - split; [tauto | intros [j [w [H _]]]; destruct j; discriminate].
  - rewrite in_app_iff, IH. split.
    + intros [H|[j [w [H1 [H2 H3]]]]].
      * destruct (attributed _ _ _ _ word) as [k|] eqn:E; [|destruct H].
        destruct H as [[= <- <-]|[]]. exists 0%nat, word.
        rewrite Nat.add_0_r. auto.
      * exists (S j), w. rewrite <- plus_n_Sm. auto.
    + intros [[|j] [w [H1 [H2 H3]]]].
      * left. simpl in H1. injection H1 as <-. rewrite H2, H3, Nat.add_0_r.
        now left.
      * right. exists j, w. rewrite <- plus_n_Sm in H3. auto.
Qed.

End FinderFacts.

(** Recording a list of occurrences appends, under every key, the times of
    the occurrences of that key, in order. *)
Lemma entries_record_all (occs : list (string * Q)) (key : string) :
  forall st,
    entries (word_times (record_all occs st)) key
    = entries (word_times st) key
      ++ map snd (filter (fun o => String.eqb (fst o) key) occs).
Proof.
  induction occs as [|[k t] occs IH]; intros st; simpl.
  - now rewrite app_nil_r.
  - unfold record_all in *. simpl. rewrite IH. simpl.
    destruct (String.eqb_spec k key) as [->|Hk].
    + rewrite entries_append_same, <- app_assoc. reflexivity.
    + rewrite entries_append_other by congruence. reflexivity.
Qed.

Lemma timestamps_record_all (occs : list (string * Q)) (key : string) :
  forall st,
    entries (timestamps (record_all occs st)) key
    = entries (timestamps st) key
      ++ map milliseconds_to_hms
           (map snd (filter (fun o => String.eqb (fst o) key) occs)).
Proof.
  induction occs as [|[k t] occs IH]; intros st; simpl.
  - now rewrite app_nil_r.
  - unfold record_all in *. simpl. rewrite IH. simpl.
    destruct (String.eqb_spec k key) as [->|Hk].
    + rewrite entries_append_same, <- app_assoc. reflexivity.
    + rewrite entries_append_other by congruence. reflexivity.
Qed.

Lemma keys_record_all (occs : list (string * Q)) :
  forall st,
    keys (timestamps st) = keys (word_times st) ->
    keys (timestamps (record_all occs st))
    = keys (word_times (record_all occs st)).
Proof.
  induction occs as [|[k t] occs IH]; intros st H; simpl; [exact H|].
  apply IH. simpl. now apply keys_append.
Qed.

Lemma In_keys_record_all (occs : list (string * Q)) (key : string) :
  forall st,
    In key (keys (word_times (record_all occs st)))
    <-> In key (keys (word_times st)) \/ In key (map fst occs).
Proof.
  induction occs as [|[k t] occs IH]; intros st; simpl; [tauto|].
  unfold record_all in *. simpl. rewrite IH. simpl. rewrite In_keys_append.
  split; intros H; intuition auto.
Qed.

Lemma estimated_time_monotone (start_ms length_ms : Z) (i j n : nat) :
  0 <= length_ms -> (i <= j)%nat ->
  (estimated_time start_ms length_ms i n
   <= estimated_time start_ms length_ms j n)%Q.
Proof.
  intros Hl Hij. unfold estimated_time, float_add, float_mul, float_of_int.
  apply round_double_monotone, Qplus_le_r, round_double_monotone.
  apply Qmult_le_compat_r.
  - apply round_double_monotone. unfold Qdiv. apply Qmult_le_compat_r.
    + rewrite <- Zle_Qle. lia.
    + apply Qinv_le_0_compat. change 0%Q with (inject_Z 0).
      rewrite <- Zle_Qle. lia.
  - apply round_double_nonneg. change 0%Q with (inject_Z 0).
    rewrite <- Zle_Qle. exact Hl.
Qed.

Lemma scan_occurrences (ratio : string -> string -> Q) (transcript : string)
  (search_words : list string) (chunk_start_time chunk_length_ms : Z)
  (fuzzy_match : bool) (cutoff : Q) :
  (fuzzy_match = true -> (0 <= cutoff <= 1)%Q) ->
  scan ratio transcript search_words chunk_start_time chunk_length_ms
    fuzzy_match cutoff
  = Ok (record_all
          (occurrences_from ratio (map lower search_words) chunk_start_time
             chunk_length_ms fuzzy_match cutoff
             (List.length (split (lower transcript))) 0
             (split (lower transcript)))
          (mkScan [] [])).
Proof.
  intros Hc. unfold scan. apply scan_from_occurrences; [exact Hc | simpl; lia].
Qed.

Lemma attributed_none (ratio : string -> string -> Q)
  (search_words : list string) (fuzzy_match : bool) (cutoff : Q)
  (word : string) :
  (fuzzy_match = true -> (0 <= cutoff <= 1)%Q) ->
  ~ In word search_words ->
  (fuzzy_match = true ->
   forall x, In x search_words -> (ratio x word < cutoff)%Q) ->
  attributed ratio search_words fuzzy_match cutoff word = None.
Proof.
  intros Hc Hout Hlow. unfold attributed.
  destruct (mem word search_words) eqn:E; [apply mem_In in E; contradiction|].
  destruct fuzzy_match; [|reflexivity].
  destruct (get_close_matches_best ratio search_words cutoff word (Hc eq_refl))
    as [[b [_ [Hb [Hcb _]]]]|[-> _]]; [|reflexivity].
  exfalso. apply (Qlt_not_le _ _ (Hlow eq_refl b Hb)). exact Hcb.
Qed.

Lemma occurrences_from_none (ratio : string -> string -> Q)
  (search_words : list string) (start_ms length_ms : Z) (fuzzy_match : bool)
  (cutoff : Q) (n : nat) (words : list string) :
  (forall word, In word words ->
     attributed ratio search_words fuzzy_match cutoff word = None) ->
  forall i,
    occurrences_from ratio search_words start_ms length_ms fuzzy_match cutoff
      n i words = [].
Proof.
  induction words as [|word words IH]; intros H i; simpl; [reflexivity|].
  rewrite (H word) by now left. simpl. apply IH.
  intros w Hw. apply H. now right.
Qed.

(** C5: on an empty transcript the search returns the empty dictionary and
    the empty phrase lists, whatever the other arguments; and so it does on
    every transcript none of whose tokens is a search term or, with fuzzy
    matching on, reaches the cutoff for some search term.  No exception is
    raised in either case. *)
Theorem C5_no_match_empty_result (ratio : string -> string -> Q)
  (search_words : list string) (chunk_start_time chunk_length_ms : Z)
  (fuzzy_match : bool) (cutoff : Q) :
  search_word_in_transcript ratio "" search_words chunk_start_time
    chunk_length_ms fuzzy_match cutoff = Ok ([], [], [])
  /\ forall transcript,
      (fuzzy_match = true -> (0 <= cutoff <= 1)%Q) ->
      (forall word,
          In word (split (lower transcript)) ->
          ~ In word (map lower search_words)
          /\ (fuzzy_match = true ->
              forall x, In x (map lower search_words) ->
                        (ratio x word < cutoff)%Q)) ->
      search_word_in_transcript ratio transcript search_words
        chunk_start_time chunk_length_ms fuzzy_match cutoff
      = Ok ([], [], []).
Proof.
  split; [reflexivity|].
  intros transcript Hc Hno. unfold search_word_in_transcript.
  rewrite scan_occurrences by exact Hc.
  rewrite occurrences_from_none.
  - reflexivity.
  - intros word Hw. destruct (Hno word Hw) as [Hout Hlow].
    now apply attributed_none.
Qed.

(** A transcript without any search term, fuzzy matching on: nothing is
    found and nothing is raised. *)
Lemma C5_no_match_witness :
  search_word_in_transcript prefix_ratio "Hello there" ["fox"; "quick"] 0
    15000 true (6 # 10) = Ok ([], [], [])
  /\ search_word_in_transcript prefix_ratio "" ["fox"; "quick"] 0 15000 true
       (6 # 10) = Ok ([], [], []).
Proof.
  destruct (C5_no_match_empty_result prefix_ratio ["fox"; "quick"] 0 15000
              true (6 # 10)) as [Hempty Hgen].
  split; [|exact Hempty].
  apply Hgen.
  - intros _. split; discriminate.
  - intros word [<-|[<-|[]]]; (split; [simpl; intuition discriminate|]);
      intros _ x [<-|[<-|[]]]; reflexivity.
Defined.

(* ===================================================================== *)
(** * The built-in [min] and the stable sort *)
(* ===================================================================== *)

Lemma min2_assoc (a b c : Q) : min2 (min2 a b) c = min2 a (min2 b c).
Proof.
  unfold min2.
  destruct (Qltb b a) eqn:Eba, (Qltb c b) eqn:Ecb; try rewrite Eba;
    try rewrite Ecb; try reflexivity.
  - destruct (Qltb c a) eqn:Eca; [reflexivity|].
    apply Qltb_lt in Eba, Ecb. apply Qltb_ge in Eca. lra.
  - destruct (Qltb c a) eqn:Eca; [|reflexivity].
    apply Qltb_ge in Eba, Ecb. apply Qltb_lt in Eca. lra.
Qed.

Lemma fold_min2_start (l : list Q) :
  forall m x, fold_left min2 l (min2 m x) = min2 m (fold_left min2 l x).
Proof.
  induction l as [|y l IH]; intros m x; simpl; [reflexivity|].
  rewrite min2_assoc. apply IH.
Qed.

(** The minimum of a concatenation is the [min] of the two minima. *)
Lemma fold_min2_app (l1 l2 : list Q) (m x : Q) :
  fold_left min2 (l1 ++ x :: l2) m
  = min2 (fold_left min2 l1 m) (fold_left min2 l2 x).
Proof. rewrite fold_left_app. simpl. apply fold_min2_start. Qed.

Lemma min2_le_l (a b : Q) : (min2 a b <= a)%Q.
Proof.
  unfold min2. destruct (Qltb b a) eqn:E.
  - apply Qltb_lt in E. now apply Qlt_le_weak.
  - apply Qle_refl.
Qed.

Lemma min2_le_r (a b : Q) : (min2 a b <= b)%Q.
Proof.
  unfold min2. destruct (Qltb b a) eqn:E.
  - apply Qle_refl.
  - now apply Qltb_ge in E.
Qed.

Lemma key_le_trans (a b c : sort_key) : key_le a b -> key_le b c -> key_le a c.
Proof.
  unfold key_le. destruct a as [x|], b as [y|], c as [z|]; simpl;
    try congruence.
  rewrite !Qltb_ge. intros H1 H2. eapply Qle_trans; eassumption.
Qed.

Lemma key_ltb_le (a b : sort_key) : key_ltb a b = true -> key_le a b.
Proof.
  unfold key_le. destruct a as [x|], b as [y|]; simpl; try congruence.
  rewrite Qltb_lt, Qltb_ge. apply Qlt_le_weak.
Qed.

Section StableSort.

Context {A : Type}.

Lemma insert_by_key_perm (x : sort_key * A) (l : list (sort_key * A)) :
  Permutation (insert_by_key x l) (x :: l).
Proof.
  induction l as [|y l IH]; simpl; [reflexivity|].
  destruct (key_ltb (fst y) (fst x)); [|reflexivity].
  rewrite IH. apply perm_swap.
Qed.

Lemma sort_decorated_perm (l : list (sort_key * A)) :
  Permutation (sort_decorated l) l.
Proof.
  induction l as [|x l IH]; simpl; [reflexivity|].
  rewrite insert_by_key_perm. now constructor.
Qed.

Lemma insert_by_key_sorted (x : sort_key * A) (l : list (sort_key * A)) :
  StronglySorted key_ordered l -> StronglySorted key_ordered (insert_by_key x l).
Proof.
  induction l as [|y l IH]; intros Hs; simpl.
  - repeat constructor.
  - apply StronglySorted_inv in Hs. destruct Hs as [Hl Hy].
    destruct (key_ltb (fst y) (fst x)) eqn:E.
    + constructor; [now apply IH|].
      rewrite Forall_forall. intros z Hz.
      apply (Permutation_in _ (insert_by_key_perm x l)) in Hz.
      destruct Hz as [<-|Hz].
      * now apply key_ltb_le.
      * rewrite Forall_forall in Hy. now apply Hy.
    + constructor; [now constructor|].
      constructor; [exact E|].
      rewrite Forall_forall in *. intros z Hz.
      eapply key_le_trans; [exact E | now apply Hy].
Qed.

Lemma sort_decorated_sorted (l : list (sort_key * A)) :
  StronglySorted key_ordered (sort_decorated l).
Proof.
  induction l as [|x l IH]; simpl; [constructor|].
  now apply insert_by_key_sorted.
Qed.

End StableSort.

(* ===================================================================== *)
(** * Properties of phrase assembly *)
(* ===================================================================== *)

Lemma append_assoc (a b c : string) :
  ((a ++ b) ++ c)%string = (a ++ (b ++ c))%string.
Proof. induction a as [|x a IH]; simpl; [reflexivity | now rewrite IH]. Qed.

Lemma append_nil_r (a : string) : (a ++ "")%string = a.
Proof. induction a as [|x a IH]; simpl; [reflexivity | now rewrite IH]. Qed.

Lemma append_self_nil (a b : string) : (a ++ b)%string = a -> b = EmptyString.
Proof.
  intros H. apply (f_equal String.length) in H. rewrite length_append in H.
  destruct b; [reflexivity | simpl in H; lia].
Qed.

Lemma phrase_text_cons (w : string) (ws : list string) :
  phrase_text (w :: ws) = (w ++ tail_text ws)%string.
Proof.
  unfold phrase_text. revert w. induction ws as [|v ws IH]; intros w; simpl.
  - now rewrite append_nil_r.
  - f_equal. f_equal. apply IH.
Qed.

Lemma map_result_Ok {A B : Type} (f : A -> result B) (g : A -> B)
  (l : list A) :
  (forall x, In x l -> f x = Ok (g x)) -> map_result f l = Ok (map g l).
Proof.
  induction l as [|x l IH]; intros H; simpl; [reflexivity|].
  rewrite (H x) by now left. simpl. rewrite IH; [reflexivity|].
  intros y Hy. apply H. now right.
Qed.

Section Assembly.

Variable wt : dict (list Q).

Local Abbreviation et := (earliest wt).

Lemma present_entries (w : string) :
  present wt w -> exists x l, entries wt w = x :: l /\ et w = fold_left min2 l x.
Proof.
  intros [x [l H]]. exists x, l. unfold earliest, entries. rewrite H. auto.
Qed.

Lemma present_getitem (w : string) :
  present wt w -> dict_getitem wt w = Ok (entries wt w).
Proof.
  intros [x [l H]]. unfold dict_getitem, entries. now rewrite H.
Qed.

Lemma present_min (w : string) :
  present wt w -> py_min (entries wt w) = Ok (et w).
Proof.
  intros H. destruct (present_entries w H) as [x [l [-> ->]]]. reflexivity.
Qed.

Lemma present_key (w : string) :
  present wt w -> earliest_key wt w = Ok (Finite (et w)).
Proof.
  intros H. unfold earliest_key. rewrite present_getitem by assumption.
  simpl. destruct (present_entries w H) as [x [l [E ->]]]. rewrite E.
  reflexivity.
Qed.

(** Line 92 returns the keys in ascending order of earliest time. *)
Lemma sorted_by_earliest (l : list string) :
  (forall w, In w l -> present wt w) ->
  exists sorted_words,
    sorted l (earliest_key wt) = Ok sorted_words
    /\ Permutation sorted_words l
    /\ StronglySorted (by_earliest wt) sorted_words.
Proof.
  intros Hall. unfold sorted.
  rewrite (map_result_Ok _ (fun w => (Finite (et w), w))).
  2:{ intros w Hw. rewrite present_key by now apply Hall. reflexivity. }
  simpl. eexists. split; [reflexivity|]. split.
  - rewrite (sort_decorated_perm (map (fun w => (Finite (et w), w)) l)).
    rewrite map_map. simpl. now rewrite map_id.
  - pose proof (sort_decorated_sorted (map (fun w => (Finite (et w), w)) l))
      as Hs.
    pose proof (sort_decorated_perm (map (fun w => (Finite (et w), w)) l))
      as Hp.
    assert (Hshape : forall d, In d (sort_decorated
                                       (map (fun w => (Finite (et w), w)) l)) ->
                               fst d = Finite (et (snd d))).
    { intros d Hd. apply (Permutation_in _ Hp) in Hd.
      apply in_map_iff in Hd. destruct Hd as [w [<- _]]. reflexivity. }
    clear Hp. revert Hshape.
    induction Hs as [|d ds Hds IH Hd]; intros Hshape; simpl; [constructor|].
    constructor.
    + apply IH. intros d' Hd'. apply Hshape. now right.
    + rewrite Forall_forall in *. intros w Hw.
      apply in_map_iff in Hw. destruct Hw as [d' [<- Hd']].
      specialize (Hd d' Hd'). unfold key_ordered, key_le in Hd.
      rewrite (Hshape d) in Hd by now left.
      rewrite (Hshape d') in Hd by now right.
      simpl in Hd. now apply Qltb_ge in Hd.
Qed.

Lemma take_chain_app (gap reference : Q) (ws : list string) :
  ws = fst (take_chain et gap reference ws)
       ++ snd (take_chain et gap reference ws).
Proof.
  revert reference. induction ws as [|w ws IH]; intros reference; simpl.
  - reflexivity.
  - destruct (Qle_bool _ gap); simpl; [|reflexivity].
    f_equal. apply IH.
Qed.

Lemma take_chain_length (gap reference : Q) (ws : list string) :
  (List.length (snd (take_chain et gap reference ws)) <= List.length ws)%nat.
Proof.
  rewrite (take_chain_app gap reference ws) at 2. rewrite length_app. lia.
Qed.

Lemma take_chain_In (gap reference : Q) (ws : list string) (w : string) :
  In w (snd (take_chain et gap reference ws)) -> In w ws.
Proof.
  intros H. rewrite (take_chain_app gap reference ws). apply in_or_app. tauto.
Qed.

(** The clusters, one outer turn at a time: the words chaining onto the
    last word of [current] complete it, the clusters of the rest follow. *)
Lemma clusters_from_take_chain (gap : Q) (ws : list string) :
  forall current reference,
    clusters_from et gap current reference ws
    = (current ++ fst (take_chain et gap reference ws))
      :: clusters et gap (snd (take_chain et gap reference ws)).
Proof.
  induction ws as [|w ws IH]; intros current reference; simpl.
  - now rewrite app_nil_r.
  - destruct (Qle_bool _ gap); simpl.
    + rewrite IH, <- app_assoc. reflexivity.
    + now rewrite app_nil_r.
Qed.

(** The inner loop takes exactly the chain. *)
Lemma chain_take_chain (rest : list string) :
  (forall w, In w rest -> present wt w) ->
  forall current_times concatenated min_time reference,
    py_min current_times = Ok reference ->
    chain wt current_times concatenated min_time rest
    = Ok ((concatenated
           ++ tail_text (fst (take_chain et effective_gap reference rest)))%string,
          fold_left min2
            (map et (fst (take_chain et effective_gap reference rest))) min_time,
          snd (take_chain et effective_gap reference rest)).
Proof.
  induction rest as [|w rest IH];
    intros Hall current_times concatenated min_time reference Hmin;
    cbn [chain take_chain].
  - cbn. now rewrite append_nil_r.
  - assert (Hw : present wt w) by (apply Hall; now left).
    rewrite present_getitem by assumption. cbn [bind].
    rewrite present_min by assumption. cbn [bind]. rewrite Hmin. cbn [bind].
    rewrite float_sub_test.
    destruct (Qle_bool (Qabs (et w - reference)) effective_gap);
      cbn [fst snd].
    + rewrite (IH (fun v Hv => Hall v (or_intror Hv)) _ _ _ (et w))
        by now apply present_min.
      cbn [tail_text map fold_left]. rewrite !append_assoc. reflexivity.
    + cbn. now rewrite append_nil_r.
Qed.

(** The running minimum of the loop is the minimum over all times of all
    words of the cluster. *)
Lemma phrase_time_chain (w : string) (ws : list string) :
  present wt w -> (forall v, In v ws -> present wt v) ->
  phrase_time wt (w :: ws) = fold_left min2 (map et ws) (et w).
Proof.
  intros Hw Hall. unfold phrase_time. simpl.
  destruct (present_entries w Hw) as [x [l [-> ->]]]. simpl.
  revert l. induction ws as [|v ws IH]; intros l; simpl.
  - now rewrite app_nil_r.
  - destruct (present_entries v (Hall v (or_introl eq_refl)))
      as [y [k [-> ->]]].
    rewrite <- fold_min2_app.
    rewrite <- (IH (fun u Hu => Hall u (or_intror Hu))).
    rewrite <- app_assoc. reflexivity.
Qed.

(** The outer loop emits the clusters of two or more words, with their
    text and the display of their minimum time. *)
Lemma phrases_loop_clusters (fuel : nat) :
  forall rest concatenated_words concatenated_times,
    (List.length rest <= fuel)%nat ->
    (forall w, In w rest -> present wt w) ->
    phrases_loop fuel wt rest concatenated_words concatenated_times
    = Ok (concatenated_words ++ map phrase_text (phrases_of wt rest),
          concatenated_times
          ++ map (fun c => milliseconds_to_hms (phrase_time wt c))
               (phrases_of wt rest)).
Proof.
  induction fuel as [|fuel IH];
    intros rest cw ct Hfuel Hall; destruct rest as [|w [|v rest]];
    simpl in Hfuel; try lia;
    try (simpl; now rewrite !app_nil_r).
  assert (Hw : present wt w) by (apply Hall; now left).
  assert (Htail : forall u, In u (v :: rest) -> present wt u)
    by (intros u Hu; apply Hall; now right).
  cbn [phrases_loop].
  rewrite present_getitem by assumption. cbn [bind].
  rewrite present_min by assumption. cbn [bind].
  rewrite (chain_take_chain (v :: rest) Htail _ _ _ (et w))
    by now apply present_min.
  cbn [bind].
  unfold phrases_of. cbn [clusters].
  rewrite clusters_from_take_chain. cbn [app filter].
  set (taken := fst (take_chain et effective_gap (et w) (v :: rest))).
  set (rest' := snd (take_chain et effective_gap (et w) (v :: rest))).
  assert (Hlen : (List.length rest' <= fuel)%nat).
  { pose proof (take_chain_length effective_gap (et w) (v :: rest)) as H.
    fold rest' in H. simpl in H. lia. }
  assert (Hall' : forall u, In u rest' -> present wt u).
  { intros u Hu. apply Htail. eapply take_chain_In. exact Hu. }
  assert (Htaken : forall u, In u taken -> present wt u).
  { intros u Hu. apply Htail.
    rewrite (take_chain_app effective_gap (et w) (v :: rest)). apply in_or_app.
    now left. }
  clearbody taken rest'. destruct taken as [|t ts].
  - cbn [tail_text multiword List.length Nat.leb].
    rewrite append_nil_r, String.eqb_refl. cbn [negb].
    apply IH; assumption.
  - assert (Hne : String.eqb (w ++ tail_text (t :: ts))%string w = false).
    { apply String.eqb_neq. intros H. apply append_self_nil in H.
      simpl in H. discriminate. }
    rewrite Hne. change ([w] ++ t :: ts) with (w :: t :: ts).
    cbn [negb multiword List.length Nat.leb map].
    rewrite IH by assumption. unfold phrases_of.
    rewrite <- !app_assoc. cbn [app].
    rewrite phrase_text_cons, phrase_time_chain by assumption.
    reflexivity.
Qed.

End Assembly.

(** The scan leaves no key with an empty list of times. *)
Lemma present_append (d : dict (list Q)) (k : string) (t : Q) :
  (forall w, In w (keys d) -> present d w) ->
  forall w, In w (keys (dict_append d k t)) -> present (dict_append d k t) w.
Proof.
  intros Hall w Hw. apply In_keys_append in Hw. unfold present.
  destruct (string_dec w k) as [->|Hne].
  - pose proof (entries_append_same d k t) as H. unfold entries in H.
    destruct (dict_get (dict_append d k t) k) as [l|] eqn:E.
    + destruct l as [|x l]; [|eauto].
      destruct (match dict_get d k with Some l => l | None => [] end);
        discriminate.
    + destruct (match dict_get d k with Some l => l | None => [] end);
        discriminate.
  - destruct Hw as [->|Hw]; [contradiction|].
    destruct (Hall w Hw) as [x [l H]]. exists x, l.
    unfold dict_append. destruct (dict_get d k);
      now rewrite dict_get_set_other.
Qed.

Lemma scan_token_cases (ratio : string -> string -> Q)
  (search_words : list string) (chunk_start_time chunk_length_ms : Z)
  (fuzzy_match : bool) (cutoff : Q) (n i : nat) (st st' : scan_state)
  (word : string) :
  scan_token ratio search_words chunk_start_time chunk_length_ms fuzzy_match
    cutoff n st i word = Ok st' ->
  st' = st \/ exists key t, In key search_words
                            /\ st' = record_occurrence key t st.
Proof.
  unfold scan_token. destruct (mem word search_words) eqn:Em.
  - destruct (word_time _ _ _ _) as [t| |]; simpl; try discriminate.
    intros [= <-]. right. exists word, t. split; [now apply mem_In | reflexivity].
  - destruct fuzzy_match; [|intros [= <-]; now left].
    destruct (get_close_matches _ _ _ _) as [[|c similar]| |] eqn:Eg; simpl;
      try discriminate.
    + intros [= <-]. now left.
    + destruct (word_time _ _ _ _) as [t| |]; simpl; try discriminate.
      intros [= <-]. right. exists c, t. split; [|reflexivity].
      assert (Ha : attributed ratio search_words true cutoff word = Some c)
        by (unfold attributed; now rewrite Em, Eg).
      now apply attributed_In in Ha.
Qed.

Lemma scanned_record (search_words : list string) (key : string) (t : Q)
  (st : scan_state) :
  In key search_words -> scanned search_words st ->
  scanned search_words (record_occurrence key t st).
Proof.
  intros Hk [H1 [H2 [H3 H4]]]. unfold scanned. simpl. repeat split.
  - now apply present_append.
  - intros w Hw. apply In_keys_append in Hw. destruct Hw as [->|Hw]; auto.
  - now apply keys_append.
  - unfold dict_append. destruct (dict_get (word_times st) key);
      now apply NoDup_keys_set.
Qed.

Lemma scan_from_scanned (ratio : string -> string -> Q)
  (search_words : list string) (chunk_start_time chunk_length_ms : Z)
  (fuzzy_match : bool) (cutoff : Q) (n : nat) (words : list string) :
  forall i st st',
    scan_from ratio search_words chunk_start_time chunk_length_ms fuzzy_match
      cutoff n i words st = Ok st' ->
    scanned search_words st -> scanned search_words st'.
Proof.
  induction words as [|word words IH]; intros i st st'; simpl.
  - now intros [= <-].
  - destruct (scan_token _ _ _ _ _ _ _ _ _ _) as [st1| |] eqn:E; simpl;
      try discriminate.
    intros Hrun Hst. apply (IH _ _ _ Hrun).
    apply scan_token_cases in E. destruct E as [->|[key [t [Hk ->]]]].
    + exact Hst.
    + now apply scanned_record.
Qed.

Lemma scan_scanned (ratio : string -> string -> Q) (transcript : string)
  (search_words : list string) (chunk_start_time chunk_length_ms : Z)
  (fuzzy_match : bool) (cutoff : Q) (st : scan_state) :
  scan ratio transcript search_words chunk_start_time chunk_length_ms
    fuzzy_match cutoff = Ok st ->
  scanned (map lower search_words) st.
Proof.
  intros H. apply scan_from_scanned in H; [exact H|].
  unfold scanned. simpl. repeat split; try tauto. constructor.
Qed.

(** The search, once the scan has returned: the phrases are the clusters of
    two or more words of the keys in ascending order of earliest time. *)
Lemma search_after_scan (ratio : string -> string -> Q) (transcript : string)
  (search_words : list string) (chunk_start_time chunk_length_ms : Z)
  (fuzzy_match : bool) (cutoff : Q) (st : scan_state) :
  scan ratio transcript search_words chunk_start_time chunk_length_ms
    fuzzy_match cutoff = Ok st ->
  exists sorted_words,
    Permutation sorted_words (keys (word_times st))
    /\ StronglySorted (by_earliest (word_times st)) sorted_words
    /\ search_word_in_transcript ratio transcript search_words
         chunk_start_time chunk_length_ms fuzzy_match cutoff
       = Ok (timestamps st,
             map phrase_text (phrases_of (word_times st) sorted_words),
             map (fun c => milliseconds_to_hms (phrase_time (word_times st) c))
               (phrases_of (word_times st) sorted_words)).
Proof.
  intros Hscan. pose proof (scan_scanned _ _ _ _ _ _ _ _ Hscan) as [Hp _].
  destruct (sorted_by_earliest (word_times st) (keys (word_times st)) Hp)
    as [sorted_words [Hsort [Hperm Hsorted]]].
  exists sorted_words. split; [exact Hperm|]. split; [exact Hsorted|].
  unfold search_word_in_transcript, assemble. rewrite Hscan. cbn [bind].
  rewrite Hsort. cbn [bind].
  rewrite phrases_loop_clusters.
  - reflexivity.
  - lia.
  - intros w Hw. apply Hp. eapply Permutation_in; eassumption.
Qed.

(** C3 (as stated, refuted): the token at index 7 of 10 in a window of
    90000 ms starting at 0 is recorded at a time that is not
    [0 + (7 / 10) * 90000 = 63000] but below it, and its display is that of
    second 62, not of second 63. *)
Lemma C3_estimate_is_rounded :
  exists t,
    scan prefix_ratio "d d d d d d d x d d" ["x"] 0 90000 false (8 # 10)
    = Ok (mkScan [("x", ["00:01:02"])] [("x", [t])])
    /\ search_word_in_transcript prefix_ratio "d d d d d d d x d d" ["x"] 0
         90000 false (8 # 10)
       = Ok ([("x", ["00:01:02"])], [], [])
    /\ (exact_time 0 90000 7 10 == 63000)%Q
    /\ (t < exact_time 0 90000 7 10)%Q
    /\ milliseconds_to_hms (exact_time 0 90000 7 10) = "00:01:03".
Proof.
  eexists. split; [vm_compute; reflexivity|].
  split; [vm_compute; reflexivity|].
  split; [vm_compute; reflexivity|].
  split; vm_compute; reflexivity.
Qed.

(** C3 (amended): in a window [(start_ms, length_ms)] whose transcript has
    [n] tokens, the search returns the dictionary of the scan, in which the
    times recorded under a search term are exactly the values of
    [start_ms + (i / n) * length_ms] computed in double precision (quotient,
    product and sum each rounded to the nearest double) for the indices [i]
    of the tokens attributed to that term, the displays listed under the
    term being those of these times; for a non-negative window length this
    estimate is non-decreasing in [i]. *)
Theorem C3_estimated_time_by_index (ratio : string -> string -> Q)
  (transcript : string) (search_words : list string) (start_ms length_ms : Z)
  (fuzzy_match : bool) (cutoff : Q) :
  (fuzzy_match = true -> (0 <= cutoff <= 1)%Q) ->
  exists st cw ct,
    scan ratio transcript search_words start_ms length_ms fuzzy_match cutoff
    = Ok st
    /\ search_word_in_transcript ratio transcript search_words start_ms
         length_ms fuzzy_match cutoff = Ok (timestamps st, cw, ct)
    /\ (forall i word key,
          nth_error (split (lower transcript)) i = Some word ->
          attributed ratio (map lower search_words) fuzzy_match cutoff word
          = Some key ->
          In (estimated_time start_ms length_ms i
                (List.length (split (lower transcript))))
            (entries (word_times st) key))
    /\ (forall key t,
          In t (entries (word_times st) key) ->
          exists i word,
            nth_error (split (lower transcript)) i = Some word
            /\ attributed ratio (map lower search_words) fuzzy_match cutoff
                 word = Some key
            /\ t = estimated_time start_ms length_ms i
                     (List.length (split (lower transcript))))
    /\ (forall key,
          entries (timestamps st) key
          = map milliseconds_to_hms (entries (word_times st) key))
    /\ (0 <= length_ms ->
        forall i j n,
          (i <= j)%nat ->
          (estimated_time start_ms length_ms i n
           <= estimated_time start_ms length_ms j n)%Q).
Proof.
  intros Hc.
  pose proof (scan_occurrences ratio transcript search_words start_ms
                length_ms fuzzy_match cutoff Hc) as Hscan.
  destruct (search_after_scan _ _ _ _ _ _ _ _ Hscan) as [sw [_ [_ Hrun]]].
  do 3 eexists. split; [exact Hscan|]. split; [exact Hrun|].
  split; [|split; [|split]].
  - intros i word key Hnth Hatt. rewrite entries_record_all. simpl.
    apply in_map_iff. exists (key, estimated_time start_ms length_ms i
                                     (List.length (split (lower transcript)))).
    split; [reflexivity|]. apply filter_In. split.
    + apply In_occurrences_from. exists i, word. auto.
    + simpl. apply String.eqb_refl.
  - intros key t Hin. rewrite entries_record_all in Hin. simpl in Hin.
    apply in_map_iff in Hin. destruct Hin as [[k t'] [Ht Hin]].
    simpl in Ht. subst t'. apply filter_In in Hin. destruct Hin as [Hin Hk].
    simpl in Hk. apply String.eqb_eq in Hk. subst k.
    apply In_occurrences_from in Hin. exact Hin.
  - intros key. rewrite timestamps_record_all, entries_record_all.
    reflexivity.
  - intros Hl i j n Hij. now apply estimated_time_monotone.
Qed.

(** The scenario of the specification: in ["the quick brown fox"] over a
    window of 4000 ms, [fox] at index 3 of 4 is recorded at 3000 ms, which
    the double-precision estimate gives exactly. *)
Lemma C3_estimated_time_witness :
  exists st cw ct,
    scan prefix_ratio "the quick brown fox" ["quick"; "fox"] 0 4000 false
      (8 # 10) = Ok st
    /\ search_word_in_transcript prefix_ratio "the quick brown fox"
         ["quick"; "fox"] 0 4000 false (8 # 10) = Ok (timestamps st, cw, ct)
    /\ In (estimated_time 0 4000 3 4) (entries (word_times st) "fox")
    /\ (estimated_time 0 4000 3 4 == 3000)%Q
    /\ entries (timestamps st) "fox"
       = map milliseconds_to_hms (entries (word_times st) "fox").
Proof.
  destruct (C3_estimated_time_by_index prefix_ratio "the quick brown fox"
              ["quick"; "fox"] 0 4000 false (8 # 10))
    as [st [cw [ct [Hscan [Hrun [Hrec [_ [Hdisp _]]]]]]]]; [discriminate|].
  exists st, cw, ct. split; [exact Hscan|]. split; [exact Hrun|].
  split; [|split; [vm_compute; reflexivity | apply Hdisp]].
  apply (Hrec 3%nat "fox" "fox"); reflexivity.
Defined.







#[local] Arguments Qabs _ : simpl never.
#[local] Arguments Qminus _ _ : simpl never.

Section Clusters.

Variable et : string -> Q.
Variable gap : Q.

Lemma chained_app (l m : list string) (u : string) :
  chained et gap (l ++ [u]) -> chained et gap (u :: m) ->
  chained et gap (l ++ u :: m).
Proof.
  induction l as [|p l IH]; intros Hl Hm; [exact Hm|].
  destruct l as [|q l].
  - simpl in Hl. destruct Hl as [Hpu _]. simpl. split; assumption.
  - simpl in Hl. destruct Hl as [Hpq Hl]. simpl. split; [exact Hpq|].
    apply IH; assumption.
Qed.

(** Neighbours inside a cluster are within the gap of each other. *)
Lemma clusters_from_chained (ws : list string) :
  forall pre u,
    chained et gap (pre ++ [u]) ->
    forall c, In c (clusters_from et gap (pre ++ [u]) (et u) ws) ->
              chained et gap c.
Proof.
  induction ws as [|w ws IH]; intros pre u Hcur c Hc; simpl in Hc.
  - destruct Hc as [<-|[]]. exact Hcur.
  - destruct (Qle_bool (Qabs (et w - et u)) gap) eqn:E.
    + apply (IH (pre ++ [u]) w); [|exact Hc].
      rewrite <- app_assoc. apply chained_app; [exact Hcur|].
      simpl. split; [now apply Qle_bool_iff | exact I].
    + destruct Hc as [<-|Hc]; [exact Hcur|].
      apply (IH [] w); [exact I | exact Hc].
Qed.

Lemma clusters_chained (ws : list string) (c : list string) :
  In c (clusters et gap ws) -> chained et gap c.
Proof.
  destruct ws as [|w ws]; simpl; [tauto|].
  apply (clusters_from_chained ws [] w). exact I.
Qed.

(** In ascending order, two words within the gap of each other end in the
    same cluster: every word between them is within the gap of its
    neighbours. *)
Lemma clusters_from_merges (ws : list string) :
  forall current reference,
    (forall x, In x current -> (et x <= reference)%Q) ->
    (forall y, In y ws -> (reference <= et y)%Q) ->
    StronglySorted (fun a b => (et a <= et b)%Q) ws ->
    forall x y,
      In x (current ++ ws) -> In y (current ++ ws) ->
      (Qabs (et x - et y) <= gap)%Q ->
      exists c, In c (clusters_from et gap current reference ws)
                /\ In x c /\ In y c.
Proof.
  induction ws as [|w ws IH]; intros current reference Hcur Hws Hs x y Hx Hy Hxy.
  - rewrite app_nil_r in Hx, Hy. exists current. simpl. auto.
  - apply StronglySorted_inv in Hs. destruct Hs as [Hs Hw].
    rewrite Forall_forall in Hw. simpl.
    destruct (Qle_bool (Qabs (et w - reference)) gap) eqn:E.
    + apply IH; try assumption.
      * intros z Hz. apply in_app_or in Hz. destruct Hz as [Hz|[<-|[]]].
        -- eapply Qle_trans; [now apply Hcur | apply Hws; now left].
        -- apply Qle_refl.
      * now rewrite <- app_assoc.
      * now rewrite <- app_assoc.
    + assert (Hfar : ~ (Qabs (et w - reference) <= gap)%Q)
        by (rewrite <- Qle_bool_iff; congruence).
      assert (Hrw : (reference <= et w)%Q) by (apply Hws; now left).
      assert (Hlate : forall z, In z (w :: ws) -> (et w <= et z)%Q)
        by (intros z [<-|Hz]; [apply Qle_refl | now apply Hw]).
      assert (Hsplit : forall a b,
                 In a current -> In b (w :: ws) ->
                 ~ (Qabs (et a - et b) <= gap)%Q /\
                 ~ (Qabs (et b - et a) <= gap)%Q).
      { intros a b Ha Hb. specialize (Hcur a Ha). specialize (Hlate b Hb).
        split; intros Hc; apply Hfar; rewrite Qabs_Qle_condition in *; lra. }
      apply in_app_or in Hx, Hy.
      destruct Hx as [Hx|Hx], Hy as [Hy|Hy].
      * exists current. simpl. auto.
      * destruct (Hsplit x y Hx Hy) as [Hc _]. contradiction.
      * destruct (Hsplit y x Hy Hx) as [_ Hc]. contradiction.
      * destruct (IH [w] (et w)) with (x := x) (y := y)
          as [c [Hc [Hxc Hyc]]]; try assumption.
        -- intros z [<-|[]]. apply Qle_refl.
        -- exists c. simpl. auto.
Qed.

Lemma clusters_merges (ws : list string) (x y : string) :
  StronglySorted (fun a b => (et a <= et b)%Q) ws ->
  In x ws -> In y ws -> (Qabs (et x - et y) <= gap)%Q ->
  exists c, In c (clusters et gap ws) /\ In x c /\ In y c.
Proof.
  destruct ws as [|w ws]; [intros _ []|].
  intros Hs Hx Hy Hxy. apply StronglySorted_inv in Hs. destruct Hs as [Hs Hw].
  rewrite Forall_forall in Hw.
  apply (clusters_from_merges ws [w] (et w)); try assumption.
  intros z [<-|[]]. apply Qle_refl.
Qed.

End Clusters.

Lemma two_members_multiword (c : list string) (x y : string) :
  In x c -> In y c -> x <> y -> multiword c = true.
Proof.
  destruct c as [|a [|b c]]; simpl; try tauto.
  intros [<-|[]] [<-|[]] H. congruence.
Qed.

Lemma chained_neighbours (et : string -> Q) (gap : Q)
  (pre post : list string) (u v : string) :
  chained et gap (pre ++ u :: v :: post) ->
  (Qabs (et v - et u) <= gap)%Q.
Proof.
  induction pre as [|p pre IH].
  - rewrite app_nil_l. intros H. exact (proj1 H).
  - rewrite <- app_comm_cons.
    destruct (pre ++ u :: v :: post) eqn:E; [destruct pre; discriminate|].
    intros H. exact (IH (proj2 H)).
Qed.

(** C6 (as stated, refuted): the difference the code compares with 1000 is
    a rounded difference of rounded times.  In a transcript of 90 tokens
    over a window of 15000 ms, [x] at index 1 and [y] at index 7 are joined
    into the phrase [x y], although their earliest times differ by more
    than 1000 ms: the difference rounds down to 1000.  In a transcript of
    45 tokens, [x] at index 1 and [y] at index 4 are not joined, although
    [start + (i / n) * length] puts them exactly 1000 ms apart: their
    earliest times, as recorded, differ by more. *)
Lemma C6_joined_beyond_threshold :
  exists st st',
    scan prefix_ratio
      (String.concat " " ("d" :: "x" :: repeat "d" 5 ++ "y" :: repeat "d" 82))
      ["x"; "y"] 0 15000 false (8 # 10) = Ok st
    /\ search_word_in_transcript prefix_ratio
         (String.concat " " ("d" :: "x" :: repeat "d" 5 ++ "y" :: repeat "d" 82))
         ["x"; "y"] 0 15000 false (8 # 10)
       = Ok (timestamps st, ["x y"], ["00:00:00"])
    /\ keys (word_times st) = ["x"; "y"]
    /\ (1000 < Qabs (earliest (word_times st) "y"
                     - earliest (word_times st) "x"))%Q
    /\ (float_sub (earliest (word_times st) "y") (earliest (word_times st) "x")
        == 1000)%Q
    /\ scan prefix_ratio
         (String.concat " " ("d" :: "x" :: repeat "d" 2 ++ "y" :: repeat "d" 40))
         ["x"; "y"] 0 15000 false (8 # 10) = Ok st'
    /\ search_word_in_transcript prefix_ratio
         (String.concat " " ("d" :: "x" :: repeat "d" 2 ++ "y" :: repeat "d" 40))
         ["x"; "y"] 0 15000 false (8 # 10)
       = Ok (timestamps st', [], [])
    /\ keys (word_times st') = ["x"; "y"]
    /\ (exact_time 0 15000 4 45 - exact_time 0 15000 1 45 == 1000)%Q
    /\ (1000 < Qabs (earliest (word_times st') "y"
                     - earliest (word_times st') "x"))%Q.
Proof.
  do 2 eexists. split; [vm_compute; reflexivity|].
  split; [vm_compute; reflexivity|].
  split; [vm_compute; reflexivity|].
  split; [vm_compute; reflexivity|].
  split; [vm_compute; reflexivity|].
  split; [vm_compute; reflexivity|].
  split; [vm_compute; reflexivity|].
  split; [vm_compute; reflexivity|].
  split; vm_compute; reflexivity.
Qed.

(** C6 (amended): when the scan has returned, the search returns with the
    phrases of the greedy clustering with an advancing reference, run over
    the words in ascending order of earliest time, the times being those
    recorded in double precision: a word joins the current cluster exactly
    when its earliest time and that of the word accepted last differ by at
    most [1000 + 2 ** -44] ms, and it then replaces that word as the
    reference; clusters of one word give no phrase; the display time of a
    phrase is that of the minimum over all times of all its words.  The
    threshold is not 1000 because the code compares with 1000 the
    difference of the two times rounded to the nearest double, which is at
    most 1000 exactly when the difference itself is at most
    [1000 + 2 ** -44]. *)
Theorem C6_greedy_clustering (ratio : string -> string -> Q)
  (transcript : string) (search_words : list string)
  (chunk_start_time chunk_length_ms : Z) (fuzzy_match : bool) (cutoff : Q)
  (st : scan_state) :
  scan ratio transcript search_words chunk_start_time chunk_length_ms
    fuzzy_match cutoff = Ok st ->
  (exists sorted_words,
      Permutation sorted_words (keys (word_times st))
      /\ StronglySorted (by_earliest (word_times st)) sorted_words
      /\ search_word_in_transcript ratio transcript search_words
           chunk_start_time chunk_length_ms fuzzy_match cutoff
         = Ok (timestamps st,
               map phrase_text
                 (filter multiword
                    (clusters (earliest (word_times st)) (1000 + pow2 (-44))
                       sorted_words)),
               map (fun c => milliseconds_to_hms (phrase_time (word_times st) c))
                 (filter multiword
                    (clusters (earliest (word_times st)) (1000 + pow2 (-44))
                       sorted_words))))
  /\ (forall a b : Q,
        (Qabs (float_sub a b) <= 1000)%Q
        <-> (Qabs (a - b) <= 1000 + pow2 (-44))%Q).
Proof.
  intros Hscan. split.
  - destruct (search_after_scan _ _ _ _ _ _ _ _ Hscan)
      as [sorted_words [Hperm [Hsorted Hrun]]].
    exists sorted_words. repeat split; assumption.
  - intros a b. rewrite <- !Qle_bool_iff, float_sub_test. reflexivity.
Qed.

(** The scenario of the specification: [alpha] at 500 ms and [beta] at
    800 ms give the one phrase [alpha beta], displayed at 500 ms. *)
Lemma C6_greedy_clustering_witness :
  exists st sorted_words,
    scan prefix_ratio
      "d d d d d alpha d d beta d d d d d d d d d d d d d d d d d d d d d"
      ["alpha"; "beta"] 0 3000 false (8 # 10) = Ok st
    /\ (earliest (word_times st) "alpha" == 500)%Q
    /\ (earliest (word_times st) "beta" == 800)%Q
    /\ Permutation sorted_words ["alpha"; "beta"]
    /\ search_word_in_transcript prefix_ratio
         "d d d d d alpha d d beta d d d d d d d d d d d d d d d d d d d d d"
         ["alpha"; "beta"] 0 3000 false (8 # 10)
       = Ok (timestamps st,
             map phrase_text
               (filter multiword
                  (clusters (earliest (word_times st)) (1000 + pow2 (-44))
                     sorted_words)),
             map (fun c => milliseconds_to_hms (phrase_time (word_times st) c))
               (filter multiword
                  (clusters (earliest (word_times st)) (1000 + pow2 (-44))
                     sorted_words)))
    /\ search_word_in_transcript prefix_ratio
         "d d d d d alpha d d beta d d d d d d d d d d d d d d d d d d d d d"
         ["alpha"; "beta"] 0 3000 false (8 # 10)
       = Ok ([("alpha", ["00:00:00"]); ("beta", ["00:00:00"])],
             ["alpha beta"], ["00:00:00"]).
Proof.
  eassert (Hscan :
             scan prefix_ratio
               "d d d d d alpha d d beta d d d d d d d d d d d d d d d d d d d d d"
               ["alpha"; "beta"] 0 3000 false (8 # 10) = Ok _)
    by (vm_compute; reflexivity).
  destruct (C6_greedy_clustering prefix_ratio
              "d d d d d alpha d d beta d d d d d d d d d d d d d d d d d d d d d"
              ["alpha"; "beta"] 0 3000 false (8 # 10) _ Hscan)
    as [[sorted_words [Hperm [_ Hrun]]] _].
  eexists. exists sorted_words.
  split; [exact Hscan|].
  split; [vm_compute; reflexivity|]. split; [vm_compute; reflexivity|].
  split; [exact Hperm|]. split; [exact Hrun | vm_compute; reflexivity].
Defined.

(** C7 (as stated, refuted): [a], [b] and [c] are found 1000 ms apart from
    one to the next; they chain into the one phrase [a b c], whose first
    and last words are 2000 ms apart.  And of 45 tokens over 15000 ms, [x]
    at index 1 and [y] at index 4, which [start + (i / n) * length] puts
    exactly 1000 ms apart, are not merged: as recorded, in double
    precision, their times differ by more. *)
Lemma C7_chained_words_far_apart :
  exists st st',
    scan prefix_ratio "a b c d d d d d d d d d d d d" ["a"; "b"; "c"] 0 15000
      false (8 # 10) = Ok st
    /\ search_word_in_transcript prefix_ratio "a b c d d d d d d d d d d d d"
         ["a"; "b"; "c"] 0 15000 false (8 # 10)
       = Ok (timestamps st, ["a b c"], ["00:00:00"])
    /\ (earliest (word_times st) "a" == 0)%Q
    /\ (earliest (word_times st) "c" == 2000)%Q
    /\ ~ (Qabs (earliest (word_times st) "c" - earliest (word_times st) "a")
          <= 1000)%Q
    /\ scan prefix_ratio
         (String.concat " " ("d" :: "x" :: repeat "d" 2 ++ "y" :: repeat "d" 40))
         ["x"; "y"] 0 15000 false (8 # 10) = Ok st'
    /\ search_word_in_transcript prefix_ratio
         (String.concat " " ("d" :: "x" :: repeat "d" 2 ++ "y" :: repeat "d" 40))
         ["x"; "y"] 0 15000 false (8 # 10)
       = Ok (timestamps st', [], [])
    /\ keys (word_times st') = ["x"; "y"]
    /\ (exact_time 0 15000 4 45 - exact_time 0 15000 1 45 == 1000)%Q
    /\ (1000 < Qabs (earliest (word_times st') "y"
                     - earliest (word_times st') "x"))%Q.
Proof.
  do 2 eexists. split; [vm_compute; reflexivity|].
  split; [vm_compute; reflexivity|].
  split; [vm_compute; reflexivity|]. split; [vm_compute; reflexivity|].
  split; [vm_compute; intros H; apply H; reflexivity|].
  split; [vm_compute; reflexivity|].
  split; [vm_compute; reflexivity|].
  split; [vm_compute; reflexivity|].
  split; vm_compute; reflexivity.
Qed.

(** C7 (amended): the phrases of a window are clusters in which every two
    neighbouring words have earliest times, as recorded in double
    precision, within [1000 + 2 ** -44] ms of each other (words further
    apart in the phrase may differ by more); and two distinct words of the
    window whose earliest times differ by at most that much, so in
    particular by at most 1000 ms, are in one phrase. *)
Theorem C7_neighbours_within_threshold (ratio : string -> string -> Q)
  (transcript : string) (search_words : list string)
  (chunk_start_time chunk_length_ms : Z) (fuzzy_match : bool) (cutoff : Q)
  (st : scan_state) :
  scan ratio transcript search_words chunk_start_time chunk_length_ms
    fuzzy_match cutoff = Ok st ->
  exists phrases : list (list string),
    search_word_in_transcript ratio transcript search_words
      chunk_start_time chunk_length_ms fuzzy_match cutoff
    = Ok (timestamps st, map phrase_text phrases,
          map (fun c => milliseconds_to_hms (phrase_time (word_times st) c))
            phrases)
    /\ (forall c pre u v post,
          In c phrases -> c = pre ++ u :: v :: post ->
          (Qabs (earliest (word_times st) v - earliest (word_times st) u)
           <= 1000 + pow2 (-44))%Q)
    /\ (forall w1 w2,
          In w1 (keys (word_times st)) -> In w2 (keys (word_times st)) ->
          w1 <> w2 ->
          (Qabs (earliest (word_times st) w1 - earliest (word_times st) w2)
           <= 1000 + pow2 (-44))%Q ->
          exists c, In c phrases /\ In w1 c /\ In w2 c).
Proof.
  intros Hscan.
  destruct (search_after_scan _ _ _ _ _ _ _ _ Hscan)
    as [sorted_words [Hperm [Hsorted Hrun]]].
  exists (phrases_of (word_times st) sorted_words).
  split; [exact Hrun|]. split.
  - intros c pre u v post Hc ->. unfold phrases_of in Hc.
    apply filter_In in Hc. destruct Hc as [Hc _].
    apply clusters_chained, chained_neighbours in Hc. exact Hc.
  - intros w1 w2 H1 H2 Hne Hclose.
    destruct (clusters_merges (earliest (word_times st)) effective_gap
                sorted_words w1 w2 Hsorted) as [c [Hc [Hw1 Hw2]]].
    + eapply Permutation_in; [symmetry; exact Hperm | exact H1].
    + eapply Permutation_in; [symmetry; exact Hperm | exact H2].
    + exact Hclose.
    + exists c. repeat split; try assumption.
      unfold phrases_of. apply filter_In. split; [exact Hc|].
      apply (two_members_multiword c w1 w2); assumption.
Qed.

Lemma C7_neighbours_witness :
  exists st phrases,
    scan prefix_ratio "a b c d d d d d d d d d d d d" ["a"; "b"; "c"] 0 15000
      false (8 # 10) = Ok st
    /\ search_word_in_transcript prefix_ratio "a b c d d d d d d d d d d d d"
         ["a"; "b"; "c"] 0 15000 false (8 # 10)
       = Ok ([("a", ["00:00:00"]); ("b", ["00:00:01"]); ("c", ["00:00:02"])],
             map phrase_text phrases,
             map (fun c => milliseconds_to_hms (phrase_time (word_times st) c))
               phrases)
    /\ exists c, In c phrases /\ In "a" c /\ In "b" c.
Proof.
  eassert (Hscan :
             scan prefix_ratio "a b c d d d d d d d d d d d d"
               ["a"; "b"; "c"] 0 15000 false (8 # 10) = Ok _)
    by (vm_compute; reflexivity).
  destruct (C7_neighbours_within_threshold prefix_ratio
              "a b c d d d d d d d d d d d d" ["a"; "b"; "c"] 0 15000 false
              (8 # 10) _ Hscan) as [phrases [Hrun [_ Hmerge]]].
  eexists. exists phrases. split; [exact Hscan|]. split; [exact Hrun|].
  apply Hmerge.
  - simpl. tauto.
  - simpl. tauto.
  - discriminate.
  - vm_compute. discriminate.
Defined.

(* ===================================================================== *)
(** * Properties of the chunk loop *)
(* ===================================================================== *)

Lemma has_space_append (a b : string) :
  has_space (a ++ b) = has_space a || has_space b.
Proof.
  induction a as [|c a IH]; simpl; [reflexivity|].
  now rewrite IH, orb_assoc.
Qed.

Lemma lower_ascii_space (c : ascii) :
  Ascii.eqb (lower_ascii c) " " = Ascii.eqb c " ".
Proof. destruct c as [[] [] [] [] [] [] [] []]; reflexivity. Qed.

Lemma has_space_lower (s : string) : has_space (lower s) = has_space s.
Proof.
  induction s as [|c s IH]; simpl; [reflexivity|].
  now rewrite lower_ascii_space, IH.
Qed.

Lemma has_space_phrase (c : list string) :
  multiword c = true -> has_space (phrase_text c) = true.
Proof.
  destruct c as [|w [|v c]]; try discriminate. intros _.
  rewrite phrase_text_cons. simpl. rewrite has_space_append. simpl.
  apply orb_true_r.
Qed.

Lemma has_space_of_list (l : list ascii) :
  has_space (string_of_list_ascii l) = existsb (fun c => Ascii.eqb c " ") l.
Proof. induction l as [|c l IH]; simpl; [reflexivity | now rewrite IH]. Qed.

Lemma flush_without_space (cur : list ascii) (w : string) :
  (forall c, In c cur -> isspace c = false) ->
  In w (flush cur) -> has_space w = false.
Proof.
  intros Hcur. destruct cur as [|c cur]; simpl; [tauto|].
  intros [<-|[]]. rewrite has_space_of_list.
  apply not_true_iff_false. rewrite existsb_exists.
  intros [x [Hx Hsp]]. apply Ascii.eqb_eq in Hsp. subst x.
  apply in_app_or in Hx. rewrite <- in_rev in Hx.
  assert (Hin : In " "%char (c :: cur))
    by (destruct Hx as [Hx|[Hx|[]]]; [now right | now left]).
  apply Hcur in Hin. discriminate.
Qed.

(** The words [str.split()] returns have no space in them: so it is for the
    search words of a run, which line 162 obtains this way. *)
Lemma split_from_without_space (s : string) :
  forall cur w,
    (forall c, In c cur -> isspace c = false) ->
    In w (split_from cur s) -> has_space w = false.
Proof.
  induction s as [|c s IH]; intros cur w Hcur; simpl.
  - now apply flush_without_space.
  - destruct (isspace c) eqn:E.
    + intros Hw. apply in_app_or in Hw. destruct Hw as [Hw|Hw].
      * now apply (flush_without_space cur).
      * apply (IH [] w); [intros x []|exact Hw].
    + apply IH. intros x [<-|Hx]; [exact E | now apply Hcur].
Qed.

Lemma split_without_space (s w : string) :
  In w (split s) -> has_space w = false.
Proof. apply split_from_without_space. intros c []. Qed.

Lemma fold_merge_word_other (items : dict (list string)) (p : string) :
  ~ In p (keys items) ->
  forall ts, dict_get (fold_left merge_word items ts) p = dict_get ts p.
Proof.
  induction items as [|[w times] items IH]; intros Hp ts; simpl; [reflexivity|].
  simpl in Hp. rewrite IH by tauto.
  destruct (dict_get ts w); apply dict_get_set_other; intros ->; tauto.
Qed.

Lemma entries_fold_merge_word (items : dict (list string)) (w : string) :
  NoDup (keys items) ->
  forall ts,
    entries (fold_left merge_word items ts) w = entries ts w ++ entries items w.
Proof.
  induction items as [|[k times] items IH]; intros Hnd ts; simpl.
  - unfold entries at 3. simpl. now rewrite app_nil_r.
  - simpl in Hnd. apply NoDup_cons_iff in Hnd. destruct Hnd as [Hk Hnd].
    unfold entries at 3. simpl. destruct (String.eqb_spec w k) as [->|Hne].
    + unfold entries. rewrite fold_merge_word_other by assumption.
      destruct (dict_get ts k); now rewrite dict_get_set_same.
    + rewrite IH by assumption. f_equal.
      unfold entries. destruct (dict_get ts k);
        now rewrite dict_get_set_other.
Qed.

Lemma fold_merge_phrase_get (items : list (string * string)) (p : string) :
  forall ts,
    dict_get (fold_left merge_phrase items ts) p
    = match dict_get ts p with
      | Some l => Some l
      | None => option_map (fun time => [time]) (dict_get items p)
      end.
Proof.
  induction items as [|[c time] items IH]; intros ts; simpl.
  - now destruct (dict_get ts p).
  - rewrite IH. unfold dict_mem.
    destruct (String.eqb_spec p c) as [->|Hne].
    + destruct (dict_get ts c) eqn:E; [now rewrite E|].
      now rewrite dict_get_set_same.
    + destruct (dict_get ts c); [reflexivity|].
      now rewrite dict_get_set_other.
Qed.

(** What one chunk does to the entry of a key: a key without a space is a
    word and gains the times of the chunk; a key with a space is a phrase
    and is entered once, by the first chunk that has it. *)
Lemma merge_chunk_word (ts tsw : dict (list string))
  (cw ct : list string) (w : string) :
  NoDup (keys tsw) -> (forall p, In p cw -> has_space p = true) ->
  has_space w = false ->
  entries (merge_chunk ts (tsw, cw, ct)) w = entries ts w ++ entries tsw w.
Proof.
  intros Hnd Hcw Hw. unfold merge_chunk.
  rewrite <- entries_fold_merge_word by assumption.
  unfold entries at 1 2. rewrite fold_merge_phrase_get.
  destruct (dict_get (fold_left merge_word tsw ts) w); [reflexivity|].
  destruct (dict_get (combine cw ct) w) as [time|] eqn:E; [|reflexivity].
  apply dict_get_In, in_combine_l in E. apply Hcw in E. congruence.
Qed.

Lemma merge_chunk_phrase (ts tsw : dict (list string))
  (cw ct : list string) (p : string) :
  (forall k, In k (keys tsw) -> has_space k = false) ->
  has_space p = true ->
  dict_get (merge_chunk ts (tsw, cw, ct)) p
  = match dict_get ts p with
    | Some l => Some l
    | None => option_map (fun time => [time]) (dict_get (combine cw ct) p)
    end.
Proof.
  intros Hk Hp. unfold merge_chunk.
  rewrite fold_merge_phrase_get, fold_merge_word_other; [reflexivity|].
  intros Hin. apply Hk in Hin. congruence.
Qed.

Lemma clusters_from_words (et : string -> Q) (gap : Q) (ws : list string) :
  forall current reference c w,
    In c (clusters_from et gap current reference ws) -> In w c ->
    In w (current ++ ws).
Proof.
  induction ws as [|v ws IH]; intros current reference c w Hc Hw;
    cbn [clusters_from] in Hc.
  - destruct Hc as [<-|[]]. now rewrite app_nil_r.
  - destruct (Qle_bool _ gap).
    + apply IH with (w := w) in Hc; [|exact Hw].
      now rewrite <- app_assoc in Hc.
    + destruct Hc as [<-|Hc]; [apply in_or_app; now left|].
      apply IH with (w := w) in Hc; [|exact Hw].
      apply in_or_app. right. exact Hc.
Qed.

Lemma clusters_words (et : string -> Q) (gap : Q) (ws c : list string)
  (w : string) :
  In c (clusters et gap ws) -> In w c -> In w ws.
Proof.
  destruct ws as [|v ws]; [intros []|]. apply clusters_from_words.
Qed.

Section ChunkLoop.

Variable ratio : string -> string -> Q.
Variable search_words : list string.
Variable fuzzy_match : bool.
Variable cutoff : Q.

Hypothesis words_without_space :
  forall w, In w search_words -> has_space w = false.

(** A search that returns has scanned, and its phrases are those of the
    scan's dictionary of times. *)
Lemma search_returns (text : string) (chunk_start_time chunk_length_ms : Z)
  (r : dict (list string) * list string * list string) :
  search_word_in_transcript ratio text search_words chunk_start_time
    chunk_length_ms fuzzy_match cutoff = Ok r ->
  exists st sorted_words,
    scan ratio text search_words chunk_start_time chunk_length_ms fuzzy_match
      cutoff = Ok st
    /\ Permutation sorted_words (keys (word_times st))
    /\ StronglySorted (by_earliest (word_times st)) sorted_words
    /\ r = (timestamps st,
            map phrase_text (phrases_of (word_times st) sorted_words),
            map (fun c => milliseconds_to_hms (phrase_time (word_times st) c))
              (phrases_of (word_times st) sorted_words)).
Proof.
  intros Hr.
  destruct (scan ratio text search_words chunk_start_time chunk_length_ms
              fuzzy_match cutoff) as [st| |] eqn:Hscan;
    try (unfold search_word_in_transcript in Hr; rewrite Hscan in Hr;
         discriminate).
  destruct (search_after_scan _ _ _ _ _ _ _ _ Hscan)
    as [sorted_words [Hperm [Hsorted Hrun]]].
  exists st, sorted_words. repeat split; try assumption. congruence.
Qed.

Lemma search_window_ok (text : string) (chunk_start_time chunk_length_ms : Z)
  (r : dict (list string) * list string * list string) :
  search_word_in_transcript ratio text search_words chunk_start_time
    chunk_length_ms fuzzy_match cutoff = Ok r ->
  window_ok r.
Proof.
  intros Hr. destruct (search_returns _ _ _ _ Hr)
    as [st [sorted_words [Hscan [_ [_ ->]]]]].
  destruct (scan_scanned _ _ _ _ _ _ _ _ Hscan) as [_ [Hsub [Hkeys Hnd]]].
  unfold window_ok. cbn [fst snd]. repeat split.
  - now rewrite Hkeys.
  - intros k Hk. rewrite Hkeys in Hk. apply Hsub in Hk.
    apply in_map_iff in Hk. destruct Hk as [w [<- Hw]].
    rewrite has_space_lower. now apply words_without_space.
  - intros p Hp. apply in_map_iff in Hp. destruct Hp as [c [<- Hc]].
    apply has_space_phrase. unfold phrases_of in Hc.
    apply filter_In in Hc. tauto.
  - now rewrite !length_map.
Qed.

(** The chunk loop folds the results of the windows, in order. *)
Lemma process_chunks_results (texts : list string) :
  forall i ts final,
    process_chunks ratio search_words fuzzy_match cutoff i texts ts = Ok final ->
    exists rs,
      results_from ratio search_words fuzzy_match cutoff i texts = map Ok rs
      /\ Forall window_ok rs
      /\ final = fold_left merge_chunk rs ts.
Proof.
  induction texts as [|text texts IH]; intros i ts final; simpl.
  - intros [= <-]. exists []. auto.
  - unfold chunk_result.
    destruct (search_word_in_transcript _ _ _ _ _ _ _) as [r| |] eqn:Hr;
      simpl; try discriminate.
    intros Hrun. destruct (IH _ _ _ Hrun) as [rs [Hrs [Hok ->]]].
    exists (r :: rs). simpl. rewrite Hrs. repeat split.
    constructor; [|exact Hok]. eapply search_window_ok. exact Hr.
Qed.

Lemma results_from_nth (texts : list string) :
  forall i k,
    nth_error (results_from ratio search_words fuzzy_match cutoff i texts) k
    = option_map (chunk_result ratio search_words fuzzy_match cutoff (i + k))
        (nth_error texts k).
Proof.
  induction texts as [|text texts IH]; intros i [|k]; simpl; try reflexivity.
  - now rewrite Nat.add_0_r.
  - rewrite IH. now rewrite <- plus_n_Sm.
Qed.

End ChunkLoop.

Lemma fold_merge_chunk_word
  (rs : list (dict (list string) * list string * list string)) (w : string) :
  Forall window_ok rs -> has_space w = false ->
  forall ts,
    entries (fold_left merge_chunk rs ts) w
    = entries ts w ++ flat_map (fun r => entries (fst (fst r)) w) rs.
Proof.
  intros Hok Hw. induction Hok as [|[[tsw cw] ct] rs [Hnd [_ [Hcw _]]] _ IH];
    intros ts; cbn [fold_left flat_map].
  - now rewrite app_nil_r.
  - rewrite IH. cbn [fst snd] in *.
    rewrite (merge_chunk_word ts tsw cw ct w) by assumption.
    now rewrite app_assoc.
Qed.

Lemma fold_merge_chunk_phrase
  (rs : list (dict (list string) * list string * list string)) (p : string) :
  Forall window_ok rs -> has_space p = true ->
  forall ts,
    dict_get (fold_left merge_chunk rs ts) p
    = match dict_get ts p with
      | Some l => Some l
      | None => first_phrase_time rs p
      end.
Proof.
  intros Hok Hp. induction Hok as [|[[tsw cw] ct] rs [_ [Hk _]] _ IH];
    intros ts; cbn [fold_left first_phrase_time].
  - now destruct (dict_get ts p).
  - rewrite IH. cbn [fst snd] in *.
    rewrite (merge_chunk_phrase ts tsw cw ct p) by assumption.
    destruct (dict_get ts p); [reflexivity|].
    now destruct (dict_get (combine cw ct) p).
Qed.

Lemma keys_combine (cw ct : list string) :
  List.length cw = List.length ct -> keys (combine cw ct) = cw.
Proof.
  revert ct. induction cw as [|c cw IH]; intros [|t ct]; simpl;
    try discriminate; [reflexivity|].
  intros [= H]. f_equal. now apply IH.
Qed.

Lemma first_phrase_time_In
  (rs : list (dict (list string) * list string * list string)) (p : string) :
  Forall window_ok rs ->
  (first_phrase_time rs p <> None
   <-> exists r, In r rs /\ In p (snd (fst r))).
Proof.
  intros Hok. induction Hok as [|[[tsw cw] ct] rs [_ [_ [_ Hlen]]] _ IH];
    simpl.
  - split; [congruence | intros [r [[] _]]].
  - cbn [fst snd] in Hlen.
    destruct (dict_get (combine cw ct) p) as [time|] eqn:E.
    + split; [intros _ | discriminate].
      exists (tsw, cw, ct). split; [now left|]. cbn [fst snd].
      apply dict_get_Some_key in E. now rewrite keys_combine in E.
    + rewrite IH. split.
      * intros [r [Hr Hp]]. exists r. split; [now right | exact Hp].
      * intros [r [[<-|Hr] Hp]]; [|exists r; auto].
        cbn [fst snd] in Hp. apply dict_get_None in E.
        rewrite keys_combine in E by assumption. contradiction.
Qed.

(** C10: over the windows of a run, in order, a word key holds the times of
    all windows, those of a later window after those of an earlier one; a
    phrase key holds the one display time given by the first window that
    produced the phrase, later ones being dropped.  Word keys have no
    space and phrase keys have one, so the two cases cover the keys. *)
Theorem C10_merge_across_windows (ratio : string -> string -> Q)
  (search_words : list string) (fuzzy_match : bool) (cutoff : Q)
  (texts : list string) (final : dict (list string)) :
  (forall w, In w search_words -> has_space w = false) ->
  process ratio search_words fuzzy_match cutoff texts = Ok final ->
  exists rs,
    results_from ratio search_words fuzzy_match cutoff 0 texts = map Ok rs
    /\ (forall w, has_space w = false ->
                  entries final w
                  = flat_map (fun r => entries (fst (fst r)) w) rs)
    /\ (forall p, has_space p = true ->
                  dict_get final p = first_phrase_time rs p)
    /\ (forall r k, In r rs -> In k (keys (fst (fst r))) ->
                    has_space k = false)
    /\ (forall r p, In r rs -> In p (snd (fst r)) -> has_space p = true).
Proof.
  intros Hsw Hrun.
  destruct (process_chunks_results ratio search_words fuzzy_match cutoff Hsw
              texts 0%nat [] final Hrun) as [rs [Hrs [Hok ->]]].
  exists rs. split; [exact Hrs|]. repeat split.
  - intros w Hw. now rewrite fold_merge_chunk_word.
  - intros p Hp. now rewrite fold_merge_chunk_phrase.
  - intros r k Hr Hk. rewrite Forall_forall in Hok.
    destruct (Hok r Hr) as [_ [H _]]. now apply H.
  - intros r p Hr Hp. rewrite Forall_forall in Hok.
    destruct (Hok r Hr) as [_ [_ [H _]]]. now apply H.
Qed.

(** Two windows that both hear [alpha beta]: the words gather both times,
    the phrase keeps the time of the first window. *)
Lemma C10_merge_across_windows_witness :
  exists rs,
    results_from prefix_ratio ["alpha"; "beta"] false (8 # 10) 0
      ["alpha beta d d d d d d d d d d d d d d d d d d";
       "d d alpha beta d d d d d d d d d d d d d d d d"]
    = map Ok rs
    /\ dict_get
         [("alpha", ["00:00:00"; "00:00:13"]);
          ("beta", ["00:00:00"; "00:00:14"]); ("alpha beta", ["00:00:00"])]
         "alpha beta"
       = first_phrase_time rs "alpha beta"
    /\ entries
         [("alpha", ["00:00:00"; "00:00:13"]);
          ("beta", ["00:00:00"; "00:00:14"]); ("alpha beta", ["00:00:00"])]
         "alpha"
       = flat_map (fun r => entries (fst (fst r)) "alpha") rs.
Proof.
  destruct (C10_merge_across_windows prefix_ratio ["alpha"; "beta"] false
              (8 # 10)
              ["alpha beta d d d d d d d d d d d d d d d d d d";
               "d d alpha beta d d d d d d d d d d d d d d d d"]
              [("alpha", ["00:00:00"; "00:00:13"]);
               ("beta", ["00:00:00"; "00:00:14"]);
               ("alpha beta", ["00:00:00"])])
    as [rs [Hrs [Hword [Hphrase _]]]].
  - intros w [<-|[<-|[]]]; reflexivity.
  - vm_compute. reflexivity.
  - exists rs. split; [exact Hrs|]. split.
    + apply Hphrase. reflexivity.
    + apply Hword. reflexivity.
Defined.

(** C1 (as stated, refuted): [alpha] is heard at the end of the first
    window and [beta] at the start of the second, both at 12000 ms of the
    recording; the run returns the two words and no phrase.  And in one
    window of 45 tokens, [x] at index 1 and [y] at index 4, which
    [start + (i / n) * length] puts exactly 1000 ms apart, give no phrase
    either: the times are recorded in double precision. *)
Lemma C1_windows_not_combined :
  exists st0 st1,
    process prefix_ratio ["alpha"; "beta"] false (8 # 10)
      ["d d d d alpha"; "beta d"]
    = Ok [("alpha", ["00:00:12"]); ("beta", ["00:00:12"])]
    /\ scan prefix_ratio "d d d d alpha" ["alpha"; "beta"] 0 15000 false
         (8 # 10) = Ok st0
    /\ scan prefix_ratio "beta d" ["alpha"; "beta"] 12000 15000 false
         (8 # 10) = Ok st1
    /\ keys (word_times st0) = ["alpha"] /\ keys (word_times st1) = ["beta"]
    /\ (earliest (word_times st0) "alpha" == 12000)%Q
    /\ (earliest (word_times st1) "beta" == 12000)%Q
    /\ (Qabs (earliest (word_times st0) "alpha"
              - earliest (word_times st1) "beta") <= 1000)%Q
    /\ process prefix_ratio ["x"; "y"] false (8 # 10)
         [String.concat " "
            ("d" :: "x" :: repeat "d" 2 ++ "y" :: repeat "d" 40)]
       = Ok [("x", ["00:00:00"]); ("y", ["00:00:01"])]
    /\ (exact_time 0 15000 4 45 - exact_time 0 15000 1 45 == 1000)%Q.
Proof.
  do 2 eexists.
  split; [vm_compute; reflexivity|].
  split; [vm_compute; reflexivity|].
  split; [vm_compute; reflexivity|].
  split; [vm_compute; reflexivity|].
  split; [vm_compute; reflexivity|].
  split; [vm_compute; reflexivity|].
  split; [vm_compute; reflexivity|].
  split; [vm_compute; discriminate|].
  split; vm_compute; reflexivity.
Qed.

(** C1 (amended): phrases are assembled window by window.  Two distinct
    words of one window whose earliest times in that window, as recorded
    in double precision, differ by at most 1000 ms are in one phrase of
    the result; and every phrase of the result is made of words found in
    one and the same window. *)
Theorem C1_phrases_assembled_per_window (ratio : string -> string -> Q)
  (search_words : list string) (fuzzy_match : bool) (cutoff : Q)
  (texts : list string) (final : dict (list string)) :
  (forall w, In w search_words -> has_space w = false) ->
  process ratio search_words fuzzy_match cutoff texts = Ok final ->
  (forall i text st w1 w2,
      nth_error texts i = Some text ->
      scan ratio text search_words (Z.of_nat i * (15000 - 3000)) 15000
        fuzzy_match cutoff = Ok st ->
      In w1 (keys (word_times st)) -> In w2 (keys (word_times st)) ->
      w1 <> w2 ->
      (Qabs (earliest (word_times st) w1 - earliest (word_times st) w2)
       <= 1000)%Q ->
      exists c, In w1 c /\ In w2 c /\ In (phrase_text c) (keys final))
  /\ (forall p,
        In p (keys final) -> has_space p = true ->
        exists i text st c,
          nth_error texts i = Some text
          /\ scan ratio text search_words (Z.of_nat i * (15000 - 3000)) 15000
               fuzzy_match cutoff = Ok st
          /\ p = phrase_text c
          /\ forall w, In w c -> In w (keys (word_times st))).
Proof.
  intros Hsw Hrun.
  destruct (process_chunks_results ratio search_words fuzzy_match cutoff Hsw
              texts 0%nat [] final Hrun) as [rs [Hrs [Hok ->]]].
  split.
  - intros i text st w1 w2 Hi Hscan H1 H2 Hne Hclose.
    destruct (search_after_scan _ _ _ _ _ _ _ _ Hscan)
      as [sorted_words [Hperm [Hsorted Hsearch]]].
    destruct (clusters_merges (earliest (word_times st)) effective_gap
                sorted_words w1 w2 Hsorted) as [c [Hc [Hw1 Hw2]]];
      try (eapply Permutation_in; [symmetry; exact Hperm | assumption]);
      [eapply Qle_trans; [exact Hclose | exact effective_gap_above]|].
    assert (Hphrase : In c (phrases_of (word_times st) sorted_words)).
    { unfold phrases_of. apply filter_In. split; [exact Hc|].
      apply (two_members_multiword c w1 w2); assumption. }
    exists c. split; [exact Hw1|]. split; [exact Hw2|].
    pose proof (results_from_nth ratio search_words fuzzy_match cutoff texts
                  0 i) as Hnth.
    rewrite Hrs, Hi, nth_error_map in Hnth. cbn [option_map Nat.add] in Hnth.
    unfold chunk_result in Hnth. rewrite Hsearch in Hnth.
    destruct (nth_error rs i) as [r|] eqn:Er; [|discriminate].
    cbn [option_map] in Hnth. injection Hnth as ->.
    apply nth_error_In in Er.
    assert (Hsome : first_phrase_time rs (phrase_text c) <> None).
    { apply first_phrase_time_In; [exact Hok|].
      eexists. split; [exact Er|]. cbn [fst snd]. now apply in_map. }
    assert (Hspace : has_space (phrase_text c) = true).
    { apply has_space_phrase. unfold phrases_of in Hphrase.
      apply filter_In in Hphrase. tauto. }
    pose proof (fold_merge_chunk_phrase rs (phrase_text c) Hok Hspace [])
      as Hget.
    cbn [dict_get] in Hget.
    destruct (dict_get (fold_left merge_chunk rs []) (phrase_text c)) eqn:E;
      [|congruence].
    eapply dict_get_Some_key. exact E.
  - intros p Hp Hspace. apply In_keys_get in Hp. destruct Hp as [l Hl].
    rewrite (fold_merge_chunk_phrase rs p Hok Hspace) in Hl. cbn in Hl.
    assert (Hsome : first_phrase_time rs p <> None) by congruence.
    apply first_phrase_time_In in Hsome; [|exact Hok].
    destruct Hsome as [r [Hr Hin]].
    apply In_nth_error in Hr. destruct Hr as [i Hi].
    pose proof (results_from_nth ratio search_words fuzzy_match cutoff texts
                  0 i) as Hnth.
    rewrite Hrs, nth_error_map, Hi in Hnth. cbn [option_map Nat.add] in Hnth.
    destruct (nth_error texts i) as [text|] eqn:Et; [|discriminate].
    cbn [option_map] in Hnth. injection Hnth as Hres. symmetry in Hres.
    unfold chunk_result in Hres.
    destruct (search_returns ratio search_words fuzzy_match cutoff _ _ _ _ Hres)
      as [st [sorted_words [Hscan [Hperm [_ ->]]]]].
    cbn [fst snd] in Hin. apply in_map_iff in Hin.
    destruct Hin as [c [<- Hc]].
    exists i, text, st, c. repeat split; try assumption.
    intros w Hw. unfold phrases_of in Hc. apply filter_In in Hc.
    eapply Permutation_in; [exact Hperm|].
    eapply clusters_words; [exact (proj1 Hc) | exact Hw].
Qed.

(** Two windows that both hear [alpha beta]: in the second, the two words
    are 750 ms apart, and the phrase is a key of the result. *)
Lemma C1_phrases_per_window_witness :
  exists st c,
    scan prefix_ratio "d d alpha beta d d d d d d d d d d d d d d d d"
      ["alpha"; "beta"] (Z.of_nat 1 * (15000 - 3000)) 15000 false (8 # 10)
    = Ok st
    /\ (earliest (word_times st) "alpha" == 13500)%Q
    /\ (earliest (word_times st) "beta" == 14250)%Q
    /\ In "alpha" c /\ In "beta" c
    /\ In (phrase_text c) ["alpha"; "beta"; "alpha beta"].
Proof.
  eassert (Hscan :
             scan prefix_ratio "d d alpha beta d d d d d d d d d d d d d d d d"
               ["alpha"; "beta"] (Z.of_nat 1 * (15000 - 3000)) 15000 false
               (8 # 10) = Ok _)
    by (vm_compute; reflexivity).
  destruct (C1_phrases_assembled_per_window prefix_ratio ["alpha"; "beta"]
              false (8 # 10)
              ["alpha beta d d d d d d d d d d d d d d d d d d";
               "d d alpha beta d d d d d d d d d d d d d d d d"]
              [("alpha", ["00:00:00"; "00:00:13"]);
               ("beta", ["00:00:00"; "00:00:14"]);
               ("alpha beta", ["00:00:00"])])
    as [Hmerge _].
  - intros w [<-|[<-|[]]]; reflexivity.
  - vm_compute. reflexivity.
  - destruct (Hmerge 1%nat
                "d d alpha beta d d d d d d d d d d d d d d d d" _
                "alpha" "beta" eq_refl Hscan) as [c [H1 [H2 H3]]].
    + simpl. tauto.
    + simpl. tauto.
    + discriminate.
    + vm_compute. discriminate.
    + eexists. exists c. split; [exact Hscan|].
      split; [vm_compute; reflexivity|]. split; [vm_compute; reflexivity|].
      auto.
Defined.

(* ===================================================================== *)
(** * Further properties of TimeCodec *)
(* ===================================================================== *)

Lemma has_colon_append (a b : string) :
  has_colon (a ++ b) = has_colon a || has_colon b.
Proof.
  induction a as [|c a IH]; simpl; [reflexivity|].
  now rewrite IH, orb_assoc.
Qed.

Lemma cut_colon_append (a r : string) :
  has_colon a = false ->
  cut_colon (a ++ String ":" r) = (a, Some r).
Proof.
  induction a as [|c a IH]; simpl; [reflexivity|].
  intros H. apply orb_false_iff in H. destruct H as [Hc Ha].
  rewrite Hc, (IH Ha). reflexivity.
Qed.

Lemma cut_colon_none (a : string) :
  has_colon a = false -> cut_colon a = (a, None).
Proof.
  induction a as [|c a IH]; simpl; [reflexivity|].
  intros H. apply orb_false_iff in H. destruct H as [Hc Ha].
  rewrite Hc, (IH Ha). reflexivity.
Qed.

Lemma has_colon_uint (d : uint) :
  has_colon (NilEmpty.string_of_uint d) = false.
Proof. induction d; simpl; auto. Qed.

Lemma has_colon_digits (n : N) : has_colon (digits n) = false.
Proof.
  unfold digits, NilZero.string_of_uint.
  destruct (N.to_uint n) eqn:E; try reflexivity;
    rewrite <- E; apply has_colon_uint.
Qed.

Lemma has_colon_zeros (k : nat) : has_colon (zeros k) = false.
Proof. induction k; simpl; auto. Qed.

Lemma has_colon_format_02 (z : Z) : 0 <= z -> has_colon (format_02 z) = false.
Proof.
  intros Hz. unfold format_02.
  destruct (Z.ltb_spec z 0); [lia|].
  unfold zfill. now rewrite has_colon_append, has_colon_zeros, has_colon_digits.
Qed.

Lemma Qfloor_seconds_nonneg (t : Q) : (0 <= t)%Q -> 0 <= Qfloor (t / 1000).
Proof.
  intros Ht. change 0 with (Qfloor 0). apply Qfloor_resp_le.
  apply Qle_shift_div_l; [reflexivity|]. now rewrite Qmult_0_l.
Qed.

(** The display of a non-negative time reads back as its whole seconds. *)
Lemma hms_seconds_display (t : Q) :
  (0 <= t)%Q ->
  hms_seconds (milliseconds_to_hms t) = Some (Qfloor (t / 1000)).
Proof.
  intros Ht. pose proof (Qfloor_seconds_nonneg t Ht) as Hs.
  unfold milliseconds_to_hms. set (s := Qfloor (t / 1000)) in *.
  assert (Hh : 0 <= s / 60 / 60) by (apply Z.div_pos; [apply Z.div_pos|]; lia).
  assert (Hm : 0 <= (s / 60) mod 60) by (apply Z.mod_pos_bound; lia).
  assert (Hse : 0 <= s mod 60) by (apply Z.mod_pos_bound; lia).
  unfold hms_seconds. cbn [String.append].
  rewrite cut_colon_append by now apply has_colon_format_02.
  rewrite cut_colon_append by now apply has_colon_format_02.
  rewrite (proj2 (format_02_field _ Hh)), (proj2 (format_02_field _ Hm)),
    (proj2 (format_02_field _ Hse)).
  f_equal.
  pose proof (Z.div_mod s 60 ltac:(lia)).
  pose proof (Z.div_mod (s / 60) 60 ltac:(lia)).
  lia.
Qed.

(** For non-negative times the display reads back as the whole seconds of
    the time, so two times share a display exactly when they share their
    whole seconds. *)
Theorem milliseconds_to_hms_round_trip (t t' : Q) :
  (0 <= t)%Q -> (0 <= t')%Q ->
  hms_seconds (milliseconds_to_hms t) = Some (Qfloor (t / 1000))
  /\ (milliseconds_to_hms t = milliseconds_to_hms t'
      <-> Qfloor (t / 1000) = Qfloor (t' / 1000)).
Proof.
  intros Ht Ht'. split; [now apply hms_seconds_display|]. split.
  - intros H. apply (f_equal hms_seconds) in H.
    rewrite !hms_seconds_display in H by assumption. now injection H.
  - intros H. unfold milliseconds_to_hms. now rewrite H.
Qed.

Lemma milliseconds_to_hms_round_trip_witness :
  hms_seconds (milliseconds_to_hms (37255 # 10)) = Some 3
  /\ milliseconds_to_hms (37255 # 10) = milliseconds_to_hms 3000.
Proof.
  destruct (milliseconds_to_hms_round_trip (37255 # 10) 3000) as [H1 H2];
    try discriminate.
  split; [rewrite H1; reflexivity | apply H2; reflexivity].
Defined.

Lemma format_02_two_chars (z : Z) :
  0 <= z < 100 -> exists a b, format_02 z = String a (String b EmptyString).
Proof.
  intros Hz. rewrite <- (Z2Nat.id z) by lia.
  assert (Hn : (Z.to_nat z < 100)%nat) by lia.
  revert Hn. generalize (Z.to_nat z). clear z Hz. intros n Hn.
  do 100 (destruct n as [|n]; [vm_compute; eauto|]). lia.
Qed.

(** Below one hundred hours the display has exactly eight characters, with
    the colons in the third and the sixth place. *)
Theorem milliseconds_to_hms_width (t : Q) :
  (0 <= t)%Q -> (t < 360000000)%Q ->
  String.length (milliseconds_to_hms t) = 8%nat
  /\ String.get 2 (milliseconds_to_hms t) = Some ":"%char
  /\ String.get 5 (milliseconds_to_hms t) = Some ":"%char.
Proof.
  intros Ht Hlt. pose proof (Qfloor_seconds_nonneg t Ht) as Hs.
  assert (Hs' : Qfloor (t / 1000) < 360000).
  { rewrite Zlt_Qlt. eapply Qle_lt_trans; [apply Qfloor_le|].
    apply Qlt_shift_div_r; [reflexivity | exact Hlt]. }
  unfold milliseconds_to_hms. set (s := Qfloor (t / 1000)) in *.
  destruct (format_02_two_chars (s / 60 / 60)) as [a1 [b1 ->]].
  { split; [apply Z.div_pos; [apply Z.div_pos|]; lia|].
    apply Z.div_lt_upper_bound; [lia|].
    apply Z.div_lt_upper_bound; lia. }
  destruct (format_02_two_chars ((s / 60) mod 60)) as [a2 [b2 ->]];
    [pose proof (Z.mod_pos_bound (s / 60) 60); lia|].
  destruct (format_02_two_chars (s mod 60)) as [a3 [b3 ->]];
    [pose proof (Z.mod_pos_bound s 60); lia|].
  repeat split.
Qed.

Lemma milliseconds_to_hms_width_witness :
  String.length (milliseconds_to_hms (inject_Z 359999999)) = 8%nat
  /\ milliseconds_to_hms (inject_Z 359999999) = "99:59:59".
Proof.
  destruct (milliseconds_to_hms_width (inject_Z 359999999)) as [H _];
    try reflexivity; try discriminate.
  split; [exact H | reflexivity].
Defined.

(* ===================================================================== *)
(** * Further properties of WindowSegmenter *)
(* ===================================================================== *)

(** Whenever the loop returns, it has appended the windows of consecutive
    steps, all starting inside the audio, and the next step is outside. *)
Lemma split_loop_returns (total chunk_length_ms : Z) (fuel : nat) :
  forall (k : nat) (pre cs : list chunk),
    split_loop fuel total chunk_length_ms
      (mkSplit pre (Z.of_nat k * (chunk_length_ms - overlap))) = Ok cs ->
    exists n,
      cs = pre ++ map (window (chunk_length_ms - overlap) chunk_length_ms)
                    (seq k n)
      /\ (forall j, (k <= j < k + n)%nat ->
                    Z.of_nat j * (chunk_length_ms - overlap) < total)
      /\ total <= Z.of_nat (k + n) * (chunk_length_ms - overlap).
Proof.
  induction fuel as [|fuel IH]; intros k pre cs; cbn [split_loop];
    unfold split_step; cbn [start chunks];
    destruct (Z.ltb_spec (Z.of_nat k * (chunk_length_ms - overlap)) total)
      as [Hlt|Hge]; try discriminate.
  - intros [= <-]. exists 0%nat. rewrite app_nil_r, Nat.add_0_r.
    repeat split; [intros j Hj; lia | exact Hge].
  - replace (Z.of_nat k * (chunk_length_ms - overlap)
             + (chunk_length_ms - overlap))
      with (Z.of_nat (S k) * (chunk_length_ms - overlap)) by lia.
    intros Hrun. destruct (IH _ _ _ Hrun) as [n [-> [Hin Hout]]].
    exists (S n). rewrite <- app_assoc. repeat split.
    + intros j Hj. destruct (Nat.eq_dec j k) as [->|Hne];
        [exact Hlt | apply Hin; lia].
    + now replace (k + S n)%nat with (S k + n)%nat by lia.
  - intros [= <-]. exists 0%nat. rewrite app_nil_r, Nat.add_0_r.
    repeat split; [intros j Hj; lia | exact Hge].
Qed.

(** Chunk [i] of a segmentation is the slice from [i * (length - overlap)]
    to that plus the length, and it starts inside the audio: for the
    length 15000 that [process] passes, the start is the
    [chunk_start_time = i * (15000 - 3000)] it later assumes for chunk
    [i]. *)
Theorem split_audio_chunk_bounds (fuel : nat) (total chunk_length_ms : Z)
  (cs : list chunk) :
  split_audio fuel total chunk_length_ms = Ok cs ->
  forall i c,
    nth_error cs i = Some c ->
    chunk_start c = Z.of_nat i * (chunk_length_ms - overlap)
    /\ chunk_end c = chunk_start c + chunk_length_ms
    /\ chunk_start c < total.
Proof.
  intros Hrun i c Hi. unfold split_audio in Hrun.
  change 0 with (Z.of_nat 0 * (chunk_length_ms - overlap)) in Hrun.
  destruct (split_loop_returns _ _ _ _ _ _ Hrun) as [n [-> [Hin _]]].
  rewrite app_nil_l, nth_error_map, nth_error_seq in Hi.
  destruct (Nat.ltb_spec i n) as [Hlen|]; [|discriminate].
  cbn [option_map Nat.add] in Hi. injection Hi as <-.
  cbn [window chunk_start chunk_end]. repeat split. apply Hin. lia.
Qed.

Lemma split_audio_chunk_bounds_witness :
  chunk_start (mkChunk 36000 51000) = Z.of_nat 3 * (15000 - overlap)
  /\ chunk_end (mkChunk 36000 51000) = chunk_start (mkChunk 36000 51000) + 15000
  /\ chunk_start (mkChunk 36000 51000) < 40000.
Proof.
  apply (split_audio_chunk_bounds 4 40000 15000
           [mkChunk 0 15000; mkChunk 12000 27000; mkChunk 24000 39000;
            mkChunk 36000 51000] eq_refl 3%nat (mkChunk 36000 51000) eq_refl).
Defined.

(** The windows of a segmentation cover the audio: with a window longer
    than the overlap, every instant of the audio lies in some chunk, and
    the chunks are as many as there are steps below the duration. *)
Theorem split_audio_covers (fuel : nat) (total chunk_length_ms : Z)
  (cs : list chunk) :
  overlap < chunk_length_ms ->
  split_audio fuel total chunk_length_ms = Ok cs ->
  (forall t, 0 <= t < total ->
             exists c, In c cs /\ chunk_start c <= t < chunk_end c)
  /\ (0 < total ->
      List.length cs = window_count total (chunk_length_ms - overlap)).
Proof.
  intros HL Hrun. unfold split_audio in Hrun.
  change 0 with (Z.of_nat 0 * (chunk_length_ms - overlap)) in Hrun.
  destruct (split_loop_returns _ _ _ _ _ _ Hrun) as [n [-> [Hin Hout]]].
  rewrite app_nil_l. cbn [Nat.add] in *.
  assert (Hstep : 0 < chunk_length_ms - overlap) by lia.
  split.
  - intros t Ht.
    pose proof (Z.div_mod t (chunk_length_ms - overlap) ltac:(lia)) as Hd.
    pose proof (Z.mod_pos_bound t (chunk_length_ms - overlap) Hstep) as Hm.
    assert (Hq : 0 <= t / (chunk_length_ms - overlap))
      by (apply Z.div_pos; lia).
    assert (Hqn : (Z.to_nat (t / (chunk_length_ms - overlap)) < n)%nat) by nia.
    exists (window (chunk_length_ms - overlap) chunk_length_ms
              (Z.to_nat (t / (chunk_length_ms - overlap)))).
    split.
    + apply in_map. apply in_seq. lia.
    + cbn [window chunk_start chunk_end]. rewrite Z2Nat.id by lia.
      unfold overlap in *. nia.
  - intros Ht. rewrite length_map, length_seq.
    destruct (window_count_bounds total chunk_length_ms Ht Hstep)
      as [_ [Hlt Hge]].
    set (m := window_count total (chunk_length_ms - overlap)) in *.
    destruct (Nat.lt_trichotomy n m) as [Hc|[Hc|Hc]]; [|exact Hc|].
    + specialize (Hlt n Hc). lia.
    + specialize (Hin m ltac:(lia)). lia.
Qed.

Lemma split_audio_covers_witness :
  exists c,
    In c [mkChunk 0 15000; mkChunk 12000 27000; mkChunk 24000 39000;
          mkChunk 36000 51000]
    /\ chunk_start c <= 39500 < chunk_end c.
Proof.
  destruct (split_audio_covers 4 40000 15000
              [mkChunk 0 15000; mkChunk 12000 27000; mkChunk 24000 39000;
               mkChunk 36000 51000] ltac:(reflexivity) eq_refl) as [H _].
  apply H. lia.
Defined.

(* ===================================================================== *)
(** * Further properties of OccurrenceFinder *)
(* ===================================================================== *)

Lemma StronglySorted_snoc (l : list Q) (x : Q) :
  StronglySorted Qle l -> (forall y, In y l -> (y <= x)%Q) ->
  StronglySorted Qle (l ++ [x]).
Proof.
  induction l as [|a l IH]; intros Hs Hle; simpl.
  - repeat constructor.
  - apply StronglySorted_inv in Hs. destruct Hs as [Hs Ha]. constructor.
    + apply IH; [exact Hs | intros y Hy; apply Hle; now right].
    + apply Forall_app. split; [exact Ha|].
      constructor; [apply Hle; now left | constructor].
Qed.

Section ScanFacts.

Variable ratio : string -> string -> Q.
Variable search_words : list string.
Variables chunk_start_time chunk_length_ms : Z.
Variable fuzzy_match : bool.
Variable cutoff : Q.

(** A turn of the loop that returns records nothing, or one occurrence at
    the estimate of its index, under a search term. *)
Lemma scan_token_step (n i : nat) (st st' : scan_state) (word : string) :
  (i < n)%nat ->
  scan_token ratio search_words chunk_start_time chunk_length_ms fuzzy_match
    cutoff n st i word = Ok st' ->
  st' = st
  \/ exists key,
       In key search_words
       /\ st' = record_occurrence key
                  (estimated_time chunk_start_time chunk_length_ms i n) st.
Proof.
  intros Hi. unfold scan_token. rewrite word_time_estimated by assumption.
  destruct (mem word search_words) eqn:Em.
  - intros [= <-]. right. exists word. split; [now apply mem_In | reflexivity].
  - destruct fuzzy_match; [|intros [= <-]; now left].
    destruct (get_close_matches _ _ _ _) as [[|c similar]| |] eqn:Eg;
      cbn [bind]; try discriminate.
    + intros [= <-]. now left.
    + intros [= <-]. right. exists c. split; [|reflexivity].
      assert (Ha : attributed ratio search_words true cutoff word = Some c)
        by (unfold attributed; now rewrite Em, Eg).
      now apply attributed_In in Ha.
Qed.

Lemma chronological_later (n i j : nat) (st : scan_state) :
  (i <= j)%nat ->
  chronological chunk_start_time chunk_length_ms n i st ->
  chronological chunk_start_time chunk_length_ms n j st.
Proof.
  intros Hij H key. destruct (H key) as [H1 [H2 H3]].
  repeat split; try assumption.
  intros t Ht. destruct (H3 t Ht) as [k [Hk ->]]. exists k. split; [lia|auto].
Qed.

Lemma chronological_record (n i : nat) (key : string) (st : scan_state) :
  0 <= chunk_length_ms ->
  chronological chunk_start_time chunk_length_ms n i st ->
  chronological chunk_start_time chunk_length_ms n (S i)
    (record_occurrence key
       (estimated_time chunk_start_time chunk_length_ms i n) st).
Proof.
  intros Hl H k. destruct (H k) as [H1 [H2 H3]]. cbn [record_occurrence
    timestamps word_times].
  destruct (string_dec k key) as [->|Hne].
  - rewrite !entries_append_same, map_app, H1. repeat split.
    + apply StronglySorted_snoc; [exact H2|].
      intros y Hy. destruct (H3 y Hy) as [j [Hj ->]].
      apply estimated_time_monotone; [exact Hl | lia].
    + intros t Ht. apply in_app_or in Ht. destruct Ht as [Ht|[<-|[]]].
      * destruct (H3 t Ht) as [j [Hj ->]]. exists j. split; [lia|auto].
      * exists i. split; [lia|auto].
  - rewrite !entries_append_other by assumption. repeat split; try assumption.
    intros t Ht. destruct (H3 t Ht) as [j [Hj ->]]. exists j. split; [lia|auto].
Qed.

Lemma scan_from_chronological (n : nat) (words : list string) :
  0 <= chunk_length_ms ->
  forall i st st',
    (i + List.length words <= n)%nat ->
    scan_from ratio search_words chunk_start_time chunk_length_ms fuzzy_match
      cutoff n i words st = Ok st' ->
    chronological chunk_start_time chunk_length_ms n i st ->
    chronological chunk_start_time chunk_length_ms n (i + List.length words)
      st'.
Proof.
  intros Hl. induction words as [|word words IH]; intros i st st' Hn;
    cbn [scan_from List.length].
  - intros [= <-]. now rewrite Nat.add_0_r.
  - cbn [List.length] in Hn.
    destruct (scan_token _ _ _ _ _ _ _ _ _ _) as [st1| |] eqn:E;
      cbn [bind]; try discriminate.
    intros Hrun Hst. rewrite <- plus_n_Sm.
    apply (IH (S i) st1 st'); [lia | exact Hrun |].
    apply scan_token_step in E; [|lia].
    destruct E as [->|[key [_ ->]]].
    + eapply chronological_later; [|exact Hst]. lia.
    + now apply chronological_record.
Qed.

End ScanFacts.

Lemma scan_chronological (ratio : string -> string -> Q) (transcript : string)
  (search_words : list string) (chunk_start_time chunk_length_ms : Z)
  (fuzzy_match : bool) (cutoff : Q) (st : scan_state) :
  0 <= chunk_length_ms ->
  scan ratio transcript search_words chunk_start_time chunk_length_ms
    fuzzy_match cutoff = Ok st ->
  chronological chunk_start_time chunk_length_ms
    (List.length (split (lower transcript)))
    (List.length (split (lower transcript))) st.
Proof.
  intros Hl Hscan. unfold scan in Hscan.
  apply (scan_from_chronological _ _ _ _ _ _ _ _ Hl 0%nat _ _
           (Nat.le_refl _) Hscan).
  intros key. unfold entries. simpl. repeat split; [constructor | tauto].
Qed.

(** With fuzzy matching off, or a cutoff in [[0, 1]], the search returns:
    no [KeyError], no [ZeroDivisionError], no [min] of an empty list, and
    the loops of the assembly end. *)
Theorem search_returns_for_valid_settings (ratio : string -> string -> Q)
  (transcript : string) (search_words : list string)
  (chunk_start_time chunk_length_ms : Z) (fuzzy_match : bool) (cutoff : Q) :
  fuzzy_match = false \/ (0 <= cutoff <= 1)%Q ->
  exists r,
    search_word_in_transcript ratio transcript search_words chunk_start_time
      chunk_length_ms fuzzy_match cutoff = Ok r.
Proof.
  intros Hv.
  assert (Hc : fuzzy_match = true -> (0 <= cutoff <= 1)%Q)
    by (destruct Hv as [->|Hv]; [discriminate | auto]).
  pose proof (scan_occurrences ratio transcript search_words chunk_start_time
                chunk_length_ms fuzzy_match cutoff Hc) as Hscan.
  destruct (search_after_scan _ _ _ _ _ _ _ _ Hscan) as [sw [_ [_ Hrun]]].
  eexists. exact Hrun.
Qed.

Lemma search_returns_for_valid_settings_witness :
  exists r,
    search_word_in_transcript prefix_ratio "the quik brown fox"
      ["quick"; "fox"] 0 4000 true (6 # 10) = Ok r.
Proof.
  apply search_returns_for_valid_settings. right. split; discriminate.
Defined.

Lemma scan_from_invalid_cutoff (ratio : string -> string -> Q)
  (search_words : list string) (chunk_start_time chunk_length_ms : Z)
  (cutoff : Q) (n : nat) (words : list string) :
  ~ (0 <= cutoff <= 1)%Q ->
  forall i st,
    (i + List.length words <= n)%nat ->
    (Exists (fun word => ~ In word search_words) words ->
     scan_from ratio search_words chunk_start_time chunk_length_ms true cutoff
       n i words st = Raise ValueError)
    /\ (Forall (fun word => In word search_words) words ->
        exists st',
          scan_from ratio search_words chunk_start_time chunk_length_ms true
            cutoff n i words st = Ok st').
Proof.
  intros Hc. induction words as [|word words IH]; intros i st Hn;
    cbn [scan_from List.length] in *.
  - split; [intros H; inversion H | intros _; eauto].
  - unfold scan_token. rewrite word_time_estimated by lia.
    destruct (mem word search_words) eqn:Em; cbn [bind].
    + apply mem_In in Em. destruct (IH (S i)
        (record_occurrence word
           (estimated_time chunk_start_time chunk_length_ms i n) st)
        ltac:(lia)) as [IH1 IH2].
      split.
      * intros H. apply IH1. inversion H; subst; [contradiction | assumption].
      * intros H. apply IH2. now inversion H.
    + rewrite get_close_matches_invalid by assumption. cbn [bind]. split.
      * reflexivity.
      * intros H. inversion H; subst. apply mem_In in H2. congruence.
Qed.

(** With fuzzy matching on and a cutoff outside [[0, 1]], the search raises
    [ValueError] as soon as the transcript has a token that is not a search
    term, and returns when every token is one. *)
Theorem search_with_invalid_cutoff (ratio : string -> string -> Q)
  (transcript : string) (search_words : list string)
  (chunk_start_time chunk_length_ms : Z) (cutoff : Q) :
  ~ (0 <= cutoff <= 1)%Q ->
  (Exists (fun word => ~ In word (map lower search_words))
     (split (lower transcript)) ->
   search_word_in_transcript ratio transcript search_words chunk_start_time
     chunk_length_ms true cutoff = Raise ValueError)
  /\ (Forall (fun word => In word (map lower search_words))
        (split (lower transcript)) ->
      exists r,
        search_word_in_transcript ratio transcript search_words
          chunk_start_time chunk_length_ms true cutoff = Ok r).
Proof.
  intros Hc.
  destruct (scan_from_invalid_cutoff ratio (map lower search_words)
              chunk_start_time chunk_length_ms cutoff
              (List.length (split (lower transcript)))
              (split (lower transcript)) Hc 0%nat (mkScan [] [])
              (Nat.le_refl _)) as [Hraise Hok].
  split.
  - intros H. unfold search_word_in_transcript, scan. now rewrite (Hraise H).
  - intros H. destruct (Hok H) as [st Hscan].
    destruct (search_after_scan ratio transcript search_words chunk_start_time
                chunk_length_ms true cutoff st Hscan) as [sw [_ [_ Hrun]]].
    eexists. exact Hrun.
Qed.

Lemma search_with_invalid_cutoff_witness :
  search_word_in_transcript prefix_ratio "the fox" ["fox"] 0 4000 true
    (15 # 10) = Raise ValueError
  /\ exists r,
      search_word_in_transcript prefix_ratio "Fox fox" ["fox"] 0 4000 true
        (15 # 10) = Ok r.
Proof.
  destruct (search_with_invalid_cutoff prefix_ratio "the fox" ["fox"] 0 4000
              (15 # 10)) as [H1 _].
  { intros [_ H]. apply H. reflexivity. }
  destruct (search_with_invalid_cutoff prefix_ratio "Fox fox" ["fox"] 0 4000
              (15 # 10)) as [_ H2].
  { intros [_ H]. apply H. reflexivity. }
  split.
  - apply H1. apply Exists_cons_hd. simpl. intuition discriminate.
  - apply H2. repeat constructor.
Defined.

Lemma scan_from_parallel (ratio : string -> string -> Q)
  (search_words : list string) (chunk_start_time chunk_length_ms : Z)
  (fuzzy_match : bool) (cutoff : Q) (n : nat) (words : list string) :
  forall i st st',
    scan_from ratio search_words chunk_start_time chunk_length_ms fuzzy_match
      cutoff n i words st = Ok st' ->
    (forall key, entries (timestamps st) key
                 = map milliseconds_to_hms (entries (word_times st) key)) ->
    forall key, entries (timestamps st') key
                = map milliseconds_to_hms (entries (word_times st') key).
Proof.
  induction words as [|word words IH]; intros i st st'; cbn [scan_from].
  - now intros [= <-].
  - destruct (scan_token _ _ _ _ _ _ _ _ _ _) as [st1| |] eqn:E;
      cbn [bind]; try discriminate.
    intros Hrun Hst. apply (IH _ _ _ Hrun).
    apply scan_token_cases in E. destruct E as [->|[k [t [_ ->]]]];
      [exact Hst|].
    intros key. cbn [record_occurrence timestamps word_times].
    destruct (string_dec key k) as [->|Hne].
    + now rewrite !entries_append_same, map_app, Hst.
    + now rewrite !entries_append_other by assumption.
Qed.

(** The dictionary a search returns has only lower-cased search terms as
    keys, each once, and no key with an empty list. *)
Theorem search_keys_are_search_terms (ratio : string -> string -> Q)
  (transcript : string) (search_words : list string)
  (chunk_start_time chunk_length_ms : Z) (fuzzy_match : bool) (cutoff : Q)
  (ts : dict (list string)) (cw ct : list string) :
  search_word_in_transcript ratio transcript search_words chunk_start_time
    chunk_length_ms fuzzy_match cutoff = Ok (ts, cw, ct) ->
  NoDup (keys ts)
  /\ forall k, In k (keys ts) ->
               In k (map lower search_words) /\ entries ts k <> [].
Proof.
  intros Hr.
  destruct (search_returns ratio search_words fuzzy_match cutoff _ _ _ _ Hr)
    as [st [sw [Hscan [_ [_ Heq]]]]].
  injection Heq as -> _ _.
  destruct (scan_scanned _ _ _ _ _ _ _ _ Hscan) as [Hp [Hsub [Hkeys Hnd]]].
  split; [now rewrite Hkeys|].
  intros k Hk. rewrite Hkeys in Hk. split; [now apply Hsub|].
  unfold scan in Hscan.
  rewrite (scan_from_parallel _ _ _ _ _ _ _ _ _ _ _ Hscan)
    by (intros key; reflexivity).
  destruct (present_entries _ _ (Hp k Hk)) as [x [l [-> _]]]. discriminate.
Qed.

Lemma search_keys_are_search_terms_witness :
  NoDup ["quick"; "fox"]
  /\ forall k, In k ["quick"; "fox"] ->
               In k (map lower ["Quick"; "FOX"; "dog"])
               /\ entries [("quick", ["00:00:01"]); ("fox", ["00:00:03"])] k
                  <> [].
Proof.
  apply (search_keys_are_search_terms prefix_ratio "the quick brown fox"
           ["Quick"; "FOX"; "dog"] 0 4000 false (8 # 10)
           [("quick", ["00:00:01"]); ("fox", ["00:00:03"])] [] []).
  vm_compute. reflexivity.
Defined.

Lemma count_occurrences_from (ratio : string -> string -> Q)
  (search_words : list string) (start_ms length_ms : Z) (fuzzy_match : bool)
  (cutoff : Q) (n : nat) (key : string) (words : list string) :
  forall i,
    List.length
      (filter (fun o => String.eqb (fst o) key)
         (occurrences_from ratio search_words start_ms length_ms fuzzy_match
            cutoff n i words))
    = List.length
        (filter (attributed_to ratio search_words fuzzy_match cutoff key)
           words).
Proof.
  induction words as [|word words IH]; intros i; cbn [occurrences_from filter];
    [reflexivity|].
  rewrite filter_app, length_app, IH. unfold attributed_to at 2.
  destruct (attributed _ _ _ _ word) as [k|]; cbn [filter fst];
    [destruct (String.eqb k key)|]; reflexivity.
Qed.

(** Every mention counts: under a search term the returned dictionary
    lists as many times as the transcript has tokens attributed to the
    term, repeated tokens included. *)
Theorem search_lists_every_occurrence (ratio : string -> string -> Q)
  (transcript : string) (search_words : list string)
  (chunk_start_time chunk_length_ms : Z) (fuzzy_match : bool) (cutoff : Q) :
  (fuzzy_match = true -> (0 <= cutoff <= 1)%Q) ->
  exists ts cw ct,
    search_word_in_transcript ratio transcript search_words chunk_start_time
      chunk_length_ms fuzzy_match cutoff = Ok (ts, cw, ct)
    /\ forall key,
        List.length (entries ts key)
        = List.length
            (filter
               (attributed_to ratio (map lower search_words) fuzzy_match
                  cutoff key)
               (split (lower transcript))).
Proof.
  intros Hc.
  pose proof (scan_occurrences ratio transcript search_words chunk_start_time
                chunk_length_ms fuzzy_match cutoff Hc) as Hscan.
  destruct (search_after_scan _ _ _ _ _ _ _ _ Hscan) as [sw [_ [_ Hrun]]].
  do 3 eexists. split; [exact Hrun|].
  intros key. rewrite timestamps_record_all.
  change (entries (timestamps (mkScan [] [])) key) with (@nil string).
  rewrite app_nil_l, !length_map. apply count_occurrences_from.
Qed.

Lemma search_lists_every_occurrence_witness :
  exists ts cw ct,
    search_word_in_transcript prefix_ratio "fox the Fox and the fox"
      ["fox"] 0 6000 false (8 # 10) = Ok (ts, cw, ct)
    /\ List.length (entries ts "fox") = 3%nat.
Proof.
  destruct (search_lists_every_occurrence prefix_ratio
              "fox the Fox and the fox" ["fox"] 0 6000 false (8 # 10))
    as [ts [cw [ct [Hrun Hcount]]]]; [discriminate|].
  exists ts, cw, ct. split; [exact Hrun|]. rewrite Hcount. reflexivity.
Defined.

Lemma lower_upper_ascii (c : ascii) :
  lower_ascii (upper_ascii c) = lower_ascii c.
Proof. destruct c as [[] [] [] [] [] [] [] []]; reflexivity. Qed.

Lemma upper_lower_ascii (c : ascii) :
  upper_ascii (lower_ascii c) = upper_ascii c.
Proof. destruct c as [[] [] [] [] [] [] [] []]; reflexivity. Qed.

Lemma lower_upper (s : string) : lower (upper s) = lower s.
Proof.
  induction s as [|c s IH]; simpl; [reflexivity|].
  now rewrite lower_upper_ascii, IH.
Qed.

Lemma upper_lower (s : string) : upper (lower s) = upper s.
Proof.
  induction s as [|c s IH]; simpl; [reflexivity|].
  now rewrite upper_lower_ascii, IH.
Qed.

(** Two strings that agree in upper case agree in lower case. *)
Lemma lower_of_upper_eq (s t : string) : upper s = upper t -> lower s = lower t.
Proof.
  intros H. rewrite <- (lower_upper s), <- (lower_upper t). now rewrite H.
Qed.

Lemma map_lower_of_upper_eq (l m : list string) :
  map upper l = map upper m -> map lower l = map lower m.
Proof.
  revert m. induction l as [|s l IH]; intros [|t m]; simpl; try discriminate;
    [reflexivity|].
  intros [= Hs Hl]. f_equal; [now apply lower_of_upper_eq | now apply IH].
Qed.

(** Matching ignores case: on text of the ASCII range, two transcripts
    that differ in the case of their letters only (they agree once in upper
    case), searched for words that differ in case only, give the same
    result. *)
Theorem search_ignores_case (ratio : string -> string -> Q)
  (transcript transcript' : string) (search_words search_words' : list string)
  (chunk_start_time chunk_length_ms : Z) (fuzzy_match : bool) (cutoff : Q) :
  is_ascii transcript = true -> is_ascii transcript' = true ->
  forallb is_ascii search_words = true ->
  forallb is_ascii search_words' = true ->
  upper transcript = upper transcript' ->
  map upper search_words = map upper search_words' ->
  search_word_in_transcript ratio transcript search_words chunk_start_time
    chunk_length_ms fuzzy_match cutoff
  = search_word_in_transcript ratio transcript' search_words'
      chunk_start_time chunk_length_ms fuzzy_match cutoff.
Proof.
  intros _ _ _ _ Ht Hw. unfold search_word_in_transcript, scan.
  now rewrite (lower_of_upper_eq _ _ Ht), (map_lower_of_upper_eq _ _ Hw).
Qed.

Lemma search_ignores_case_witness :
  search_word_in_transcript prefix_ratio "The QUICK brown Fox"
    ["quick"; "FOX"] 0 4000 false (8 # 10)
  = search_word_in_transcript prefix_ratio "the quick BROWN fox"
      ["Quick"; "fox"] 0 4000 false (8 # 10)
  /\ search_word_in_transcript prefix_ratio "The QUICK brown Fox"
       ["quick"; "FOX"] 0 4000 false (8 # 10)
     = Ok ([("quick", ["00:00:01"]); ("fox", ["00:00:03"])], [], []).
Proof.
  split; [|vm_compute; reflexivity].
  apply search_ignores_case; reflexivity.
Defined.

Lemma scan_from_without_fuzzy (ratio ratio' : string -> string -> Q)
  (search_words : list string) (chunk_start_time chunk_length_ms : Z)
  (cutoff cutoff' : Q) (n : nat) (words : list string) :
  forall i st,
    scan_from ratio search_words chunk_start_time chunk_length_ms false cutoff
      n i words st
    = scan_from ratio' search_words chunk_start_time chunk_length_ms false
        cutoff' n i words st.
Proof.
  induction words as [|word words IH]; intros i st; cbn [scan_from];
    [reflexivity|].
  unfold scan_token. destruct (mem word search_words); cbn [bind].
  - destruct (word_time _ _ _ _); cbn [bind]; auto.
  - apply IH.
Qed.

(** With fuzzy matching off the similarity is never consulted: the result
    is the same for every similarity function and every cutoff, valid or
    not, and every key is a token of the transcript. *)
Theorem search_without_fuzzy (ratio ratio' : string -> string -> Q)
  (transcript : string) (search_words : list string)
  (chunk_start_time chunk_length_ms : Z) (cutoff cutoff' : Q) :
  search_word_in_transcript ratio transcript search_words chunk_start_time
    chunk_length_ms false cutoff
  = search_word_in_transcript ratio' transcript search_words
      chunk_start_time chunk_length_ms false cutoff'
  /\ exists ts cw ct,
      search_word_in_transcript ratio transcript search_words
        chunk_start_time chunk_length_ms false cutoff = Ok (ts, cw, ct)
      /\ forall k, In k (keys ts) -> In k (split (lower transcript)).
Proof.
  split.
  - unfold search_word_in_transcript, scan.
    now rewrite (scan_from_without_fuzzy ratio ratio' _ _ _ cutoff cutoff').
  - pose proof (scan_occurrences ratio transcript search_words
                  chunk_start_time chunk_length_ms false cutoff
                  ltac:(discriminate)) as Hscan.
    destruct (search_after_scan _ _ _ _ _ _ _ _ Hscan) as [sw [_ [_ Hrun]]].
    do 3 eexists. split; [exact Hrun|].
    intros k Hk.
    destruct (scan_scanned _ _ _ _ _ _ _ _ Hscan) as [_ [_ [Hkeys _]]].
    rewrite Hkeys in Hk. apply In_keys_record_all in Hk.
    destruct Hk as [[]|Hk]. apply in_map_iff in Hk.
    destruct Hk as [[k' t] [<- Ho]]. apply In_occurrences_from in Ho.
    destruct Ho as [j [word [Hj [Ha _]]]]. cbn [fst].
    unfold attributed in Ha. destruct (mem word _); [|discriminate].
    injection Ha as <-. eapply nth_error_In. exact Hj.
Qed.

(** The times a search lists under a word are in chronological order: the
    list of displays is that of an ascending list of times, each the
    estimate, computed in double precision, of a token index. *)
Theorem search_times_chronological (ratio : string -> string -> Q)
  (transcript : string) (search_words : list string)
  (chunk_start_time chunk_length_ms : Z) (fuzzy_match : bool) (cutoff : Q)
  (ts : dict (list string)) (cw ct : list string) :
  0 <= chunk_length_ms ->
  search_word_in_transcript ratio transcript search_words chunk_start_time
    chunk_length_ms fuzzy_match cutoff = Ok (ts, cw, ct) ->
  forall key,
    exists times,
      entries ts key = map milliseconds_to_hms times
      /\ StronglySorted Qle times
      /\ forall t, In t times ->
           exists i, (i < List.length (split (lower transcript)))%nat
                     /\ t = estimated_time chunk_start_time chunk_length_ms i
                              (List.length (split (lower transcript))).
Proof.
  intros Hl Hr key.
  destruct (search_returns ratio search_words fuzzy_match cutoff _ _ _ _ Hr)
    as [st [sw [Hscan [_ [_ Heq]]]]].
  injection Heq as -> _ _.
  destruct (scan_chronological _ _ _ _ _ _ _ _ Hl Hscan key) as [H1 [H2 H3]].
  exists (entries (word_times st) key). auto.
Qed.

(** The token at index 7 of 10 in a window of 90000 ms: its estimate is
    the double just below 63000, displayed at second 62. *)
Lemma search_times_chronological_witness :
  exists times,
    entries [("x", ["00:00:09"; "00:01:02"])] "x"
    = map milliseconds_to_hms times
    /\ StronglySorted Qle times
    /\ forall t, In t times ->
         exists i, (i < 10)%nat /\ t = estimated_time 0 90000 i 10.
Proof.
  destruct (search_times_chronological prefix_ratio "d x d d d d d X d d"
              ["x"] 0 90000 false (8 # 10)
              [("x", ["00:00:09"; "00:01:02"])] [] []
              ltac:(lia) ltac:(vm_compute; reflexivity) "x")
    as [times [H1 [H2 H3]]].
  exists times. repeat split; assumption.
Defined.

Lemma clusters_from_concat (et : string -> Q) (gap : Q) (ws : list string) :
  forall current reference,
    List.concat (clusters_from et gap current reference ws) = current ++ ws.
Proof.
  induction ws as [|w ws IH]; intros current reference; cbn [clusters_from].
  - simpl. now rewrite app_nil_r.
  - destruct (Qle_bool _ gap).
    + rewrite IH, <- app_assoc. reflexivity.
    + cbn [List.concat]. rewrite IH. reflexivity.
Qed.

(** The clusters split the ordered words into consecutive runs. *)
Lemma clusters_concat (et : string -> Q) (gap : Q) (ws : list string) :
  List.concat (clusters et gap ws) = ws.
Proof.
  destruct ws as [|w ws]; [reflexivity|]. apply clusters_from_concat.
Qed.

Lemma NoDup_app_disjoint {A : Type} (l1 l2 : list A) :
  NoDup (l1 ++ l2) -> forall a, In a l1 -> ~ In a l2.
Proof.
  induction l1 as [|x l1 IH]; simpl; [tauto|].
  intros Hnd a [<-|Ha] Hin.
  - apply NoDup_cons_iff in Hnd. apply (proj1 Hnd). apply in_or_app. now right.
  - apply NoDup_cons_iff in Hnd. now apply (IH (proj2 Hnd) a).
Qed.

Lemma concat_filter_sub {A : Type} (f : list A -> bool) (l : list (list A)) :
  (forall a, In a (List.concat (filter f l)) -> In a (List.concat l))
  /\ (NoDup (List.concat l) -> NoDup (List.concat (filter f l)))
  /\ (List.length (List.concat (filter f l)) <= List.length (List.concat l))%nat.
Proof.
  induction l as [|c l [IH1 [IH2 IH3]]]; cbn [filter List.concat].
  - repeat split; auto.
  - destruct (f c); cbn [List.concat].
    + repeat split.
      * intros a Ha. apply in_app_or in Ha. apply in_or_app.
        destruct Ha; auto.
      * intros Hnd. apply NoDup_app.
        -- now apply NoDup_app_remove_r in Hnd.
        -- apply IH2. now apply NoDup_app_remove_l in Hnd.
        -- intros a Ha Hin. apply (NoDup_app_disjoint _ _ Hnd a Ha). auto.
      * rewrite !length_app. lia.
    + repeat split.
      * intros a Ha. apply in_or_app. auto.
      * intros Hnd. apply IH2. now apply NoDup_app_remove_l in Hnd.
      * rewrite length_app. lia.
Qed.

Lemma length_concat_multiword (l : list (list string)) :
  (2 * List.length (filter multiword l)
   <= List.length (List.concat (filter multiword l)))%nat.
Proof.
  induction l as [|c l IH]; cbn [filter]; [simpl; lia|].
  destruct (multiword c) eqn:E; [|exact IH].
  cbn [List.concat List.length]. rewrite length_app.
  unfold multiword in E. apply Nat.leb_le in E. lia.
Qed.

(** The phrases of a search are made of found words, no word is in two
    phrases or twice in one, every phrase has two words or more, and a
    display time comes with each phrase. *)
Theorem search_phrases_partition (ratio : string -> string -> Q)
  (transcript : string) (search_words : list string)
  (chunk_start_time chunk_length_ms : Z) (fuzzy_match : bool) (cutoff : Q)
  (ts : dict (list string)) (cw ct : list string) :
  search_word_in_transcript ratio transcript search_words chunk_start_time
    chunk_length_ms fuzzy_match cutoff = Ok (ts, cw, ct) ->
  exists phrases : list (list string),
    cw = map phrase_text phrases
    /\ List.length ct = List.length cw
    /\ NoDup (List.concat phrases)
    /\ (forall w, In w (List.concat phrases) -> In w (keys ts))
    /\ (forall c, In c phrases -> (2 <= List.length c)%nat)
    /\ (2 * List.length cw <= List.length (keys ts))%nat.
Proof.
  intros Hr.
  destruct (search_returns ratio search_words fuzzy_match cutoff _ _ _ _ Hr)
    as [st [sw [Hscan [Hperm [_ Heq]]]]].
  injection Heq as -> -> ->.
  destruct (scan_scanned _ _ _ _ _ _ _ _ Hscan) as [_ [_ [Hkeys Hnd]]].
  exists (phrases_of (word_times st) sw). unfold phrases_of.
  destruct (concat_filter_sub multiword
              (clusters (earliest (word_times st)) effective_gap sw))
    as [Hsub [Hnodup Hlen]].
  rewrite clusters_concat in Hsub, Hnodup, Hlen.
  split; [reflexivity|]. split; [now rewrite !length_map|].
  split; [apply Hnodup; eapply Permutation_NoDup;
          [symmetry; exact Hperm | exact Hnd]|].
  split; [intros w Hw; rewrite Hkeys; eapply Permutation_in;
          [exact Hperm | now apply Hsub]|].
  split.
  - intros c Hc. apply filter_In in Hc. destruct Hc as [_ Hc].
    unfold multiword in Hc. now apply Nat.leb_le in Hc.
  - rewrite length_map, Hkeys, <- (Permutation_length Hperm).
    pose proof (length_concat_multiword
                  (clusters (earliest (word_times st)) effective_gap sw)). lia.
Qed.

Lemma search_phrases_partition_witness :
  exists phrases : list (list string),
    ["a b c"] = map phrase_text phrases
    /\ NoDup (List.concat phrases)
    /\ (2 * List.length ["a b c"] <= List.length ["a"; "b"; "c"])%nat.
Proof.
  destruct (search_phrases_partition prefix_ratio
              "a b c d d d d d d d d d d d d" ["a"; "b"; "c"] 0 15000 false
              (8 # 10)
              [("a", ["00:00:00"]); ("b", ["00:00:01"]); ("c", ["00:00:02"])]
              ["a b c"] ["00:00:00"] ltac:(vm_compute; reflexivity))
    as [phrases [H1 [_ [H2 [_ [_ H3]]]]]].
  exists phrases. repeat split; assumption.
Defined.

Lemma fold_min2_least (l : list Q) (x : Q) :
  (forall y, In y l -> (x <= y)%Q) -> fold_left min2 l x = x.
Proof.
  induction l as [|y l IH]; intros H; simpl; [reflexivity|].
  assert (E : min2 x y = x).
  { unfold min2. destruct (Qltb y x) eqn:Elt; [|reflexivity].
    apply Qltb_lt in Elt. specialize (H y (or_introl eq_refl)). lra. }
  rewrite E. apply IH. intros z Hz. apply H. now right.
Qed.

Lemma StronglySorted_app_parts {A : Type} (R : A -> A -> Prop)
  (l1 l2 : list A) :
  StronglySorted R (l1 ++ l2) -> StronglySorted R l1 /\ StronglySorted R l2.
Proof.
  induction l1 as [|x l1 IH]; simpl; intros H; [split; [constructor | exact H]|].
  apply StronglySorted_inv in H. destruct H as [H Hx].
  destruct (IH H) as [H1 H2]. split; [|exact H2].
  constructor; [exact H1|]. apply Forall_app in Hx. tauto.
Qed.

(** A cluster of words in ascending order is itself in ascending order. *)
Lemma clusters_from_sorted (et : string -> Q) (gap : Q) (ws : list string) :
  forall current reference c,
    StronglySorted (fun a b => (et a <= et b)%Q) (current ++ ws) ->
    In c (clusters_from et gap current reference ws) ->
    StronglySorted (fun a b => (et a <= et b)%Q) c.
Proof.
  induction ws as [|w ws IH]; intros current reference c Hs Hc;
    cbn [clusters_from] in Hc.
  - destruct Hc as [<-|[]]. now rewrite app_nil_r in Hs.
  - destruct (Qle_bool _ gap).
    + apply (IH (current ++ [w]) (et w) c); [|exact Hc].
      rewrite <- app_assoc. exact Hs.
    + apply StronglySorted_app_parts in Hs. destruct Hs as [H1 H2].
      destruct Hc as [<-|Hc]; [exact H1|].
      apply (IH [w] (et w) c); assumption.
Qed.

Lemma In_combine_maps {A B C : Type} (f : A -> B) (g : A -> C) (l : list A)
  (b : B) (c : C) :
  In (b, c) (combine (map f l) (map g l)) ->
  exists a, In a l /\ b = f a /\ c = g a.
Proof.
  induction l as [|a l IH]; simpl; [tauto|].
  intros [[= <- <-]|H]; [exists a; auto|].
  destruct (IH H) as [a' [Ha' Heq]]. exists a'. auto.
Qed.

(** A phrase is displayed at the first time listed under its first word:
    the words of a phrase come in ascending order of earliest time, and the
    times of a word in chronological order. *)
Theorem search_phrase_time_is_first (ratio : string -> string -> Q)
  (transcript : string) (search_words : list string)
  (chunk_start_time chunk_length_ms : Z) (fuzzy_match : bool) (cutoff : Q)
  (ts : dict (list string)) (cw ct : list string) :
  0 <= chunk_length_ms ->
  search_word_in_transcript ratio transcript search_words chunk_start_time
    chunk_length_ms fuzzy_match cutoff = Ok (ts, cw, ct) ->
  forall p time,
    In (p, time) (combine cw ct) ->
    exists w rest,
      p = phrase_text (w :: rest) /\ rest <> []
      /\ hd_error (entries ts w) = Some time.
Proof.
  intros Hl Hr p time Hin.
  destruct (search_returns ratio search_words fuzzy_match cutoff _ _ _ _ Hr)
    as [st [sw [Hscan [Hperm [Hsorted Heq]]]]].
  injection Heq as -> -> ->.
  apply In_combine_maps in Hin. destruct Hin as [c [Hc [-> ->]]].
  unfold phrases_of in Hc. apply filter_In in Hc. destruct Hc as [Hc Hmulti].
  destruct c as [|w [|v rest]]; try discriminate.
  exists w, (v :: rest). split; [reflexivity|]. split; [discriminate|].
  destruct (scan_scanned _ _ _ _ _ _ _ _ Hscan) as [Hp _].
  assert (Hwords : forall u, In u (w :: v :: rest) ->
                             present (word_times st) u).
  { intros u Hu. apply Hp. eapply Permutation_in; [exact Hperm|].
    eapply clusters_words; eassumption. }
  assert (Hcs : StronglySorted (by_earliest (word_times st)) (w :: v :: rest)).
  { destruct sw as [|s0 sw]; [destruct Hc|].
    apply (clusters_from_sorted (earliest (word_times st)) effective_gap sw
             [s0] (earliest (word_times st) s0)); assumption. }
  rewrite phrase_time_chain;
    [|apply Hwords; now left | intros u Hu; apply Hwords; now right].
  apply StronglySorted_inv in Hcs. destruct Hcs as [_ Hw].
  rewrite Forall_forall in Hw.
  rewrite fold_min2_least.
  2:{ intros y Hy. apply in_map_iff in Hy. destruct Hy as [u [<- Hu]].
      now apply Hw. }
  destruct (scan_chronological _ _ _ _ _ _ _ _ Hl Hscan w) as [-> [Hts _]].
  destruct (present_entries _ _ (Hwords w (or_introl eq_refl)))
    as [x [l [Ex Eet]]].
  rewrite Eet, Ex in *. apply StronglySorted_inv in Hts.
  destruct Hts as [_ Hx]. rewrite Forall_forall in Hx.
  rewrite fold_min2_least by exact Hx. reflexivity.
Qed.

Lemma search_phrase_time_is_first_witness :
  exists w rest,
    "c b a" = phrase_text (w :: rest) /\ rest <> []
    /\ hd_error
         (entries
            [("c", ["00:00:00"; "00:00:04"]); ("b", ["00:00:01"]);
             ("a", ["00:00:02"])] w)
       = Some "00:00:00".
Proof.
  apply (search_phrase_time_is_first prefix_ratio
           "c b a d c d d d d d d d d d d" ["a"; "b"; "c"] 0 15000 false
           (8 # 10)
           [("c", ["00:00:00"; "00:00:04"]); ("b", ["00:00:01"]);
            ("a", ["00:00:02"])]
           ["c b a"] ["00:00:00"]).
  - lia.
  - vm_compute. reflexivity.
  - now left.
Defined.

(* ===================================================================== *)
(** * Further properties of the pipeline *)
(* ===================================================================== *)

Lemma search_total (ratio : string -> string -> Q) (transcript : string)
  (search_words : list string) (chunk_start_time chunk_length_ms : Z)
  (fuzzy_match : bool) (cutoff : Q) :
  fuzzy_match = false \/ (0 <= cutoff <= 1)%Q ->
  exists r,
    search_word_in_transcript ratio transcript search_words chunk_start_time
      chunk_length_ms fuzzy_match cutoff = Ok r.
Proof.
  intros Hv.
  assert (Hc : fuzzy_match = true -> (0 <= cutoff <= 1)%Q)
    by (destruct Hv as [->|Hv]; [discriminate | auto]).
  pose proof (scan_occurrences ratio transcript search_words chunk_start_time
                chunk_length_ms fuzzy_match cutoff Hc) as Hscan.
  destruct (search_after_scan _ _ _ _ _ _ _ _ Hscan) as [sw [_ [_ Hrun]]].
  eexists. exact Hrun.
Qed.

Lemma process_chunks_total (ratio : string -> string -> Q)
  (search_words : list string) (fuzzy_match : bool) (cutoff : Q)
  (texts : list string) :
  fuzzy_match = false \/ (0 <= cutoff <= 1)%Q ->
  forall i ts,
    exists final,
      process_chunks ratio search_words fuzzy_match cutoff i texts ts
      = Ok final.
Proof.
  intros Hv. induction texts as [|text texts IH]; intros i ts;
    cbn [process_chunks]; [eauto|].
  destruct (search_total ratio text search_words
              (Z.of_nat i * (15000 - 3000)) 15000 fuzzy_match cutoff Hv)
    as [r ->].
  cbn [bind]. apply IH.
Qed.

Lemma process_chunks_silent (ratio : string -> string -> Q)
  (search_words : list string) (fuzzy_match : bool) (cutoff : Q)
  (texts : list string) (i : nat) (ts : dict (list string)) :
  process_chunks ratio search_words fuzzy_match cutoff i ("" :: texts) ts
  = process_chunks ratio search_words fuzzy_match cutoff (S i) texts ts.
Proof. reflexivity. Qed.

(** A chunk the recogniser fails on, for either reason, is passed over:
    the run goes on with the next chunk, at its own start time, and with
    the dictionary as it was; no setting of the search can make the failed
    chunk raise. *)
Theorem failed_transcription_is_skipped (ratio : string -> string -> Q)
  (recognize : chunk -> string -> recognition) (c : chunk)
  (language : string) (search_words : list string) (fuzzy_match : bool)
  (cutoff : Q) (texts : list string) (i : nat) (ts : dict (list string)) :
  recognize c language = UnknownValueError
  \/ recognize c language = RequestError ->
  process_chunks ratio search_words fuzzy_match cutoff i
    (transcribe_audio_chunk recognize c language :: texts) ts
  = process_chunks ratio search_words fuzzy_match cutoff (S i) texts ts.
Proof.
  intros H. unfold transcribe_audio_chunk.
  destruct H as [-> | ->]; apply process_chunks_silent.
Qed.

Lemma failed_transcription_is_skipped_witness :
  process_chunks prefix_ratio ["fox"] true (15 # 10) 0
    [transcribe_audio_chunk (fun _ _ => RequestError) (mkChunk 0 15000)
       "en-US"; "fox"] []
  = Ok [("fox", ["00:00:12"])].
Proof.
  rewrite (failed_transcription_is_skipped prefix_ratio
             (fun _ _ => RequestError) (mkChunk 0 15000) "en-US" ["fox"] true
             (15 # 10) ["fox"] 0 []) by (right; reflexivity).
  reflexivity.
Defined.

(** An error in the search of one chunk ends the run with that error:
    what the chunks before it found is not returned. *)
Theorem process_aborts_on_first_error (ratio : string -> string -> Q)
  (search_words : list string) (fuzzy_match : bool) (cutoff : Q)
  (before after : list string) (text : string) (e : exn) :
  Forall (fun r => exists v, r = Ok v)
    (results_from ratio search_words fuzzy_match cutoff 0 before) ->
  chunk_result ratio search_words fuzzy_match cutoff (List.length before) text
  = Raise e ->
  process ratio search_words fuzzy_match cutoff (before ++ text :: after)
  = Raise e.
Proof.
  unfold process. generalize (@nil (string * list string)) as ts.
  change (List.length before) with (0 + List.length before)%nat.
  generalize 0%nat as i.
  induction before as [|b before IH]; intros i ts Hok Hraise;
    cbn [List.app process_chunks results_from List.length] in *.
  - rewrite Nat.add_0_r in Hraise. unfold chunk_result in Hraise.
    now rewrite Hraise.
  - apply Forall_cons_iff in Hok. destruct Hok as [[v Hv] Hok].
    unfold chunk_result in Hv. rewrite Hv. cbn [bind].
    apply IH; [exact Hok|]. now rewrite <- plus_n_Sm in Hraise.
Qed.

Lemma process_aborts_on_first_error_witness :
  process prefix_ratio ["fox"] true (15 # 10) (["fox"] ++ "the fox" :: ["fox"])
  = Raise ValueError.
Proof.
  apply process_aborts_on_first_error.
  - repeat constructor. eexists. vm_compute. reflexivity.
  - vm_compute. reflexivity.
Defined.

Lemma In_keys_fold_merge_word (items : dict (list string)) (k : string) :
  forall ts,
    In k (keys (fold_left merge_word items ts)) ->
    In k (keys ts) \/ In k (keys items).
Proof.
  induction items as [|[w times] items IH]; intros ts; cbn [fold_left];
    [tauto|].
  intros H. apply IH in H. cbn [keys map fst In]. destruct H as [H|H]; [|tauto].
  unfold merge_word in H. destruct (dict_get ts w);
    apply In_keys_set in H; destruct H as [->|H]; tauto.
Qed.

Lemma In_keys_fold_merge_phrase (items : list (string * string)) (k : string) :
  forall ts,
    In k (keys (fold_left merge_phrase items ts)) ->
    In k (keys ts) \/ In k (keys items).
Proof.
  induction items as [|[c time] items IH]; intros ts; cbn [fold_left];
    [tauto|].
  intros H. apply IH in H. cbn [keys map fst In]. destruct H as [H|H]; [|tauto].
  unfold merge_phrase in H. destruct (dict_mem ts c); [tauto|].
  apply In_keys_set in H. destruct H as [->|H]; tauto.
Qed.

Lemma In_keys_merge_chunk (ts tsw : dict (list string)) (cw ct : list string)
  (k : string) :
  In k (keys (merge_chunk ts (tsw, cw, ct))) ->
  In k (keys ts) \/ In k (keys tsw) \/ In k cw.
Proof.
  unfold merge_chunk. intros H. apply In_keys_fold_merge_phrase in H.
  destruct H as [H|H].
  - apply In_keys_fold_merge_word in H. tauto.
  - right. right. unfold keys in H. apply in_map_iff in H.
    destruct H as [[c time] [<- H]]. eapply in_combine_l. exact H.
Qed.

(** The keys of a run are lower-cased search words, or phrases. *)
Lemma process_chunks_keys (ratio : string -> string -> Q)
  (search_words : list string) (fuzzy_match : bool) (cutoff : Q)
  (texts : list string) :
  forall i ts final,
    process_chunks ratio search_words fuzzy_match cutoff i texts ts
    = Ok final ->
    forall k, In k (keys final) ->
              In k (keys ts) \/ In k (map lower search_words)
              \/ has_space k = true.
Proof.
  induction texts as [|text texts IH]; intros i ts final;
    cbn [process_chunks].
  - intros [= <-] k Hk. now left.
  - destruct (search_word_in_transcript _ _ _ _ _ _ _) as [r| |] eqn:Hr;
      cbn [bind]; try discriminate.
    intros Hrun k Hk. destruct (IH _ _ _ Hrun k Hk) as [H|H]; [|tauto].
    destruct (search_returns ratio search_words fuzzy_match cutoff _ _ _ _ Hr)
      as [st [sw [Hscan [_ [_ ->]]]]].
    apply In_keys_merge_chunk in H. destruct H as [H|[H|H]]; [tauto| |].
    + destruct (scan_scanned _ _ _ _ _ _ _ _ Hscan) as [_ [Hsub [Hkeys _]]].
      rewrite Hkeys in H. right. left. now apply Hsub.
    + apply in_map_iff in H. destruct H as [c [<- Hc]].
      right. right. apply has_space_phrase. unfold phrases_of in Hc.
      apply filter_In in Hc. tauto.
Qed.

Lemma first_phrase_time_single
  (rs : list (dict (list string) * list string * list string)) (p : string)
  (l : list string) :
  first_phrase_time rs p = Some l -> List.length l = 1%nat.
Proof.
  induction rs as [|[[tsw cw] ct] rs IH]; cbn [first_phrase_time];
    [discriminate|].
  destruct (dict_get (combine cw ct) p); [|exact IH].
  now intros [= <-].
Qed.

Lemma split_audio_by_count (fuel : nat) (total chunk_length_ms : Z) :
  overlap < chunk_length_ms ->
  (window_count total (chunk_length_ms - overlap) <= fuel)%nat ->
  split_audio fuel total chunk_length_ms
  = Ok (map (window (chunk_length_ms - overlap) chunk_length_ms)
          (seq 0 (window_count total (chunk_length_ms - overlap)))).
Proof.
  intros HL Hfuel. destruct (Z_lt_le_dec 0 total) as [Ht|Ht].
  - destruct (window_count_bounds total chunk_length_ms Ht ltac:(lia))
      as [_ [H2 H3]].
    unfold split_audio.
    change 0 with (Z.of_nat 0 * (chunk_length_ms - overlap)) at 1.
    rewrite (split_loop_emits total chunk_length_ms _ 0 fuel [] Hfuel);
      [reflexivity | intros j Hj; apply H2; lia | exact H3].
  - assert (E : window_count total (chunk_length_ms - overlap) = 0%nat).
    { unfold window_count.
      assert ((total + (chunk_length_ms - overlap) - 1)
              / (chunk_length_ms - overlap) <= 0); [|lia].
      apply Z.lt_succ_r. apply Z.div_lt_upper_bound; lia. }
    rewrite E. unfold split_audio.
    destruct fuel; cbn [split_loop]; rewrite split_step_done by (simpl; lia);
      reflexivity.
Qed.

(** With fuzzy matching off or a valid cutoff, and fuel for the windows
    of the audio, the request is processed to the end whatever the
    recogniser and the transliteration do, and the report has one
    transcription for every window, numbered from 1. *)
Theorem process_video_returns (ratio : string -> string -> Q)
  (transliterate : string -> option string)
  (recognize : chunk -> string -> recognition) (fuel : nat) (len_audio : Z)
  (language search_string : string) (fuzzy_match : bool) (cutoff : Q) :
  (window_count len_audio (15000 - overlap) <= fuel)%nat ->
  fuzzy_match = false \/ (0 <= cutoff <= 1)%Q ->
  exists texts final,
    process_video ratio transliterate recognize fuel len_audio language
      search_string fuzzy_match cutoff
    = Ok (combine (seq 1 (window_count len_audio (15000 - overlap))) texts,
          final)
    /\ List.length texts = window_count len_audio (15000 - overlap).
Proof.
  intros Hfuel Hv. unfold process_video.
  rewrite split_audio_by_count by (try exact Hfuel; reflexivity).
  cbn [bind]. unfold process.
  destruct (process_chunks_total ratio
              (request_search_words transliterate language search_string)
              fuzzy_match cutoff
              (map (fun c => transcribe_audio_chunk recognize c
                               (if String.eqb language "hi" then "hi-IN"
                                else "en-US"))
                 (map (window (15000 - overlap) 15000)
                    (seq 0 (window_count len_audio (15000 - overlap)))))
              Hv 0%nat []) as [final ->].
  cbn [bind]. do 2 eexists. split.
  - rewrite !length_map, length_seq. reflexivity.
  - now rewrite !length_map, length_seq.
Qed.

Lemma process_video_returns_witness :
  exists texts final,
    process_video prefix_ratio (fun _ => None)
      (fun c _ => if chunk_start c =? 12000 then Recognized "the Fox"
                  else UnknownValueError)
      10 40000 "en" "fox" true (6 # 10)
    = Ok (combine (seq 1 (window_count 40000 (15000 - overlap))) texts, final)
    /\ List.length texts = window_count 40000 (15000 - overlap).
Proof.
  apply process_video_returns.
  - vm_compute. lia.
  - right. split; discriminate.
Defined.

Lemma process_chunks_all_silent (ratio : string -> string -> Q)
  (search_words : list string) (fuzzy_match : bool) (cutoff : Q) (n : nat) :
  forall i ts,
    process_chunks ratio search_words fuzzy_match cutoff i (repeat "" n) ts
    = Ok ts.
Proof.
  induction n as [|n IH]; intros i ts; cbn [repeat]; [reflexivity|].
  rewrite process_chunks_silent. apply IH.
Qed.

Lemma map_constant {A B : Type} (f : A -> B) (b : B) (l : list A) :
  (forall a, f a = b) -> map f l = repeat b (List.length l).
Proof.
  intros H. induction l as [|a l IH]; simpl; [reflexivity|].
  now rewrite H, IH.
Qed.

(** When the recogniser fails on every chunk the request still succeeds:
    every transcription is empty and the dictionary of timestamps is
    empty, for every search string and even with a cutoff that would be
    refused on a word. *)
Theorem process_video_recogniser_down (ratio : string -> string -> Q)
  (transliterate : string -> option string)
  (recognize : chunk -> string -> recognition) (fuel : nat) (len_audio : Z)
  (language search_string : string) (fuzzy_match : bool) (cutoff : Q) :
  (forall c l,
      recognize c l = UnknownValueError \/ recognize c l = RequestError) ->
  (window_count len_audio (15000 - overlap) <= fuel)%nat ->
  process_video ratio transliterate recognize fuel len_audio language
    search_string fuzzy_match cutoff
  = Ok (combine (seq 1 (window_count len_audio (15000 - overlap)))
          (repeat "" (window_count len_audio (15000 - overlap))),
        []).
Proof.
  intros Hdown Hfuel. unfold process_video.
  rewrite split_audio_by_count by (try exact Hfuel; reflexivity).
  cbn [bind].
  rewrite (map_constant
             (fun c => transcribe_audio_chunk recognize c
                         (if String.eqb language "hi" then "hi-IN"
                          else "en-US")) "").
  2:{ intros c. unfold transcribe_audio_chunk.
      destruct (Hdown c (if String.eqb language "hi" then "hi-IN"
                         else "en-US")) as [-> | ->]; reflexivity. }
  unfold process. rewrite process_chunks_all_silent. cbn [bind].
  now rewrite length_map, length_seq, repeat_length.
Qed.

Lemma process_video_recogniser_down_witness :
  process_video prefix_ratio (fun _ => None) (fun _ _ => RequestError) 4
    40000 "hi" "fox quick" true (15 # 10)
  = Ok ([(1%nat, ""); (2%nat, ""); (3%nat, ""); (4%nat, "")], []).
Proof.
  rewrite process_video_recogniser_down.
  - reflexivity.
  - intros c l. now right.
  - vm_compute. lia.
Defined.

Lemma search_without_terms (ratio : string -> string -> Q)
  (transcript : string) (chunk_start_time chunk_length_ms : Z)
  (fuzzy_match : bool) (cutoff : Q) :
  fuzzy_match = false \/ (0 <= cutoff <= 1)%Q ->
  search_word_in_transcript ratio transcript [] chunk_start_time
    chunk_length_ms fuzzy_match cutoff = Ok ([], [], []).
Proof.
  intros Hv.
  assert (Hc : fuzzy_match = true -> (0 <= cutoff <= 1)%Q)
    by (destruct Hv as [->|Hv]; [discriminate | auto]).
  unfold search_word_in_transcript. rewrite scan_occurrences by exact Hc.
  rewrite occurrences_from_none; [reflexivity|].
  intros word _. apply attributed_none; [exact Hc | intros [] |].
  intros _ x [].
Qed.

Lemma process_chunks_without_terms (ratio : string -> string -> Q)
  (fuzzy_match : bool) (cutoff : Q) (texts : list string) :
  fuzzy_match = false \/ (0 <= cutoff <= 1)%Q ->
  forall i ts,
    process_chunks ratio [] fuzzy_match cutoff i texts ts = Ok ts.
Proof.
  intros Hv. induction texts as [|text texts IH]; intros i ts;
    cbn [process_chunks]; [reflexivity|].
  rewrite search_without_terms by exact Hv. cbn [bind]. apply IH.
Qed.

(** A search string that is empty or all blanks finds nothing: the
    dictionary of timestamps is empty whatever is said in the audio. *)
Theorem process_video_blank_search (ratio : string -> string -> Q)
  (transliterate : string -> option string)
  (recognize : chunk -> string -> recognition) (fuel : nat) (len_audio : Z)
  (language search_string : string) (fuzzy_match : bool) (cutoff : Q) :
  split search_string = [] ->
  (window_count len_audio (15000 - overlap) <= fuel)%nat ->
  fuzzy_match = false \/ (0 <= cutoff <= 1)%Q ->
  exists transcriptions,
    process_video ratio transliterate recognize fuel len_audio language
      search_string fuzzy_match cutoff = Ok (transcriptions, []).
Proof.
  intros Hblank Hfuel Hv. unfold process_video.
  rewrite split_audio_by_count by (try exact Hfuel; reflexivity).
  cbn [bind]. unfold request_search_words. rewrite Hblank.
  assert (E : (if String.eqb language "hi"
               then transliterate_search_words transliterate []
               else []) = []) by (destruct (String.eqb language "hi"); reflexivity).
  rewrite E. unfold process.
  rewrite process_chunks_without_terms by exact Hv. cbn [bind]. eauto.
Qed.

Lemma process_video_blank_search_witness :
  exists transcriptions,
    process_video prefix_ratio (fun _ => None)
      (fun _ _ => Recognized "the quick brown fox") 4 40000 "en" "   "
      true (6 # 10) = Ok (transcriptions, []).
Proof.
  apply process_video_blank_search.
  - reflexivity.
  - vm_compute. lia.
  - right. split; discriminate.
Defined.

(** In a run that is not in Hindi the keys of the result are of two kinds:
    a key with a space is a phrase and holds exactly one display time; a
    key without a space is a lower-cased word of the search string. *)
Theorem process_video_keys (ratio : string -> string -> Q)
  (transliterate : string -> option string)
  (recognize : chunk -> string -> recognition) (fuel : nat) (len_audio : Z)
  (language search_string : string) (fuzzy_match : bool) (cutoff : Q)
  (transcriptions : list (nat * string)) (final : dict (list string)) :
  language <> "hi" ->
  process_video ratio transliterate recognize fuel len_audio language
    search_string fuzzy_match cutoff = Ok (transcriptions, final) ->
  forall key times,
    dict_get final key = Some times ->
    (has_space key = true /\ List.length times = 1%nat)
    \/ (has_space key = false /\ In key (map lower (split search_string))).
Proof.
  intros Hlang Hrun key times Hget. unfold process_video in Hrun.
  destruct (split_audio fuel len_audio 15000) as [cs| |]; try discriminate.
  cbn [bind] in Hrun. unfold request_search_words in Hrun.
  apply String.eqb_neq in Hlang. rewrite Hlang in Hrun.
  destruct (process ratio (split search_string) fuzzy_match cutoff _)
    as [final'| |] eqn:Hp; try discriminate.
  cbn [bind] in Hrun. injection Hrun as _ <-. unfold process in Hp.
  destruct (has_space key) eqn:Hs.
  - left. split; [reflexivity|].
    destruct (process_chunks_results ratio (split search_string) fuzzy_match
                cutoff (split_without_space search_string) _ _ _ _ Hp)
      as [rs [_ [Hok ->]]].
    rewrite (fold_merge_chunk_phrase rs key Hok Hs) in Hget.
    cbn [dict_get] in Hget. eapply first_phrase_time_single. exact Hget.
  - right. split; [reflexivity|].
    apply dict_get_Some_key in Hget.
    destruct (process_chunks_keys _ _ _ _ _ _ _ _ Hp key Hget) as [[]|[H|H]];
      [exact H | congruence].
Qed.

Lemma process_video_keys_witness :
  (has_space "alpha beta" = true /\ List.length ["00:00:00"] = 1%nat)
  \/ (has_space "alpha beta" = false
      /\ In "alpha beta" (map lower (split "Alpha beta"))).
Proof.
  apply (process_video_keys prefix_ratio (fun _ => None)
           (fun _ _ => Recognized "alpha beta d d d d d d d d d d d d d d d d d d")
           2 20000 "en" "Alpha beta" false (8 # 10)
           [(1%nat, "alpha beta d d d d d d d d d d d d d d d d d d");
            (2%nat, "alpha beta d d d d d d d d d d d d d d d d d d")]
           [("alpha", ["00:00:00"; "00:00:12"]);
            ("beta", ["00:00:00"; "00:00:12"]); ("alpha beta", ["00:00:00"])]).
  - discriminate.
  - vm_compute. reflexivity.
  - reflexivity.
Defined.

(* ===================================================================== *)
(** * Properties of [allowed_file] *)
(* ===================================================================== *)

Lemma has_dot_append (a b : string) :
  has_dot (a ++ b) = has_dot a || has_dot b.
Proof.
  induction a as [|c a IH]; simpl; [reflexivity|].
  now rewrite IH, orb_assoc.
Qed.

Lemma rsplit_dot_without_dot (s : string) :
  has_dot s = false -> rsplit_dot s = [s].
Proof.
  induction s as [|c s IH]; simpl; [reflexivity|].
  intros H. apply orb_false_iff in H. destruct H as [Hc Hs].
  now rewrite (IH Hs), Hc.
Qed.

(** Splitting at the last dot: the extension is what follows a dot and has
    no dot itself. *)
Lemma rsplit_dot_at_last (stem ext : string) :
  has_dot ext = false ->
  rsplit_dot (stem ++ String "." ext) = [stem; ext].
Proof.
  intros Hext. induction stem as [|c stem IH]; simpl.
  - now rewrite rsplit_dot_without_dot.
  - now rewrite IH.
Qed.

Lemma has_dot_decompose (s : string) :
  has_dot s = true ->
  exists stem ext, s = (stem ++ String "." ext)%string /\ has_dot ext = false.
Proof.
  induction s as [|c s IH]; simpl; [discriminate|].
  destruct (has_dot s) eqn:Hs.
  - intros _. destruct (IH eq_refl) as [stem [ext [-> Hext]]].
    exists (String c stem), ext. auto.
  - rewrite orb_false_r. intros Hc. apply Ascii.eqb_eq in Hc. subst c.
    exists EmptyString, s. auto.
Qed.

Lemma allowed_extension_caseless (ext : string) :
  In (lower ext) ALLOWED_EXTENSIONS
  <-> exists allowed,
      In allowed ALLOWED_EXTENSIONS /\ upper ext = upper allowed.
Proof.
  split.
  - intros H. exists (lower ext). split; [exact H | now rewrite upper_lower].
  - intros [allowed [Hin Heq]]. apply lower_of_upper_eq in Heq. rewrite Heq.
    destruct Hin as [<-|[<-|[<-|[<-|[]]]]]; simpl; tauto.
Qed.

(** On a name of the ASCII range [allowed_file] never fails on the
    subscript, and accepts exactly the names that end in a dot and an
    extension without a dot which is one of the four allowed up to the case
    of its letters: only the last extension counts, and its case does
    not. *)
Theorem allowed_file_by_last_extension (filename : string) :
  is_ascii filename = true ->
  (exists b, allowed_file filename = Some b)
  /\ (allowed_file filename = Some true
      <-> exists stem ext allowed,
          filename = (stem ++ "." ++ ext)%string
          /\ has_dot ext = false
          /\ In allowed ALLOWED_EXTENSIONS
          /\ upper ext = upper allowed).
Proof.
  intros _. unfold allowed_file. destruct (has_dot filename) eqn:Hd.
  - destruct (has_dot_decompose filename Hd) as [stem [ext [-> Hext]]].
    rewrite rsplit_dot_at_last by exact Hext. cbn [nth_error].
    split; [eauto|]. split.
    + intros H.
      assert (H' : mem (lower ext) ALLOWED_EXTENSIONS = true) by congruence.
      apply mem_In, allowed_extension_caseless in H'.
      destruct H' as [allowed [Hin Heq]]. exists stem, ext, allowed. auto.
    + intros [stem' [ext' [allowed [Heq [Hext' [Hin Hup]]]]]].
      assert (E : [stem; ext] = [stem'; ext']).
      { cbn [String.append] in Heq.
        rewrite <- (rsplit_dot_at_last stem ext Hext), Heq.
        now apply rsplit_dot_at_last. }
      injection E as _ ->.
      assert (H' : In (lower ext') ALLOWED_EXTENSIONS)
        by (apply allowed_extension_caseless; eauto).
      apply mem_In in H'. now rewrite H'.
  - split; [eauto|]. split; [discriminate|].
    intros [stem [ext [allowed [-> _]]]]. rewrite has_dot_append in Hd.
    cbn in Hd. rewrite orb_true_r in Hd. discriminate.
Qed.

(** [Holiday.final.MkV] is accepted: its last extension is [mkv] up to
    case. *)
Lemma allowed_file_by_last_extension_witness :
  allowed_file "Holiday.final.MkV" = Some true
  /\ exists b, allowed_file "Holiday.final.MkV" = Some b.
Proof.
  destruct (allowed_file_by_last_extension "Holiday.final.MkV" eq_refl)
    as [H1 [_ H2]].
  split; [|exact H1].
  apply H2. exists "Holiday.final", "MkV", "mkv".
  repeat split. simpl. tauto.
Defined.
